(** * count_unique_ipv6: external-memory counting of distinct IPv6 addresses

    A shallow embedding of [src/count_unique_ipv6.cc] and the properties of
    its address normalizer ([parseIPv6]), partition writer ([BucketWriter]),
    partition reducer ([processBucket]) and coordinator ([main]).

    Conventions of the embedding.
    - C++ integers are [Z]; an unsigned w-bit operation that can leave its
      range is followed by its wrap-around ([wrap32], [wrap16], [wrap64]).
    - [char] is [ascii], compared through its code 0..255. A [char] above
      127 is negative in the source: it is no hexadecimal digit, no colon
      and, in the "C" locale the program runs in, no white space, which is
      what the comparisons on codes give as well.
    - [const std::string& line] with the cursor [i] is the unread remainder
      [line[i..len)] as a [list ascii]: [i < len] is "the remainder is not
      empty", [line[i]] is its head and [i++] drops the head.
    - [uint16_t parts[8]] is a [list Z] read with [!!!] and written with
      [<[ _ := _ ]>]; the indices the code uses are in range
      ([store_index_in_range], [expansion_indices_in_range]).
    - The temporary files are a finite map from file names to the sequence
      of keys they hold (16 bytes each in the source); a file that cannot
      be opened is a file that is not in the map.
    - The input is the list of the lines [std::getline] returns.
    - The standard library is taken by its documented behaviour:
      [std::sort] sorts by [operator<], [std::unique] keeps the first of
      each run of equal neighbours, [std::to_string] and [operator<<] write
      a number in decimal, [fetch_add] and [+=] on a [std::atomic] are
      atomic.
    - The reduce phase is a step relation over the states of the workers;
      its properties are proved for every interleaving.
    - [std::cout] is the list of the lines written, one for each
      [std::endl] ([main_run]). *)

From Stdlib Require Import ZArith Ascii String.
From stdpp Require Import base list strings gmap pretty sorting relations.
From Equations Require Import Equations.
Local Open Scope Z_scope.

(** ** Fixed-width arithmetic *)

Definition wrap16 (x : Z) : Z := x mod 2 ^ 16.
Definition wrap32 (x : Z) : Z := x mod 2 ^ 32.
Definition wrap64 (x : Z) : Z := x mod 2 ^ 64.

(** ** [struct uint128_t] *)

Record uint128_t := Uint128 { hi : Z; lo : Z }.

(** [operator<]: first by the high half, then by the low half. *)
Definition lt128 (a b : uint128_t) : bool :=
  if negb (hi a =? hi b) then hi a <? hi b else lo a <? lo b.

(** [operator==]. *)
Definition eq128 (a b : uint128_t) : bool :=
  (hi a =? hi b) && (lo a =? lo b).

Definition NUM_BUCKETS : Z := 256.
Definition WRITE_BUFFER_SIZE : Z := 1024 * 64.

(** ** The address normalizer *)

Definition code (c : ascii) : Z := Z.of_N (N_of_ascii c).

(** [hexDigitToInt]. *)
Definition hexDigitToInt (c : ascii) : Z :=
  if (code c >=? code "0") && (code c <=? code "9") then code c - code "0"
  else if (code c >=? code "a") && (code c <=? code "f") then code c - code "a" + 10
  else if (code c >=? code "A") && (code c <=? code "F") then code c - code "A" + 10
  else -1.

(** [isspace] in the "C" locale: space, and the controls \t \n \v \f \r. *)
Definition isspace (c : ascii) : bool :=
  (code c =? 32) || ((9 <=? code c) && (code c <=? 13)).

Definition is_colon (c : ascii) : bool := code c =? code ":".

(** The local variables of [parseIPv6] that live across the main loop. *)
Record pstate := PState {
  parts : list Z;
  current_part : Z;
  double_colon_index : Z
}.

(** [while (i < len && isspace(line[i])) i++;] *)
Fixpoint skip_spaces (s : list ascii) : list ascii :=
  match s with
  | c :: s' => if isspace c then skip_spaces s' else s
  | [] => []
  end.

(** The inner loop that reads one hexadecimal number:
    [while (i < len) { digit = hexDigitToInt(line[i]); if (digit == -1) break;
       val = (val << 4) | digit; has_digits = true; i++; }]
    It returns [val], [has_digits] and the remainder of the line. *)
Fixpoint read_hex (s : list ascii) (val : Z) (has_digits : bool)
  : Z * bool * list ascii :=
  match s with
  | [] => (val, has_digits, [])
  | c :: s' =>
      let digit := hexDigitToInt c in
      if digit =? -1 then (val, has_digits, s)
      else read_hex s' (Z.lor (wrap32 (Z.shiftl val 4)) digit) true
  end.

(** How one pass through the body of the main loop ends. *)
Inductive iter :=
| Continue (s : list ascii) (st : pstate)   (* back to the loop test *)
| Break (st : pstate)                       (* [break] *)
| ReturnFalse.                              (* [return false] *)

(** [parts[current_part++] = static_cast<uint16_t>(val);] *)
Definition store_part (st : pstate) (val : Z) : pstate :=
  {| parts := <[Z.to_nat (current_part st) := wrap16 val]> (parts st);
     current_part := current_part st + 1;
     double_colon_index := double_colon_index st |}.

(** [double_colon_index = current_part;] *)
Definition mark_double_colon (st : pstate) : pstate :=
  {| parts := parts st;
     current_part := current_part st;
     double_colon_index := current_part st |}.

(** The body of [while (i < len && current_part < 8)]. *)
Definition loop_body (s : list ascii) (st : pstate) : iter :=
  let '(val, has_digits, s1) := read_hex s 0 false in
  let st1 := if has_digits then store_part st val else st in
  match s1 with
  | [] => Break st1
  | c :: s2 =>
      if isspace c then Break st1
      else if is_colon c then
        match s2 with
        | c2 :: s3 =>
            if is_colon c2 then
              if negb (double_colon_index st1 =? -1) then ReturnFalse
              else Continue s3 (mark_double_colon st1)
            else Continue s2 st1
        | [] => Continue s2 st1
        end
      else ReturnFalse
  end.

Definition inspect {A} (a : A) : {b | a = b} := exist _ a eq_refl.

(** The main loop, [while (i < len && current_part < 8) { ... }]: [None] is
    [return false] from inside the loop, [Some st] the locals when the loop
    is left. Every pass that comes back to the test has consumed a character,
    which is the termination argument. *)
Equations? main_loop (s : list ascii) (st : pstate) : option pstate
  by wf (length s) lt :=
  main_loop [] st := Some st;
  main_loop (c :: s) st with (current_part st <? 8) := {
    | false := Some st
    | true with inspect (loop_body (c :: s) st) := {
        | exist _ (Continue s' st') H := main_loop s' st'
        | exist _ (Break st') _ := Some st'
        | exist _ ReturnFalse _ := None } }.
Proof.
  (* a pass that comes back to the loop test has consumed the colon *)
  assert (Hread : ∀ s0 val h, (length (read_hex s0 val h).2 <= length s0)%nat).
  { intros s0. induction s0 as [|c0 s0 IH]; intros val h; simpl; [lia|].
    destruct (hexDigitToInt c0 =? -1); simpl; [lia|].
    specialize (IH (Z.lor (wrap32 (Z.shiftl val 4)) (hexDigitToInt c0)) true). lia. }
  change (loop_body (c :: s) st = Continue s' st') in H.
  revert H. unfold loop_body.
  specialize (Hread (c :: s) 0 false).
  destruct (read_hex (c :: s) 0 false) as [[val h] s1]. simpl in Hread.
  destruct s1 as [|c1 s2]; [done|].
  destruct (isspace c1); [done|]. destruct (is_colon c1); [|done].
  destruct s2 as [|c2 s3].
  - intros [= <- _]. simpl in *. lia.
  - destruct (is_colon c2).
    + destruct (negb _); [done|]. intros [= <- _]. simpl in *. lia.
    + intros [= <- _]. simpl in *. lia.
Qed.

(** The expansion of [::]:
    [for (int k = 0; k < parts_to_shift; ++k) {
       parts[7 - k] = parts[parts_parsed - 1 - k];
       parts[parts_parsed - 1 - k] = 0; }]
    [n] counts the passes that remain. *)
Fixpoint shift_loop (n : nat) (k : Z) (parts_parsed : Z) (p : list Z) : list Z :=
  match n with
  | O => p
  | S n' =>
      let p1 := <[Z.to_nat (7 - k) := p !!! Z.to_nat (parts_parsed - 1 - k)]> p in
      let p2 := <[Z.to_nat (parts_parsed - 1 - k) := 0]> p1 in
      shift_loop n' (k + 1) parts_parsed p2
  end.

(** The code after the main loop, up to the packing: the eight groups, or
    [None] for [return false]. *)
Definition expand (st : pstate) : option (list Z) :=
  if negb (double_colon_index st =? -1) then
    let parts_parsed := current_part st in
    let parts_to_shift := parts_parsed - double_colon_index st in
    Some (shift_loop (Z.to_nat parts_to_shift) 0 parts_parsed (parts st))
  else if negb (current_part st =? 8) then None
  else Some (parts st).

(** [((uint64_t)a << 48) | ((uint64_t)b << 32) | ((uint64_t)c << 16) | (uint64_t)d] *)
Definition pack4 (a b c d : Z) : Z :=
  Z.lor (Z.lor (Z.lor (wrap64 (Z.shiftl a 48)) (wrap64 (Z.shiftl b 32)))
               (wrap64 (Z.shiftl c 16))) d.

Definition pack (p : list Z) : uint128_t :=
  {| hi := pack4 (p !!! 0%nat) (p !!! 1%nat) (p !!! 2%nat) (p !!! 3%nat);
     lo := pack4 (p !!! 4%nat) (p !!! 5%nat) (p !!! 6%nat) (p !!! 7%nat) |}.

Definition parts0 : list Z := replicate 8 0.

Definition finish (r : option pstate) : option uint128_t :=
  st ← r; p ← expand st; Some (pack p).

(** [parseIPv6] on the characters of the line: [Some key] is [return true]
    with [result = key], [None] is [return false]. *)
Definition parseIPv6_chars (line : list ascii) : option uint128_t :=
  match skip_spaces line with
  | [] => None
  | c :: s1 =>
      if is_colon c then
        match s1 with
        | c1 :: s2 =>
            if is_colon c1 then
              match s2 with
              | [] => Some {| hi := 0; lo := 0 |}
              | c2 :: _ =>
                  if isspace c2 then Some {| hi := 0; lo := 0 |}
                  else finish (main_loop s2 (PState parts0 0 0))
              end
            else None
        | [] => None
        end
      else finish (main_loop (c :: s1) (PState parts0 0 (-1)))
  end.

Definition parseIPv6 (line : string) : option uint128_t :=
  parseIPv6_chars (list_ascii_of_string line).

(** The key written as its eight 16-bit groups, most significant first. *)
Definition key_of_groups (g : list Z) : uint128_t := pack g.

(** ** The partition writer *)

(** [getBucketFileName]. *)
Definition getBucketFileName (bucket_id : Z) : string :=
  "temp_bucket_" +:+ pretty bucket_id +:+ ".bin".

(** [class BucketWriter] together with the files its streams write to:
    [streams[i]] is the file [getBucketFileName i] of [files]. A file holds
    the keys written to it, in order. *)
Record BucketWriter := Writer {
  buffers : list (list uint128_t);
  files : gmap string (list uint128_t)
}.

(** The body of the loop of [BucketWriter::openAll]: [inl file_name] is
    [exit(1)] with the name of the file that could not be opened; once that
    has happened nothing more is done. *)
Definition open_one (can_create : string → bool)
    (r : string + gmap string (list uint128_t)) (i : Z)
  : string + gmap string (list uint128_t) :=
  match r with
  | inl e => inl e
  | inr d =>
      let file_name := getBucketFileName i in
      if can_create file_name then inr (<[file_name := []]> d)
      else inl file_name
  end.

(** [BucketWriter::openAll]: every file is created or truncated, in the
    order of the indices. *)
Definition openAll (can_create : string → bool)
    (d : gmap string (list uint128_t))
  : string + gmap string (list uint128_t) :=
  foldl (open_one can_create) (inr d) (seqZ 0 NUM_BUCKETS).

(** [BucketWriter::flush]. *)
Definition flush (bucket_idx : Z) (w : BucketWriter) : BucketWriter :=
  let buf := buffers w !!! Z.to_nat bucket_idx in
  match buf with
  | [] => w
  | _ :: _ =>
      {| buffers := <[Z.to_nat bucket_idx := []]> (buffers w);
         files := alter (λ old, old ++ buf) (getBucketFileName bucket_idx) (files w) |}
  end.

(** [BucketWriter::add]. *)
Definition add (bucket_idx : Z) (ip : uint128_t) (w : BucketWriter) : BucketWriter :=
  let w1 := {| buffers := <[Z.to_nat bucket_idx :=
                              (buffers w !!! Z.to_nat bucket_idx) ++ [ip]]> (buffers w);
               files := files w |} in
  if Z.of_nat (length (buffers w1 !!! Z.to_nat bucket_idx)) >=? WRITE_BUFFER_SIZE
  then flush bucket_idx w1 else w1.

(** [BucketWriter::flushAllAndClose]. *)
Definition flushAllAndClose (w : BucketWriter) : BucketWriter :=
  foldl (λ w i, flush i w) w (seqZ 0 NUM_BUCKETS).

(** [uint8_t bucketIdx = (ipVal.hi >> 56) & 0xFF;] *)
Definition bucketIdx (ipVal : uint128_t) : Z := Z.land (Z.shiftr (hi ipVal) 56) 255.

(** ** The partition reducer *)

(** The order [std::sort] sorts into: [a] may stand before [b] when
    [!(b < a)]. *)
Definition le128 (a b : uint128_t) : Prop := lt128 b a = false.

Global Instance le128_dec : RelDecision le128.
Proof. intros a b. unfold le128. apply _. Defined.

(** [std::sort(ips.begin(), ips.end())]. The order is total and
    antisymmetric on keys ([sort128_unique] below), so every sorting
    algorithm returns this list. *)
Definition sort128 (l : list uint128_t) : list uint128_t := merge_sort le128 l.

(** [std::unique]: of every run of equal neighbours the first is kept. *)
Fixpoint unique_from (prev : uint128_t) (l : list uint128_t) : list uint128_t :=
  match l with
  | [] => []
  | y :: l' => if eq128 prev y then unique_from prev l' else y :: unique_from y l'
  end.

Definition unique (l : list uint128_t) : list uint128_t :=
  match l with
  | [] => []
  | x :: l' => x :: unique_from x l'
  end.

(** [unique_in_bucket] of [processBucket]. *)
Definition unique_in_bucket (ips : list uint128_t) : Z :=
  Z.of_nat (length (unique (sort128 ips))).

(** What partition [b] adds to the count, given the files. *)
Definition contribution (files : gmap string (list uint128_t)) (b : Z) : Z :=
  match files !! getBucketFileName b with
  | Some ips => unique_in_bucket ips
  | None => 0
  end.

(** What [processBucket] does to files, in order. *)
Inductive fileop :=
| OpOpen (fname : string) (ok : bool)
| OpRead (fname : string)
| OpRemove (fname : string).

(** What the reduce phase shares between the workers: the temporary files
    and [total_unique_count]; [ops] records the file operations made. *)
Record shared := Shared {
  sfiles : gmap string (list uint128_t);
  total_unique_count : Z;
  ops : list fileop
}.

(** [processBucket]. A file that cannot be opened is a file that is not in
    the map. *)
Definition processBucket (bucket_idx : Z) (σ : shared) : shared :=
  let fname := getBucketFileName bucket_idx in
  match sfiles σ !! fname with
  | None =>
      {| sfiles := sfiles σ; total_unique_count := total_unique_count σ;
         ops := ops σ ++ [OpOpen fname false] |}
  | Some ips =>
      let size := 16 * Z.of_nat (length ips) in
      if size =? 0 then
        {| sfiles := delete fname (sfiles σ);
           total_unique_count := total_unique_count σ;
           ops := ops σ ++ [OpOpen fname true; OpRemove fname] |}
      else
        {| sfiles := delete fname (sfiles σ);
           total_unique_count :=
             wrap64 (total_unique_count σ + unique_in_bucket ips);
           ops := ops σ ++ [OpOpen fname true; OpRead fname; OpRemove fname] |}
  end.

(** ** The coordinator *)

Definition CR : ascii := ascii_of_nat 13.

(** [if (line.back() == '\r') line.pop_back();] on a line that is not empty. *)
Definition pop_cr (line : list ascii) : list ascii :=
  match last line with
  | Some c => if code c =? code CR then removelast line else line
  | None => line
  end.

(** One pass of [while (std::getline(inFile, line))]. *)
Definition ingest_line (w : BucketWriter) (line : string) : BucketWriter :=
  let cs := list_ascii_of_string line in
  match cs with
  | [] => w
  | _ :: _ =>
      match parseIPv6_chars (pop_cr cs) with
      | Some ipVal => add (bucketIdx ipVal) ipVal w
      | None => w
      end
  end.

(** Phase 1 after [openAll]: the files when the writer has been closed. *)
Definition phase1 (d : gmap string (list uint128_t)) (lines : list string)
  : gmap string (list uint128_t) :=
  files (flushAllAndClose
           (foldl ingest_line (Writer (replicate (Z.to_nat NUM_BUCKETS) []) d) lines)).

(** Phase 2. A worker is at the head of its loop, about to run
    [currentBucket.fetch_add(1)]; or it holds an index [b < NUM_BUCKETS] and
    is about to run [processBucket(b)]; or it has left the loop. *)
Inductive worker :=
| AtFetch
| Claimed (b : Z)
| Finished.

Record reduce_state := Reduce {
  currentBucket : Z;
  workers : list worker;
  sh : shared;
  claims : list (nat * Z);   (* which worker fetched which value, oldest first *)
  calls : list Z             (* the calls [processBucket(b)] made, oldest first *)
}.

(** One atomic action of one worker. [fetch_add] is atomic by
    [std::atomic]; [processBucket b] touches the file of [b] only and adds
    to [total_unique_count] atomically, so it is one action here. *)
Inductive step : reduce_state → reduce_state → Prop :=
| step_fetch σ i :
    workers σ !! i = Some AtFetch →
    let b := currentBucket σ in
    step σ {| currentBucket := wrap64 (b + 1);
              workers := <[i := if b >=? NUM_BUCKETS then Finished else Claimed b]> (workers σ);
              sh := sh σ;
              claims := claims σ ++ [(i, b)];
              calls := calls σ |}
| step_process σ i b :
    workers σ !! i = Some (Claimed b) →
    step σ {| currentBucket := currentBucket σ;
              workers := <[i := AtFetch]> (workers σ);
              sh := processBucket b (sh σ);
              claims := claims σ;
              calls := calls σ ++ [b] |}.

Definition reduce_init (nThreads : Z) (d : gmap string (list uint128_t)) : reduce_state :=
  {| currentBucket := 0;
     workers := replicate (Z.to_nat nThreads) AtFetch;
     sh := Shared d 0 [];
     claims := [];
     calls := [] |}.

(** All threads have been joined. *)
Definition joined (σ : reduce_state) : Prop :=
  Forall (λ t, t = Finished) (workers σ).

(** What the process is started in. *)
Record world := World {
  argc : Z;
  argv0 : string;
  input_file : option (list string);   (* [None]: cannot be opened; else its lines *)
  can_create : string → bool;          (* may this temporary file be opened for writing *)
  disk0 : gmap string (list uint128_t);(* temporary files already there *)
  hardware_concurrency : Z;
  output_writable : bool
}.

Record outcome := Outcome {
  exit_status : Z;
  cerr : list string;
  output_file : option string          (* what was written to the output file *)
}.

(** [nThreads] of [main]. *)
Definition nThreads (w : world) : Z :=
  if hardware_concurrency w =? 0 then 4 else hardware_concurrency w.

Definition newline : string := String (ascii_of_nat 10) EmptyString.

(** The end of [main], from [std::ofstream outFile(outputPath)]. *)
Definition write_result (w : world) (total : Z) : outcome :=
  if output_writable w then
    {| exit_status := 0; cerr := []; output_file := Some (pretty total +:+ newline) |}
  else
    {| exit_status := 0; cerr := ["Error: Could not write output file."];
       output_file := None |}.

(** [main]: the outcomes it can have in a world, over all interleavings of
    the workers. *)
Definition usage (w : world) : string :=
  "Usage in format: " +:+ argv0 w +:+ " <input_file> <output_file>".

Inductive main_outcome (w : world) : outcome → Prop :=
| main_usage :
    argc w ≠ 3 →
    main_outcome w (Outcome 1 [usage w] None)
| main_no_input :
    argc w = 3 → input_file w = None →
    main_outcome w (Outcome 1 ["Error: Could not open input file."] None)
| main_no_temp lines file_name :
    argc w = 3 → input_file w = Some lines →
    openAll (can_create w) (disk0 w) = inl file_name →
    main_outcome w (Outcome 1 ["Error: Could not open temp file " +:+ file_name] None)
| main_counted lines d σ :
    argc w = 3 → input_file w = Some lines →
    openAll (can_create w) (disk0 w) = inr d →
    rtc step (reduce_init (nThreads w) (phase1 d lines)) σ →
    joined σ →
    main_outcome w (write_result w (total_unique_count (sh σ))).

(** The schedule in which one worker does everything, as a function. *)
Definition reduce_seq (d : gmap string (list uint128_t)) : shared :=
  foldl (λ σ b, processBucket b σ) (Shared d 0 []) (seqZ 0 NUM_BUCKETS).

Definition main_seq (w : world) : outcome :=
  if negb (argc w =? 3) then Outcome 1 [usage w] None
  else match input_file w with
       | None => Outcome 1 ["Error: Could not open input file."] None
       | Some lines =>
           match openAll (can_create w) (disk0 w) with
           | inl file_name => Outcome 1 ["Error: Could not open temp file " +:+ file_name] None
           | inr d => write_result w (total_unique_count (reduce_seq (phase1 d lines)))
           end
       end.

(** ** Textual addresses, for the statements about the normalizer *)

Definition is_hex (c : ascii) : bool := negb (hexDigitToInt c =? -1).

(** The number a string of hexadecimal digits denotes, without any bound. *)
Definition hex_acc (v : Z) (ds : list ascii) : Z :=
  foldl (λ v c, 16 * v + hexDigitToInt c) v ds.
Definition hex_value (ds : list ascii) : Z := hex_acc 0 ds.

(** Does the text begin with a hexadecimal digit. *)
Definition starts_hex (s : list ascii) : bool :=
  match s with c :: _ => is_hex c | [] => false end.

(** A group: one hexadecimal digit or more. *)
Definition is_group (g : list ascii) : bool :=
  negb (bool_decide (g = [])) && forallb is_hex g.

(** Groups separated by single colons. *)
Fixpoint join (gs : list (list ascii)) : list ascii :=
  match gs with
  | [] => []
  | [g] => g
  | g :: gs' => g ++ ":"%char :: join gs'
  end.

Definition starts_colon (s : list ascii) : bool :=
  match s with c :: _ => is_colon c | [] => false end.

(** The text ends, or goes on with white space: where [parseIPv6] stops
    reading. *)
Definition ends (s : list ascii) : bool :=
  match s with c :: _ => isspace c | [] => true end.

(** The occurrences of the marker [::] in a text, read from the left. *)
Fixpoint count_markers (s : list ascii) : nat :=
  match s with
  | c1 :: s' =>
      match s' with
      | c2 :: s'' =>
          if is_colon c1 && is_colon c2 then S (count_markers s'')
          else count_markers s'
      | [] => O
      end
  | [] => O
  end.

(** The value [parseIPv6] stores for a group. *)
Definition group_value (g : list ascii) : Z := hex_value g mod 2 ^ 16.

(** The key a line of the input contributes, if any: what [ingest_line]
    passes to [add]. *)
Definition line_key (line : string) : option uint128_t :=
  match list_ascii_of_string line with
  | [] => None
  | c :: cs => parseIPv6_chars (pop_cr (c :: cs))
  end.

(** The keys of the input, in the order of the lines. *)
Definition keys_of (lines : list string) : list uint128_t := omap line_key lines.

(** The keys that belong to partition [b]. *)
Definition bucket_keys (b : Z) (ks : list uint128_t) : list uint128_t :=
  filter (λ k, bucketIdx k = b) ks.

(** ** The textual forms of an address, as the specification gives them

    The grammar of the specification (4.1): eight colon-separated groups
    of one to four hexadecimal digits, or fewer groups with one marker [::]
    that stands for the all-zero groups needed to reach eight. These
    definitions follow the specification, not the code; [parseIPv6] is
    compared with them. *)

Inductive text_form :=
| Full (gs : list (list ascii))            (* g1:g2:...:g8 *)
| Compressed (a b : list (list ascii)).    (* a1:...:an::b1:...:bm *)

(** One to four hexadecimal digits. *)
Definition is_field (g : list ascii) : bool :=
  is_group g && (Z.of_nat (length g) <=? 4).

Definition spec_well_formed (t : text_form) : Prop :=
  match t with
  | Full gs => Forall (λ g, is_field g = true) gs ∧ length gs = 8%nat
  | Compressed a b =>
      Forall (λ g, is_field g = true) a ∧ Forall (λ g, is_field g = true) b
      ∧ (length a + length b <= 7)%nat
  end.

Definition spec_render (t : text_form) : list ascii :=
  match t with
  | Full gs => join gs
  | Compressed a b => join a ++ ":"%char :: ":"%char :: join b
  end.

(** The eight groups of the address a text stands for. *)
Definition spec_groups (t : text_form) : list Z :=
  match t with
  | Full gs => map hex_value gs
  | Compressed a b =>
      map hex_value a ++ replicate (8 - length a - length b) 0 ++ map hex_value b
  end.

(** Does a text hold two colons side by side. *)
Fixpoint has_marker (s : list ascii) : bool :=
  match s with
  | c1 :: s' =>
      match s' with
      | c2 :: _ => (is_colon c1 && is_colon c2) || has_marker s'
      | [] => false
      end
  | [] => false
  end.

(** The number of colons of a text. *)
Definition colons (s : list ascii) : nat :=
  length (filter (λ c, is_colon c = true) s).

(** The line of the input that holds a text. *)
Definition text (t : text_form) : string := string_of_list_ascii (spec_render t).

(** A world in which nothing fails, for examples. *)
Definition quiet_world (lines : list string) : world :=
  {| argc := 3; argv0 := "count_unique_ipv6"; input_file := Some lines;
     can_create := λ _, true; disk0 := ∅;
     hardware_concurrency := 8; output_writable := true |}.

(** The files [openAll] leaves when every file can be created. *)
Definition fresh_disk : gmap string (list uint128_t) :=
  match openAll (λ _, true) ∅ with inr d => d | inl _ => ∅ end.

(** The scenario of the specification: two distinct addresses. *)
Definition scenario_lines : list string :=
  ["::1"; "::1"; "fe80::1"; "not-an-ip"; ""].

(** The index a worker holds, if it holds one. *)
Definition holds (t : worker) : option Z :=
  match t with Claimed b => Some b | _ => None end.

(** The indices fetched and not yet passed to [processBucket]. *)
Definition claimed_of (ws : list worker) : list Z := omap holds ws.

Global Instance worker_eq_dec : EqDecision worker.
Proof. solve_decision. Defined.

(** How many workers are in state [t]. *)
Definition count_of (t : worker) (ws : list worker) : Z :=
  Z.of_nat (length (filter (λ t', t' = t) ws)).

(** The number of actions the reduce phase still has to make. *)
Definition remaining (σ : reduce_state) : Z :=
  2 * (NUM_BUCKETS - Z.min (currentBucket σ) NUM_BUCKETS)
  + 2 * Z.of_nat (length (claimed_of (workers σ)))
  + count_of AtFetch (workers σ).

(** ** Definitions for the statements and their proofs *)

(** The accumulator of the inner loop after the digits [ds]. *)
Definition acc32 (v : Z) (ds : list ascii) : Z :=
  foldl (λ v c, Z.lor (wrap32 (Z.shiftl v 4)) (hexDigitToInt c)) v ds.

(** The locals after a pass has read the digits [g] (none, when [g] is empty). *)
Definition opt_store (st : pstate) (g : list ascii) : pstate :=
  if bool_decide (g = []) then st else store_part st (acc32 0 g).

(** The locals after the groups [gs] have been stored one after the other. *)
Definition stores (st : pstate) (gs : list (list ascii)) : pstate :=
  foldl (λ st g, store_part st (acc32 0 g)) st gs.

(** A value of a [uint16_t]. *)
Definition group_ok (p : Z) : Prop := 0 <= p < 2 ^ 16.

(** What holds of the locals of [parseIPv6] all along. *)
Record pstate_ok (st : pstate) : Prop := {
  ok_length : length (parts st) = 8%nat;
  ok_groups : Forall group_ok (parts st);
  ok_current : 0 <= current_part st <= 8;
  ok_marker : -1 <= double_colon_index st <= current_part st
}.

Global Instance uint128_eq_dec : EqDecision uint128_t.
Proof. solve_decision. Defined.

(** The sum of a list of integers. *)
Definition sumZ (l : list Z) : Z := foldr Z.add 0 l.

(** The indices of the partitions. *)
Definition is_bucket (b : Z) : Prop := 0 <= b < NUM_BUCKETS.

Ltac bucket_lia := unfold is_bucket, NUM_BUCKETS in *; lia.

(** What holds of the writer when the keys [ks] have been added: every key
    is in the file or in the buffer of its partition, in the order of
    arrival. *)
Record writer_inv (ks : list uint128_t) (w : BucketWriter) : Prop := {
  wi_length : length (buffers w) = Z.to_nat NUM_BUCKETS;
  wi_bucket : ∀ b, is_bucket b ->
    ∃ on_disk, files w !! getBucketFileName b = Some on_disk
               ∧ on_disk ++ buffers w !!! Z.to_nat b = bucket_keys b ks
}.

(** What holds in every state the reduce phase can be in, for [n] workers
    started on the files [d]. *)
Record reduce_inv (n : nat) (d : gmap string (list uint128_t)) (σ : reduce_state)
  : Prop := {
  ri_workers : length (workers σ) = n;
  ri_counter : 0 <= currentBucket σ;
  ri_finished : count_of Finished (workers σ) = Z.max 0 (currentBucket σ - NUM_BUCKETS);
  ri_claims : (snd <$> claims σ) = seqZ 0 (currentBucket σ);
  ri_work :
    calls σ ++ claimed_of (workers σ) ≡ₚ seqZ 0 (Z.min (currentBucket σ) NUM_BUCKETS);
  ri_shared : sh σ = foldl (λ s b, processBucket b s) (Shared d 0 []) (calls σ)
}.

Global Instance joined_dec σ : Decision (joined σ).
Proof. unfold joined. apply _. Defined.

(** Checks that explicit groups are groups, for the examples. *)
Ltac check_groups :=
  simpl;
  repeat match goal with
         | |- _ ∧ _ => split
         | |- Forall _ [] => apply Forall_nil_2
         | |- Forall _ (_ :: _) => apply Forall_cons_2; [vm_compute; reflexivity|]
         | |- _ = _ => reflexivity
         | |- (_ <= _)%nat => simpl; lia
         end.

(** ** Definitions for the further properties *)

(** The sixteen hexadecimal digits, in lower and in upper case. *)
Definition hex_digits_lower : list ascii := list_ascii_of_string "0123456789abcdef".
Definition hex_digits_upper : list ascii := list_ascii_of_string "0123456789ABCDEF".

(** A letter [A]..[Z] turned into lower case, a letter [a]..[z] into upper
    case; every other character is left as it is. *)
Definition to_lower (c : ascii) : ascii :=
  if (code "A" <=? code c) && (code c <=? code "Z")
  then ascii_of_N (N_of_ascii c + 32) else c.

Definition to_upper (c : ascii) : ascii :=
  if (code "a" <=? code c) && (code c <=? code "z")
  then ascii_of_N (N_of_ascii c - 32) else c.

(** The 128-bit number a key stands for. *)
Definition value128 (a : uint128_t) : Z := hi a * 2 ^ 64 + lo a.

(** The result of a pass of the main loop, with the rest of the line seen
    through a change of characters. *)
Definition map_iter (f : ascii → ascii) (r : iter) : iter :=
  match r with
  | Continue s st => Continue (f <$> s) st
  | Break st => Break st
  | ReturnFalse => ReturnFalse
  end.

(** The writer when the lines have been read, before [flushAllAndClose]. *)
Definition ingested (d : gmap string (list uint128_t)) (lines : list string)
  : BucketWriter :=
  foldl ingest_line (Writer (replicate (Z.to_nat NUM_BUCKETS) []) d) lines.

(** What holds of the writer between two calls of [add]: no buffer is
    full, and every file holds a whole number of buffers. *)
Record writer_blocks (w : BucketWriter) : Prop := {
  wb_buffer : ∀ b, is_bucket b ->
    Z.of_nat (length (buffers w !!! Z.to_nat b)) < WRITE_BUFFER_SIZE;
  wb_file : ∀ b on_disk, is_bucket b ->
    files w !! getBucketFileName b = Some on_disk ->
    Z.of_nat (length on_disk) mod WRITE_BUFFER_SIZE = 0
}.

(** The count after [processBucket] on a partition whose file, if it can be
    opened, holds [o], from the count [t] before. *)
Definition total_after (o : option (list uint128_t)) (t : Z) : Z :=
  match o with
  | Some ips =>
      if 16 * Z.of_nat (length ips) =? 0 then t
      else wrap64 (t + unique_in_bucket ips)
  | None => t
  end.


(** The same world with another number of hardware threads, and with
    another input. *)
Definition with_threads (w : world) (h : Z) : world :=
  {| argc := argc w; argv0 := argv0 w; input_file := input_file w;
     can_create := can_create w; disk0 := disk0 w;
     hardware_concurrency := h; output_writable := output_writable w |}.

Definition with_input (w : world) (lines : list string) : world :=
  {| argc := argc w; argv0 := argv0 w; input_file := Some lines;
     can_create := can_create w; disk0 := disk0 w;
     hardware_concurrency := hardware_concurrency w;
     output_writable := output_writable w |}.

(** ** [main] with what it writes to [std::cout]

    The lines written to the standard output, one entry for each
    [std::endl]. *)

Definition phase1_line : string := "Phase 1: Reading file and partitioning...".
Definition phase2_line : string := "Phase 2: Counting uniques in buckets...".

(** ["Processed over " << processedLines << " lines..."] *)
Definition progress_line (processedLines : Z) : string :=
  "Processed over " +:+ pretty processedLines +:+ " lines...".

(** ["Done. Found " << total_unique_count.load() << " unique IPv6 addresses."] *)
Definition done_line (total : Z) : string :=
  "Done. Found " +:+ pretty total +:+ " unique IPv6 addresses.".

(** One pass of the reading loop, for [processedLines] and the progress
    lines written so far: an empty line is skipped by [continue]; every
    other line, accepted or not, is counted. *)
Definition count_line (acc : Z * list string) (line : string) : Z * list string :=
  match list_ascii_of_string line with
  | [] => acc
  | _ :: _ =>
      let processedLines := wrap64 (acc.1 + 1) in
      (processedLines,
       if processedLines mod 10000000 =? 0
       then acc.2 ++ [progress_line processedLines] else acc.2)
  end.

(** The progress lines of phase 1. *)
Definition progress (lines : list string) : list string :=
  (foldl count_line (0, []) lines).2.

(** [main] with its standard output: the outcome and the lines written to
    [std::cout], over all interleavings of the workers. *)
Inductive main_run (w : world) : outcome → list string → Prop :=
| run_usage :
    argc w ≠ 3 →
    main_run w (Outcome 1 [usage w] None) []
| run_no_input :
    argc w = 3 → input_file w = None →
    main_run w (Outcome 1 ["Error: Could not open input file."] None) [phase1_line]
| run_no_temp lines file_name :
    argc w = 3 → input_file w = Some lines →
    openAll (can_create w) (disk0 w) = inl file_name →
    main_run w (Outcome 1 ["Error: Could not open temp file " +:+ file_name] None)
             [phase1_line]
| run_counted lines d σ :
    argc w = 3 → input_file w = Some lines →
    openAll (can_create w) (disk0 w) = inr d →
    rtc step (reduce_init (nThreads w) (phase1 d lines)) σ →
    joined σ →
    main_run w (write_result w (total_unique_count (sh σ)))
             (phase1_line :: progress lines
                ++ [phase2_line; done_line (total_unique_count (sh σ))]).

(** The lines of the input that are not empty. *)
Definition nonempty_lines (lines : list string) : list string :=
  filter (λ l, l ≠ EmptyString) lines.

(** The number of keys in the file of partition [b]. *)
Definition file_length (files : gmap string (list uint128_t)) (b : Z) : Z :=
  match files !! getBucketFileName b with
  | Some ks => Z.of_nat (length ks)
  | None => 0
  end.

(** * Properties *)

(** ** Termination of the main loop, and its unfolding *)

Lemma read_hex_length s val h :
  (length (read_hex s val h).2 <= length s)%nat.
Proof.
  revert val h. induction s as [|c s IH]; intros val h; simpl; [lia|].
  destruct (hexDigitToInt c =? -1); simpl; [lia|].
  specialize (IH (Z.lor (wrap32 (Z.shiftl val 4)) (hexDigitToInt c)) true). lia.
Qed.

Lemma loop_body_Continue_length s st s' st' :
  loop_body s st = Continue s' st' -> (length s' < length s)%nat.
Proof.
  unfold loop_body. pose proof (read_hex_length s 0 false) as Hl.
  destruct (read_hex s 0 false) as [[val h] s1]. simpl in Hl.
  destruct s1 as [|c s2]; [done|].
  destruct (isspace c); [done|]. destruct (is_colon c); [|done].
  destruct s2 as [|c2 s3].
  - intros [= <- _]. simpl in *. lia.
  - destruct (is_colon c2).
    + destruct (negb _); [done|]. intros [= <- _]. simpl in *. lia.
    + intros [= <- _]. simpl in *. lia.
Qed.

Lemma main_loop_eq s st :
  main_loop s st =
  match s with
  | [] => Some st
  | _ :: _ =>
      if current_part st <? 8 then
        match loop_body s st with
        | Continue s' st' => main_loop s' st'
        | Break st' => Some st'
        | ReturnFalse => None
        end
      else Some st
  end.
Proof.
  destruct s as [|c s]; simp main_loop; [done|].
  destruct (current_part st <? 8); simpl; [|done].
  generalize (inspect (loop_body (c :: s) st)).
  intros [r Hr]. rewrite Hr. destruct r; simpl; done.
Qed.

Example parse_ex1 :
  parseIPv6 "2001:db8::ff00:42:8329"
  = Some (key_of_groups [0x2001; 0xdb8; 0; 0; 0; 0xff00; 0x42; 0x8329]).
Proof. vm_compute. reflexivity. Qed.

(** ** Arithmetic of the digit accumulator *)

Lemma land_shiftl4_digit q d : 0 <= d < 16 -> Z.land (Z.shiftl q 4) d = 0.
Proof.
  intros Hd. apply Z.bits_inj'. intros n Hn.
  rewrite Z.land_spec, Z.bits_0.
  destruct (decide (n < 4)) as [Hlt|Hge].
  - rewrite Z.shiftl_spec_low by lia. done.
  - destruct (decide (d = 0)) as [->|Hd0].
    + rewrite Z.bits_0. apply andb_false_r.
    + rewrite (Z.bits_above_log2 d n); [apply andb_false_r|lia|].
      assert (Z.log2 d < 4); [|lia].
      apply Z.log2_lt_pow2; lia.
Qed.

Lemma lor_shift_digit v d :
  0 <= d < 16 -> Z.lor (wrap32 (Z.shiftl v 4)) d = wrap32 (16 * v + d).
Proof.
  intros Hd. unfold wrap32.
  rewrite Z.shiftl_mul_pow2 by lia.
  assert (Hq : (v * 2 ^ 4) mod 2 ^ 32 = Z.shiftl (v mod 2 ^ 28) 4).
  { rewrite Z.shiftl_mul_pow2 by lia.
    change (2 ^ 32) with (2 ^ 28 * 2 ^ 4).
    rewrite Z.mul_mod_distr_r by lia. done. }
  rewrite Hq.
  rewrite <- Z.lxor_lor by (apply land_shiftl4_digit; done).
  rewrite <- Z.add_nocarry_lxor by (apply land_shiftl4_digit; done).
  rewrite Z.shiftl_mul_pow2 by lia.
  change (2 ^ 4) with 16.
  pose proof (Z.mod_pos_bound v (2 ^ 28) ltac:(lia)) as Hb.
  rewrite (Z.div_mod v (2 ^ 28)) at 2 by lia.
  replace (16 * (2 ^ 28 * (v `div` 2 ^ 28) + v `mod` 2 ^ 28) + d)
    with ((v `mod` 2 ^ 28 * 16 + d) + (v `div` 2 ^ 28) * 2 ^ 32) by lia.
  rewrite Z.mod_add by lia.
  symmetry. apply Z.mod_small. lia.
Qed.

Lemma hexDigitToInt_range c : hexDigitToInt c = -1 ∨ 0 <= hexDigitToInt c < 16.
Proof.
  unfold hexDigitToInt.
  change (code "0") with 48. change (code "9") with 57.
  change (code "a") with 97. change (code "f") with 102.
  change (code "A") with 65. change (code "F") with 70.
  repeat case_match; try lia.
Qed.

Lemma is_hex_range c : is_hex c = true -> 0 <= hexDigitToInt c < 16.
Proof.
  unfold is_hex. intros H. destruct (hexDigitToInt_range c) as [Hc|Hc]; [|done].
  rewrite Hc in H. done.
Qed.

Lemma hex_acc_lin v ds : hex_acc v ds = v * 16 ^ Z.of_nat (length ds) + hex_acc 0 ds.
Proof.
  unfold hex_acc. revert v. induction ds as [|c ds IH]; intros v; simpl; [lia|].
  rewrite (IH (16 * v + _)), (IH (16 * 0 + _)).
  rewrite Nat2Z.inj_succ, Z.pow_succ_r by lia. lia.
Qed.

Lemma acc32_hex_acc ds v :
  forallb is_hex ds = true -> 0 <= v < 2 ^ 32 ->
  acc32 v ds = wrap32 (hex_acc v ds).
Proof.
  revert v. induction ds as [|c ds IH]; intros v Hds Hv; simpl.
  - unfold wrap32. rewrite Z.mod_small; done.
  - simpl in Hds. apply andb_true_iff in Hds as [Hc Hds].
    apply is_hex_range in Hc.
    unfold acc32, hex_acc in *. simpl.
    rewrite lor_shift_digit by done.
    rewrite IH; [|done|apply Z.mod_pos_bound; lia].
    fold (hex_acc (wrap32 (16 * v + hexDigitToInt c)) ds).
    fold (hex_acc (16 * v + hexDigitToInt c) ds).
    rewrite (hex_acc_lin (wrap32 _)), (hex_acc_lin (16 * v + _)).
    unfold wrap32.
    rewrite Z.add_mod by lia. rewrite Z.mul_mod_idemp_l by lia.
    rewrite <- Z.add_mod by lia. done.
Qed.

Lemma wrap16_acc32 ds :
  forallb is_hex ds = true -> wrap16 (acc32 0 ds) = group_value ds.
Proof.
  intros Hds. rewrite acc32_hex_acc by (done || lia).
  unfold wrap16, wrap32, group_value, hex_value.
  apply Z.mod_mod_divide. exists (2 ^ 16). lia.
Qed.

Lemma read_hex_digits ds rest v h :
  forallb is_hex ds = true ->
  starts_hex rest = false ->
  read_hex (ds ++ rest) v h
  = (acc32 v ds, h || negb (bool_decide (ds = [])), rest).
Proof.
  intros Hds Hrest. revert v h.
  induction ds as [|c ds IH]; intros v h; simpl.
  - rewrite orb_false_r. destruct rest as [|c rest]; simpl; [done|].
    simpl in Hrest. unfold is_hex in Hrest.
    destruct (hexDigitToInt c =? -1); done.
  - simpl in Hds. apply andb_true_iff in Hds as [Hc Hds].
    unfold is_hex in Hc. destruct (hexDigitToInt c =? -1); [done|].
    rewrite IH by done. rewrite orb_true_l, orb_true_r. done.
Qed.

(** ** One pass of the main loop *)

Lemma hex_not_sep c : is_hex c = true -> is_colon c = false ∧ isspace c = false.
Proof. destruct c as [[] [] [] [] [] [] [] []]; vm_compute; intuition congruence. Qed.

Lemma space_not_hex c : isspace c = true -> is_hex c = false ∧ is_colon c = false.
Proof. destruct c as [[] [] [] [] [] [] [] []]; vm_compute; intuition congruence. Qed.

Lemma colon_not_hex c : is_colon c = true -> is_hex c = false ∧ isspace c = false.
Proof. destruct c as [[] [] [] [] [] [] [] []]; vm_compute; intuition congruence. Qed.

Lemma is_colon_eq c : is_colon c = true -> c = ":"%char.
Proof. destruct c as [[] [] [] [] [] [] [] []]; vm_compute; congruence. Qed.

Lemma ends_not_hex t : ends t = true -> starts_hex t = false.
Proof. destruct t as [|c t]; simpl; [done|]. intros H. by apply space_not_hex in H as [? _]. Qed.

Lemma ends_not_colon t : ends t = true -> starts_colon t = false.
Proof. destruct t as [|c t]; simpl; [done|]. intros H. by apply space_not_hex in H as [_ ?]. Qed.

Lemma starts_hex_not_colon s : starts_hex s = true -> starts_colon s = false.
Proof. destruct s as [|c s]; simpl; [done|]. intros H. by apply hex_not_sep in H as [? _]. Qed.

Lemma starts_hex_not_ends s : starts_hex s = true -> ends s = false.
Proof. destruct s as [|c s]; simpl; [done|]. intros H. by apply hex_not_sep in H as [_ ?]. Qed.

Lemma starts_colon_not_hex s : starts_colon s = true -> starts_hex s = false.
Proof. destruct s as [|c s]; simpl; [done|]. intros H. by apply colon_not_hex in H as [? _]. Qed.

Lemma is_group_inv g :
  is_group g = true -> g ≠ [] ∧ forallb is_hex g = true.
Proof.
  unfold is_group. intros [H1 H2]%andb_true_iff. split; [|done].
  apply negb_true_iff, bool_decide_eq_false in H1. done.
Qed.

Lemma starts_hex_group g rest : is_group g = true -> starts_hex (g ++ rest) = true.
Proof.
  intros [Hne Hg]%is_group_inv. destruct g as [|c g]; [done|]. simpl in *.
  by apply andb_true_iff in Hg as [? _].
Qed.

Lemma loop_body_digits g rest st :
  forallb is_hex g = true -> starts_hex rest = false ->
  loop_body (g ++ rest) st = loop_body rest (opt_store st g).
Proof.
  intros Hg Hrest. unfold loop_body at 1.
  rewrite read_hex_digits by done. simpl.
  unfold loop_body.
  pose proof (read_hex_digits [] rest 0 false eq_refl Hrest) as Hr.
  simpl in Hr. rewrite Hr.
  unfold opt_store. destruct (bool_decide (g = [])); done.
Qed.

Lemma loop_body_colon s st :
  starts_colon s = false -> loop_body (":"%char :: s) st = Continue s st.
Proof.
  intros Hs. unfold loop_body. simpl.
  destruct s as [|c s]; [done|]. simpl in Hs. rewrite Hs. done.
Qed.

Lemma loop_body_double_colon s st :
  loop_body (":"%char :: ":"%char :: s) st
  = if negb (double_colon_index st =? -1) then ReturnFalse
    else Continue s (mark_double_colon st).
Proof. done. Qed.

Lemma loop_body_ends t st : ends t = true -> loop_body t st = Break st.
Proof.
  intros Ht. unfold loop_body.
  pose proof (read_hex_digits [] t 0 false eq_refl (ends_not_hex t Ht)) as Hr.
  simpl in Hr. rewrite Hr. destruct t as [|c t]; [done|]. simpl in Ht. by rewrite Ht.
Qed.

(** ** The main loop on groups *)

Lemma main_loop_ends t st : ends t = true -> main_loop t st = Some st.
Proof.
  intros Ht. rewrite main_loop_eq. destruct t as [|c t]; [done|].
  rewrite loop_body_ends by done. by destruct (current_part st <? 8).
Qed.

Lemma main_loop_full s st : 8 <= current_part st -> main_loop s st = Some st.
Proof.
  intros Hc. rewrite main_loop_eq. destruct s as [|c s]; [done|].
  destruct (Z.ltb_spec (current_part st) 8); [lia|done].
Qed.

Lemma main_loop_step g rest st :
  is_group g = true -> starts_hex rest = false -> current_part st < 8 ->
  main_loop (g ++ rest) st =
  match loop_body rest (store_part st (acc32 0 g)) with
  | Continue s' st' => main_loop s' st'
  | Break st' => Some st'
  | ReturnFalse => None
  end.
Proof.
  intros [Hne Hg]%is_group_inv Hrest Hc. rewrite main_loop_eq.
  rewrite loop_body_digits by done.
  unfold opt_store. rewrite bool_decide_eq_false_2 by done.
  destruct (Z.ltb_spec (current_part st) 8); [|lia].
  destruct g; done.
Qed.

Lemma main_loop_group_colon g s st :
  is_group g = true -> starts_colon s = false -> current_part st < 8 ->
  main_loop (g ++ ":"%char :: s) st = main_loop s (store_part st (acc32 0 g)).
Proof.
  intros Hg Hs Hc. rewrite main_loop_step by done.
  by rewrite loop_body_colon.
Qed.

Lemma main_loop_group_double_colon g s st :
  is_group g = true -> current_part st < 8 ->
  main_loop (g ++ ":"%char :: ":"%char :: s) st =
  if negb (double_colon_index st =? -1) then None
  else main_loop s (mark_double_colon (store_part st (acc32 0 g))).
Proof.
  intros Hg Hc. rewrite main_loop_step by done.
  rewrite loop_body_double_colon. simpl. by destruct (negb _).
Qed.

Lemma main_loop_group_ends g t st :
  is_group g = true -> ends t = true -> current_part st < 8 ->
  main_loop (g ++ t) st = Some (store_part st (acc32 0 g)).
Proof.
  intros Hg Ht Hc. rewrite main_loop_step by auto using ends_not_hex.
  by rewrite loop_body_ends.
Qed.

Lemma main_loop_double_colon s st :
  current_part st < 8 ->
  main_loop (":"%char :: ":"%char :: s) st =
  if negb (double_colon_index st =? -1) then None
  else main_loop s (mark_double_colon st).
Proof.
  intros Hc. rewrite main_loop_eq, loop_body_double_colon.
  destruct (Z.ltb_spec (current_part st) 8); [|lia]. by destruct (negb _).
Qed.

Lemma stores_current_part gs st :
  current_part (stores st gs) = current_part st + Z.of_nat (length gs).
Proof.
  revert st. induction gs as [|g gs IH]; intros st; simpl; [lia|].
  rewrite IH. simpl. lia.
Qed.

Lemma stores_double_colon_index gs st :
  double_colon_index (stores st gs) = double_colon_index st.
Proof. revert st. induction gs as [|g gs IH]; intros st; simpl; [done|]. by rewrite IH. Qed.

Lemma starts_hex_join g gs rest :
  Forall (λ g, is_group g = true) (g :: gs) -> starts_hex (join (g :: gs) ++ rest) = true.
Proof.
  intros Hgs. apply Forall_cons in Hgs as [Hg _].
  destruct gs; simpl; [|rewrite <- app_assoc]; by apply starts_hex_group.
Qed.

Lemma join_cons g g' gs :
  join (g :: g' :: gs) = g ++ ":"%char :: join (g' :: gs).
Proof. done. Qed.

Lemma join_app gs1 gs2 :
  gs1 ≠ [] -> gs2 ≠ [] -> join (gs1 ++ gs2) = join gs1 ++ ":"%char :: join gs2.
Proof.
  intros H1 H2. induction gs1 as [|g gs1 IH]; [done|].
  destruct gs1 as [|g' gs1].
  - destruct gs2; done.
  - simpl (_ ++ _). rewrite !join_cons. rewrite <- app_assoc. simpl.
    f_equal. f_equal. apply IH. done.
Qed.

Lemma main_loop_join_cons g g' gs rest st :
  Forall (λ g, is_group g = true) (g :: g' :: gs) -> current_part st < 8 ->
  main_loop (join (g :: g' :: gs) ++ rest) st
  = main_loop (join (g' :: gs) ++ rest) (store_part st (acc32 0 g)).
Proof.
  intros Hgs Hc. rewrite join_cons, <- app_assoc. simpl.
  apply Forall_cons in Hgs as [Hg Hgs].
  apply main_loop_group_colon; [done| |done].
  apply starts_hex_not_colon, starts_hex_join. done.
Qed.

Lemma main_loop_join_colon gs s st :
  Forall (λ g, is_group g = true) gs -> gs ≠ [] ->
  current_part st + Z.of_nat (length gs) <= 8 -> starts_colon s = false ->
  main_loop (join gs ++ ":"%char :: s) st = main_loop s (stores st gs).
Proof.
  intros Hgs Hne Hc Hs. revert st Hc.
  induction gs as [|g gs IH]; intros st Hc; [done|].
  destruct gs as [|g' gs].
  - simpl. apply Forall_cons in Hgs as [Hg _].
    apply main_loop_group_colon; simpl in *; (done || lia).
  - rewrite main_loop_join_cons by (done || simpl in *; lia).
    apply Forall_cons in Hgs as [Hg Hgs].
    rewrite IH; [done..|]. simpl in *. lia.
Qed.

Lemma main_loop_join_double_colon gs s st :
  Forall (λ g, is_group g = true) gs -> gs ≠ [] ->
  current_part st + Z.of_nat (length gs) <= 8 ->
  main_loop (join gs ++ ":"%char :: ":"%char :: s) st =
  if negb (double_colon_index st =? -1) then None
  else main_loop s (mark_double_colon (stores st gs)).
Proof.
  intros Hgs Hne Hc. revert st Hc.
  induction gs as [|g gs IH]; intros st Hc; [done|].
  destruct gs as [|g' gs].
  - simpl. apply Forall_cons in Hgs as [Hg _].
    apply main_loop_group_double_colon; simpl in *; (done || lia).
  - rewrite main_loop_join_cons by (done || simpl in *; lia).
    apply Forall_cons in Hgs as [Hg Hgs].
    rewrite IH; [done..|]. simpl in *. lia.
Qed.

Lemma main_loop_join_ends gs t st :
  Forall (λ g, is_group g = true) gs -> gs ≠ [] ->
  current_part st + Z.of_nat (length gs) <= 8 -> ends t = true ->
  main_loop (join gs ++ t) st = Some (stores st gs).
Proof.
  intros Hgs Hne Hc Ht. revert st Hc.
  induction gs as [|g gs IH]; intros st Hc; [done|].
  destruct gs as [|g' gs].
  - simpl. apply Forall_cons in Hgs as [Hg _].
    apply main_loop_group_ends; simpl in *; (done || lia).
  - rewrite main_loop_join_cons by (done || simpl in *; lia).
    apply Forall_cons in Hgs as [Hg Hgs].
    rewrite IH; [done..|]. simpl in *. lia.
Qed.

(** ** The eight slots *)

Lemma stores_parts gs pre d :
  Forall (λ g, is_group g = true) gs ->
  (length pre + length gs <= 8)%nat ->
  stores (PState (pre ++ replicate (8 - length pre) 0) (Z.of_nat (length pre)) d) gs
  = PState (pre ++ map group_value gs ++ replicate (8 - length pre - length gs) 0)
           (Z.of_nat (length pre + length gs)) d.
Proof.
  intros Hgs. revert pre. induction Hgs as [|g gs Hg Hgs IH]; intros pre Hlen; simpl in *.
  - rewrite Nat.add_0_r, Nat.sub_0_r. done.
  - unfold store_part. simpl.
    apply is_group_inv in Hg as [_ Hg]. rewrite wrap16_acc32 by done.
    rewrite Nat2Z.id.
    destruct (8 - length pre)%nat as [|n] eqn:Hn; [lia|].
    rewrite replicate_S.
    rewrite insert_app_r_alt by lia. rewrite Nat.sub_diag. simpl.
    specialize (IH (pre ++ [group_value g])).
    rewrite length_app in IH. simpl in IH.
    replace (8 - (length pre + 1))%nat with n in IH by lia.
    replace (Z.of_nat (length pre) + 1) with (Z.of_nat (length pre + 1)) by lia.
    rewrite <- app_assoc in IH. simpl in IH. rewrite IH by lia.
    rewrite <- app_assoc. simpl.
    replace (n - length gs)%nat with (8 - length pre - S (length gs))%nat by lia.
    replace (length pre + 1 + length gs)%nat with (length pre + S (length gs))%nat by lia.
    done.
Qed.

Lemma stores_parts0 gs d :
  Forall (λ g, is_group g = true) gs -> (length gs <= 8)%nat ->
  stores (PState parts0 0 d) gs
  = PState (map group_value gs ++ replicate (8 - length gs) 0) (Z.of_nat (length gs)) d.
Proof.
  intros Hgs Hlen. apply (stores_parts gs [] d Hgs). done.
Qed.

(** The expansion loop, seen from a pass [k] on: [bs] are the groups still
    to move, [us] those already moved, and at least one slot is free. *)
Lemma shift_loop_spec (a bs us : list Z) sh :
  (length a + length bs + S sh + length us = 8)%nat ->
  shift_loop (length bs) (Z.of_nat (length us))
             (Z.of_nat (length a + length bs + length us))
             (a ++ bs ++ replicate (S sh) 0 ++ us)
  = a ++ replicate (S sh) 0 ++ bs ++ us.
Proof.
  revert us. induction bs as [|x bs IH] using rev_ind; intros us Hlen; [done|].
  rewrite length_app in *. simpl in *.
  replace (length bs + 1)%nat with (S (length bs)) by lia. simpl.
  replace (Z.to_nat (Z.of_nat (length a + S (length bs) + length us) - 1 - Z.of_nat (length us)))
    with (length (a ++ bs)) by (rewrite length_app; lia).
  replace (Z.to_nat (7 - Z.of_nat (length us)))
    with (length (a ++ bs ++ [x] ++ replicate sh 0))
    by (rewrite !length_app, length_replicate; simpl; lia).
  assert (Hp : a ++ (bs ++ [x]) ++ 0 :: replicate sh 0 ++ us
               = (a ++ bs) ++ x :: replicate (S sh) 0 ++ us).
  { rewrite <- !app_assoc. done. }
  rewrite Hp. rewrite list_lookup_total_middle by done.
  assert (Hq : (a ++ bs) ++ x :: replicate (S sh) 0 ++ us
               = (a ++ bs ++ [x] ++ replicate sh 0) ++ 0 :: us).
  { rewrite replicate_S_end. rewrite <- !app_assoc. done. }
  rewrite Hq. rewrite insert_app_r_alt by lia. rewrite Nat.sub_diag. simpl.
  assert (Hr : (a ++ bs ++ x :: replicate sh 0) ++ x :: us
               = (a ++ bs) ++ x :: replicate sh 0 ++ x :: us).
  { rewrite <- !app_assoc. done. }
  rewrite Hr. rewrite insert_app_r_alt by lia. rewrite Nat.sub_diag. simpl.
  specialize (IH (x :: us)). simpl in IH.
  replace (Z.of_nat (length us) + 1) with (Z.of_nat (S (length us))) by lia.
  replace (length a + S (length bs) + length us)%nat
    with (length a + length bs + S (length us))%nat by lia.
  rewrite <- app_assoc. simpl. rewrite IH by lia.
  rewrite <- app_assoc. done.
Qed.

Lemma expand_marked (a b : list Z) :
  (length a + length b <= 7)%nat ->
  expand (PState (a ++ b ++ replicate (8 - length a - length b) 0)
                 (Z.of_nat (length a + length b)) (Z.of_nat (length a)))
  = Some (a ++ replicate (8 - length a - length b) 0 ++ b).
Proof.
  intros Hlen. unfold expand. simpl.
  destruct (Z.eqb_spec (Z.of_nat (length a)) (-1)); [lia|]. simpl.
  replace (Z.to_nat (Z.of_nat (length a + length b) - Z.of_nat (length a)))
    with (length b) by lia.
  destruct (8 - length a - length b)%nat as [|sh] eqn:Hsh; [lia|].
  pose proof (shift_loop_spec a b [] sh) as H.
  rewrite !app_nil_r in H. simpl (length []) in H.
  rewrite !Nat.add_0_r in H. change (Z.of_nat 0) with 0 in H.
  rewrite H by lia. done.
Qed.

Lemma expand_unmarked (p : list Z) :
  expand (PState p 8 (-1)) = Some p.
Proof. done. Qed.

(** ** [parseIPv6] on well-formed text *)

Lemma skip_spaces_app ws s :
  forallb isspace ws = true -> ends s = false -> skip_spaces (ws ++ s) = s.
Proof.
  intros Hws Hs. induction ws as [|c ws IH]; simpl in *.
  - destruct s as [|c s]; [done|]. simpl in *. by rewrite Hs.
  - apply andb_true_iff in Hws as [-> Hws]. auto.
Qed.

Lemma parseIPv6_chars_hex ws s :
  forallb isspace ws = true -> starts_hex s = true ->
  parseIPv6_chars (ws ++ s) = finish (main_loop s (PState parts0 0 (-1))).
Proof.
  intros Hws Hs. unfold parseIPv6_chars.
  rewrite skip_spaces_app by auto using starts_hex_not_ends.
  destruct s as [|c s]; [done|]. simpl in Hs.
  apply hex_not_sep in Hs as [-> _]. done.
Qed.

Lemma parseIPv6_chars_double_colon ws s :
  forallb isspace ws = true ->
  parseIPv6_chars (ws ++ ":"%char :: ":"%char :: s)
  = if ends s then Some (Uint128 0 0)
    else finish (main_loop s (PState parts0 0 0)).
Proof.
  intros Hws. unfold parseIPv6_chars.
  rewrite skip_spaces_app by done. simpl.
  destruct s as [|c s]; [done|]. simpl. by destruct (isspace c).
Qed.

Lemma starts_hex_join' gs rest :
  Forall (λ g, is_group g = true) gs -> gs ≠ [] -> starts_hex (join gs ++ rest) = true.
Proof. intros Hgs Hne. destruct gs; [done|]. by apply starts_hex_join. Qed.

(** Eight groups, no marker. *)
Lemma parse_full_form ws gs t :
  forallb isspace ws = true ->
  Forall (λ g, is_group g = true) gs -> length gs = 8%nat -> ends t = true ->
  parseIPv6_chars (ws ++ join gs ++ t) = Some (pack (map group_value gs)).
Proof.
  intros Hws Hgs Hlen Ht.
  assert (Hne : gs ≠ []) by (by destruct gs).
  rewrite parseIPv6_chars_hex by auto using starts_hex_join'.
  rewrite main_loop_join_ends by (done || simpl; lia).
  rewrite stores_parts0 by (done || lia).
  rewrite Hlen. simpl. rewrite app_nil_r. done.
Qed.

Lemma finish_Some st p : expand st = Some p -> finish (Some st) = Some (pack p).
Proof. intros H. unfold finish. simpl. by rewrite H. Qed.

(** Groups, the marker, groups: at most seven groups in all. *)
Lemma parse_compressed_form ws a b t :
  forallb isspace ws = true ->
  Forall (λ g, is_group g = true) a -> Forall (λ g, is_group g = true) b ->
  (length a + length b <= 7)%nat -> ends t = true ->
  parseIPv6_chars (ws ++ join a ++ ":"%char :: ":"%char :: join b ++ t)
  = Some (pack (map group_value a
                ++ replicate (8 - length a - length b) 0 ++ map group_value b)).
Proof.
  intros Hws Ha Hb Hlen Ht.
  pose proof (expand_marked (map group_value a) (map group_value b)) as He.
  rewrite !length_map in He. specialize (He Hlen).
  destruct (decide (a = [])) as [->|Hane].
  - simpl (join []). simpl ([] ++ _). rewrite parseIPv6_chars_double_colon by done.
    destruct (decide (b = [])) as [->|Hbne].
    + simpl. by rewrite Ht.
    + rewrite starts_hex_not_ends by auto using starts_hex_join'.
      rewrite main_loop_join_ends by (done || simpl in *; lia).
      rewrite stores_parts0 by (done || simpl in *; lia).
      apply finish_Some. apply He.
  - rewrite parseIPv6_chars_hex by auto using starts_hex_join'.
    rewrite main_loop_join_double_colon by (done || simpl; lia).
    simpl (negb _). cbv iota.
    rewrite stores_parts0 by (done || lia).
    destruct (decide (b = [])) as [->|Hbne].
    + simpl (join []). simpl ([] ++ _). rewrite main_loop_ends by done.
      apply finish_Some. unfold mark_double_colon. simpl.
      simpl in He. rewrite Nat.add_0_r in He. rewrite Nat.sub_0_r in He at 1.
      apply He.
    + unfold mark_double_colon.
      rewrite main_loop_join_ends by (done || simpl; lia).
      pose proof (stores_parts b (map group_value a) (Z.of_nat (length a)) Hb) as Hs.
      rewrite !length_map in Hs. simpl. rewrite Hs by lia.
      apply finish_Some. apply He.
Qed.

(** More than eight groups, no marker: what follows the eighth group and
    its colon is not read. *)
Lemma parse_overlong_form ws gs g more :
  forallb isspace ws = true ->
  Forall (λ g, is_group g = true) (gs ++ g :: more) -> length gs = 8%nat ->
  parseIPv6_chars (ws ++ join (gs ++ g :: more)) = Some (pack (map group_value gs)).
Proof.
  intros Hws Hall Hlen.
  apply Forall_app in Hall as [Hgs Hmore].
  assert (Hne : gs ≠ []) by (by destruct gs).
  rewrite join_app by done.
  rewrite parseIPv6_chars_hex by auto using starts_hex_join'.
  pose proof (starts_hex_join' (g :: more) [] Hmore ltac:(done)) as Hh.
  rewrite app_nil_r in Hh.
  rewrite main_loop_join_colon by (auto using starts_hex_not_colon || simpl; lia).
  rewrite main_loop_full by (rewrite stores_current_part; simpl; lia).
  rewrite stores_parts0 by (done || lia).
  rewrite Hlen. simpl. rewrite app_nil_r. done.
Qed.

(** A second marker where the scan arrives at it. *)
Lemma parse_second_marker ws a b rest :
  forallb isspace ws = true ->
  Forall (λ g, is_group g = true) a -> Forall (λ g, is_group g = true) b ->
  (length a <= 7)%nat -> (length a + length b <= 8)%nat ->
  parseIPv6_chars
    (ws ++ join a ++ ":"%char :: ":"%char :: join b ++ ":"%char :: ":"%char :: rest)
  = None.
Proof.
  intros Hws Ha Hb Hla Hlen.
  destruct (decide (a = [])) as [->|Hane].
  - simpl. rewrite parseIPv6_chars_double_colon by done.
    destruct (decide (b = [])) as [->|Hbne].
    + simpl. by rewrite main_loop_double_colon.
    + rewrite starts_hex_not_ends by auto using starts_hex_join'.
      by rewrite main_loop_join_double_colon by (done || simpl in *; lia).
  - rewrite parseIPv6_chars_hex by auto using starts_hex_join'.
    rewrite main_loop_join_double_colon by (done || simpl; lia). simpl.
    rewrite stores_parts0 by (done || lia).
    unfold mark_double_colon. simpl.
    assert (Hd : negb (Z.of_nat (length a) =? -1) = true).
    { destruct (Z.eqb_spec (Z.of_nat (length a)) (-1)); [lia|done]. }
    destruct (decide (b = [])) as [->|Hbne].
    + simpl. rewrite main_loop_double_colon by (simpl; lia). simpl. by rewrite Hd.
    + rewrite main_loop_join_double_colon by (done || simpl; lia). simpl. by rewrite Hd.
Qed.

(** ** Every accepted key is made of eight 16-bit groups *)

Lemma store_part_ok st v :
  pstate_ok st -> current_part st < 8 -> pstate_ok (store_part st v).
Proof.
  intros [Hl Hg Hc Hm] Hlt. split; simpl.
  - by rewrite length_insert.
  - apply Forall_insert; [done|]. unfold group_ok, wrap16.
    apply Z.mod_pos_bound. lia.
  - lia.
  - lia.
Qed.

Lemma mark_double_colon_ok st : pstate_ok st -> pstate_ok (mark_double_colon st).
Proof. intros [Hl Hg Hc Hm]. split; simpl; (done || lia). Qed.

Lemma loop_body_ok s st :
  pstate_ok st -> current_part st < 8 ->
  match loop_body s st with
  | Continue _ st' | Break st' => pstate_ok st'
  | ReturnFalse => True
  end.
Proof.
  intros Hok Hlt. unfold loop_body.
  destruct (read_hex s 0 false) as [[val h] s1].
  assert (Hok1 : pstate_ok (if h then store_part st val else st)).
  { destruct h; [by apply store_part_ok|done]. }
  destruct s1 as [|c s2]; [done|].
  destruct (isspace c); [done|]. destruct (is_colon c); [|done].
  destruct s2 as [|c2 s3]; [done|].
  destruct (is_colon c2); [|done].
  destruct (negb _); [done|]. by apply mark_double_colon_ok.
Qed.

Lemma main_loop_ok s st st' :
  pstate_ok st -> main_loop s st = Some st' -> pstate_ok st'.
Proof.
  remember (length s) as n eqn:Hn. revert s st Hn.
  induction (lt_wf n) as [n _ IH]. intros s st -> Hok.
  rewrite main_loop_eq. destruct s as [|c s]; [by intros [= <-]|].
  destruct (Z.ltb_spec (current_part st) 8) as [Hlt|Hge]; [|by intros [= <-]].
  pose proof (loop_body_ok (c :: s) st Hok Hlt) as Hb.
  pose proof (loop_body_Continue_length (c :: s) st) as Hl.
  destruct (loop_body (c :: s) st) as [s1 st1|st1|]; [|by intros [= <-]|done].
  intros Hm. eapply (IH (length s1)); [by eapply Hl|done|done|done].
Qed.

Lemma shift_loop_ok n k g p :
  length p = 8%nat -> Forall group_ok p ->
  length (shift_loop n k g p) = 8%nat ∧ Forall group_ok (shift_loop n k g p).
Proof.
  revert k p. induction n as [|n IH]; intros k p Hl Hg; simpl; [done|].
  apply IH.
  - by rewrite !length_insert.
  - apply Forall_insert; [|unfold group_ok; lia].
    apply Forall_insert; [done|].
    destruct (decide (Z.to_nat (g - 1 - k) < length p)%nat) as [Hi|Hi].
    + eapply Forall_forall; [done|]. by apply list_elem_of_lookup_total_2.
    + rewrite list_lookup_total_alt, lookup_ge_None_2 by lia. simpl.
      unfold group_ok. change (inhabitant) with 0. lia.
Qed.

Lemma expand_ok st p :
  pstate_ok st -> expand st = Some p -> length p = 8%nat ∧ Forall group_ok p.
Proof.
  intros [Hl Hg Hc Hm]. unfold expand.
  destruct (negb (double_colon_index st =? -1)).
  - intros [= <-]. by apply shift_loop_ok.
  - destruct (negb (current_part st =? 8)); [done|]. by intros [= <-].
Qed.

Lemma parts0_ok d : -1 <= d <= 0 -> pstate_ok (PState parts0 0 d).
Proof.
  intros Hd. split; simpl; [done| |lia|lia].
  unfold parts0. apply Forall_replicate. unfold group_ok. lia.
Qed.

Lemma finish_ok r key :
  (∀ st, r = Some st -> pstate_ok st) -> finish r = Some key ->
  ∃ p, length p = 8%nat ∧ Forall group_ok p ∧ key = pack p.
Proof.
  intros Hr. unfold finish. destruct r as [st|]; [|done]. simpl.
  destruct (expand st) as [p|] eqn:He; [|done]. simpl. intros [= <-].
  exists p. destruct (expand_ok st p); auto.
Qed.

Lemma parseIPv6_chars_groups line key :
  parseIPv6_chars line = Some key ->
  ∃ p, length p = 8%nat ∧ Forall group_ok p ∧ key = pack p.
Proof.
  unfold parseIPv6_chars.
  assert (Hz : ∃ p, length p = 8%nat ∧ Forall group_ok p ∧ Uint128 0 0 = pack p).
  { exists parts0. split; [done|]. split; [|done].
    apply Forall_replicate. unfold group_ok. lia. }
  destruct (skip_spaces line) as [|c s1]; [done|].
  destruct (is_colon c).
  - destruct s1 as [|c1 s2]; [done|]. destruct (is_colon c1); [|done].
    destruct s2 as [|c2 s3]; [by intros [= <-]|].
    destruct (isspace c2); [by intros [= <-]|].
    apply finish_ok. intros st. apply main_loop_ok, parts0_ok. lia.
  - apply finish_ok. intros st. apply main_loop_ok, parts0_ok. lia.
Qed.

(** ** Packing *)

Lemma land_mul_pow2_small x y n :
  0 <= n -> 0 <= y < 2 ^ n -> Z.land (x * 2 ^ n) y = 0.
Proof.
  intros Hn Hy. rewrite <- Z.shiftl_mul_pow2 by done.
  apply Z.bits_inj'. intros i Hi.
  rewrite Z.land_spec, Z.bits_0.
  destruct (decide (i < n)) as [Hlt|Hge].
  - rewrite Z.shiftl_spec_low by lia. done.
  - destruct (decide (y = 0)) as [->|Hy0].
    + rewrite Z.bits_0. apply andb_false_r.
    + rewrite (Z.bits_above_log2 y i); [apply andb_false_r|lia|].
      assert (Z.log2 y < n); [|lia].
      apply Z.log2_lt_pow2; lia.
Qed.

Lemma lor_mul_pow2_small x y n :
  0 <= n -> 0 <= y < 2 ^ n -> Z.lor (x * 2 ^ n) y = x * 2 ^ n + y.
Proof.
  intros Hn Hy.
  rewrite <- Z.lxor_lor by (by apply land_mul_pow2_small).
  rewrite <- Z.add_nocarry_lxor by (by apply land_mul_pow2_small). done.
Qed.

(** The four groups of a half stand in it in big-endian order. *)
Lemma pack4_value a b c d :
  group_ok a -> group_ok b -> group_ok c -> group_ok d ->
  pack4 a b c d = a * 2 ^ 48 + b * 2 ^ 32 + c * 2 ^ 16 + d.
Proof.
  unfold group_ok, pack4, wrap64. intros Ha Hb Hc Hd.
  rewrite !Z.shiftl_mul_pow2 by lia.
  rewrite !Z.mod_small by lia.
  rewrite (lor_mul_pow2_small a (b * 2 ^ 32) 48) by lia.
  replace (a * 2 ^ 48 + b * 2 ^ 32) with ((a * 2 ^ 16 + b) * 2 ^ 32) by lia.
  rewrite (lor_mul_pow2_small _ (c * 2 ^ 16) 32) by lia.
  replace ((a * 2 ^ 16 + b) * 2 ^ 32 + c * 2 ^ 16)
    with ((a * 2 ^ 32 + b * 2 ^ 16 + c) * 2 ^ 16) by lia.
  rewrite (lor_mul_pow2_small _ d 16) by lia. lia.
Qed.

(** ** Keys: order, equality, partition index *)

Lemma eq128_spec a b : eq128 a b = true ↔ a = b.
Proof.
  destruct a as [h1 l1], b as [h2 l2]. unfold eq128. simpl.
  rewrite andb_true_iff, !Z.eqb_eq. split; [intros [-> ->]; done|].
  by intros [= -> ->].
Qed.

Lemma le128_alt a b :
  le128 a b ↔ hi a < hi b ∨ (hi a = hi b ∧ lo a <= lo b).
Proof.
  unfold le128, lt128.
  destruct (Z.eqb_spec (hi b) (hi a)) as [He|Hne]; simpl.
  - rewrite Z.ltb_ge. lia.
  - rewrite Z.ltb_ge. lia.
Qed.

Global Instance le128_total : Total le128.
Proof. intros a b. rewrite !le128_alt. lia. Qed.

Global Instance le128_trans : Transitive le128.
Proof. intros a b c. rewrite !le128_alt. lia. Qed.

Global Instance le128_antisymm : AntiSymm (=) le128.
Proof.
  intros [h1 l1] [h2 l2]. rewrite !le128_alt. simpl. intros H1 H2.
  f_equal; lia.
Qed.

Lemma sort128_sorted l : StronglySorted le128 (sort128 l).
Proof. apply StronglySorted_merge_sort; apply _. Qed.

Lemma sort128_perm l : sort128 l ≡ₚ l.
Proof. apply merge_sort_Permutation. Qed.

(** There is one sorted arrangement of a list of keys: whatever algorithm
    [std::sort] runs, it returns [sort128 l]. *)
Lemma sort128_unique l l' :
  Sorted le128 l' -> l' ≡ₚ l -> l' = sort128 l.
Proof.
  intros Hs Hp. apply (Sorted_unique le128).
  - done.
  - apply Sorted_merge_sort. apply _.
  - by rewrite Hp, sort128_perm.
Qed.

Lemma bucketIdx_range k : 0 <= bucketIdx k < 256.
Proof.
  unfold bucketIdx. change 255 with (Z.ones 8).
  rewrite Z.land_ones by lia. apply Z.mod_pos_bound. lia.
Qed.

(** ** [std::unique] after [std::sort] counts the distinct keys *)

Lemma unique_from_spec l prev :
  StronglySorted le128 (prev :: l) ->
  NoDup (prev :: unique_from prev l)
  ∧ ∀ x, x ∈ prev :: unique_from prev l ↔ x ∈ prev :: l.
Proof.
  revert prev. induction l as [|y l IH]; intros prev Hs; simpl.
  - split; [apply NoDup_singleton|done].
  - apply StronglySorted_inv in Hs as [Hs Hprev].
    destruct (eq128 prev y) eqn:He.
    + apply eq128_spec in He as <-.
      destruct (IH prev Hs) as [Hnd Hel]. split; [done|].
      intros x. rewrite Hel, !elem_of_cons. tauto.
    + destruct (IH y Hs) as [Hnd Hel]. split.
      * apply NoDup_cons. split; [|done].
        rewrite Hel. intros Hin.
        assert (prev ≠ y) as Hne.
        { intros ->. assert (eq128 y y = true) by (by apply eq128_spec). congruence. }
        apply StronglySorted_inv in Hs as [_ Hy].
        apply Forall_cons in Hprev as [Hpy Hpl].
        apply elem_of_cons in Hin as [->|Hin]; [done|].
        apply Hne. apply (anti_symm le128); [done|].
        eapply Forall_forall in Hy; done.
      * intros x. rewrite !elem_of_cons. rewrite <- (elem_of_cons l x y), <- Hel.
        rewrite elem_of_cons. done.
Qed.

Lemma unique_sorted_spec l :
  StronglySorted le128 l -> NoDup (unique l) ∧ ∀ x, x ∈ unique l ↔ x ∈ l.
Proof.
  destruct l as [|x l]; simpl; [intros _; split; [apply NoDup_nil_2|done]|].
  apply unique_from_spec.
Qed.

Lemma unique_sort128_perm l : unique (sort128 l) ≡ₚ remove_dups l.
Proof.
  destruct (unique_sorted_spec (sort128 l) (sort128_sorted l)) as [Hnd Hel].
  apply NoDup_Permutation; [done|apply NoDup_remove_dups|].
  intros x. rewrite Hel, elem_of_remove_dups, sort128_perm. done.
Qed.

Lemma unique_in_bucket_distinct l :
  unique_in_bucket l = Z.of_nat (length (remove_dups l)).
Proof. unfold unique_in_bucket. by rewrite unique_sort128_perm. Qed.

(** ** Counting over the partitions *)

Lemma sumZ_cons x l : sumZ (x :: l) = x + sumZ l.
Proof. done. Qed.

Lemma sumZ_add {A} (g h : A → Z) l :
  sumZ ((λ b, g b + h b) <$> l) = sumZ (g <$> l) + sumZ (h <$> l).
Proof.
  induction l as [|b l IH]; [done|].
  rewrite !fmap_cons, !sumZ_cons, IH. lia.
Qed.

Lemma sumZ_Permutation l1 l2 : l1 ≡ₚ l2 -> sumZ l1 = sumZ l2.
Proof. induction 1; rewrite ?sumZ_cons; lia. Qed.

Lemma sumZ_zero {A} (g : A → Z) l :
  (∀ b, b ∈ l -> g b = 0) -> sumZ (g <$> l) = 0.
Proof.
  induction l as [|b l IH]; intros Hg; [done|].
  rewrite fmap_cons, sumZ_cons, IH, Hg; [done|by left|].
  intros b' Hb'. apply Hg. by right.
Qed.

Lemma sumZ_indicator (v : Z) bs :
  NoDup bs -> v ∈ bs -> sumZ ((λ b, if decide (v = b) then 1 else 0) <$> bs) = 1.
Proof.
  induction 1 as [|b bs Hb Hnd IH]; intros Hin; [by apply elem_of_nil in Hin|].
  rewrite fmap_cons, sumZ_cons. destruct (decide (v = b)) as [->|Hne].
  - rewrite sumZ_zero; [done|]. intros b' Hb'.
    rewrite decide_False; [done|]. by intros ->.
  - apply elem_of_cons in Hin as [?|Hin]; [done|]. by rewrite IH.
Qed.

Lemma count_partition {A} (f : A → Z) (l : list A) bs :
  NoDup bs -> (∀ x, x ∈ l -> f x ∈ bs) ->
  sumZ ((λ b, Z.of_nat (length (filter (λ x, f x = b) l))) <$> bs)
  = Z.of_nat (length l).
Proof.
  intros Hnd. induction l as [|x l IH]; intros Hin.
  - by apply sumZ_zero.
  - rewrite (list_fmap_ext _
      (λ b, (if decide (f x = b) then 1 else 0)
            + Z.of_nat (length (filter (λ x, f x = b) l)))).
    2:{ intros _ b _. rewrite filter_cons. destruct (decide (f x = b)); simpl; lia. }
    rewrite sumZ_add, IH by (intros; apply Hin; by right).
    rewrite sumZ_indicator by (done || apply Hin; by left).
    simpl. lia.
Qed.

Lemma remove_dups_filter {A} `{EqDecision A} (P : A → Prop) `{∀ x, Decision (P x)}
    (l : list A) :
  remove_dups (filter P l) ≡ₚ filter P (remove_dups l).
Proof.
  apply NoDup_Permutation.
  - apply NoDup_remove_dups.
  - apply NoDup_filter, NoDup_remove_dups.
  - intros x. rewrite elem_of_remove_dups, !list_elem_of_filter, elem_of_remove_dups. done.
Qed.

(** The distinct elements of a list, counted class by class. *)
Lemma distinct_partition {A} `{EqDecision A} (f : A → Z) (l : list A) bs :
  NoDup bs -> (∀ x, x ∈ l -> f x ∈ bs) ->
  sumZ ((λ b, Z.of_nat (length (remove_dups (filter (λ x, f x = b) l)))) <$> bs)
  = Z.of_nat (length (remove_dups l)).
Proof.
  intros Hnd Hin.
  rewrite (list_fmap_ext _
    (λ b, Z.of_nat (length (filter (λ x, f x = b) (remove_dups l))))).
  2:{ intros _ b _. by rewrite remove_dups_filter. }
  apply count_partition; [done|].
  intros x Hx. apply Hin. by apply elem_of_remove_dups.
Qed.

(** ** The names of the temporary files *)

Lemma string_app_inv_tail s1 s2 t : s1 +:+ t = s2 +:+ t -> s1 = s2.
Proof.
  assert (Hlen : ∀ s t, String.length (s +:+ t) = (String.length s + String.length t)%nat).
  { intros s. induction s as [|c s IH]; intros t'; simpl; [done|]. by rewrite IH. }
  revert s2. induction s1 as [|c1 s1 IH]; intros [|c2 s2]; simpl; intros Heq.
  - done.
  - apply (f_equal String.length) in Heq. simpl in Heq. rewrite !Hlen in Heq.
    simpl in Heq. lia.
  - apply (f_equal String.length) in Heq. simpl in Heq. rewrite !Hlen in Heq.
    simpl in Heq. lia.
  - injection Heq as -> Heq. f_equal. by apply IH.
Qed.

Global Instance getBucketFileName_inj : Inj (=) (=) getBucketFileName.
Proof.
  intros a b Heq. unfold getBucketFileName in Heq.
  apply (inj (String.app _)) in Heq.
  apply string_app_inv_tail in Heq.
  by apply (inj pretty) in Heq.
Qed.

(** ** [openAll] *)

Lemma openAll_fold can d :
  openAll can d = foldl (open_one can) (inr d) (seqZ 0 NUM_BUCKETS).
Proof. done. Qed.

Lemma open_fold_inl can e bs : foldl (open_one can) (inl e) bs = inl e.
Proof. induction bs; simpl; done. Qed.

Lemma open_fold_inr can bs d d' :
  foldl (open_one can) (inr d) bs = inr d' ->
  (∀ b, b ∈ bs -> can (getBucketFileName b) = true)
  ∧ (∀ f, d !! f = Some [] ∨ (∃ b, b ∈ bs ∧ f = getBucketFileName b) -> d' !! f = Some []).
Proof.
  revert d. induction bs as [|b bs IH]; intros d; simpl.
  - intros [= <-]. split; [intros b Hb; by apply elem_of_nil in Hb|].
    intros f [Hf|(b & Hb & _)]; [done|by apply elem_of_nil in Hb].
  - destruct (can (getBucketFileName b)) eqn:Hcan; [|by rewrite open_fold_inl].
    intros Hfold. destruct (IH _ Hfold) as [Hall Hfiles]. split.
    + intros b' [->|Hb']%elem_of_cons; auto.
    + intros f Hf. apply Hfiles.
      destruct (decide (f = getBucketFileName b)) as [->|Hne].
      * left. apply lookup_insert_eq.
      * rewrite lookup_insert_ne by done.
        destruct Hf as [Hf|(b' & [->|Hb']%elem_of_cons & ->)]; [by left|done|].
        right. by exists b'.
Qed.

Lemma open_fold_inl_inv can bs d e :
  foldl (open_one can) (inr d) bs = inl e ->
  ∃ b, b ∈ bs ∧ e = getBucketFileName b ∧ can e = false.
Proof.
  revert d. induction bs as [|b bs IH]; intros d; simpl; [done|].
  destruct (can (getBucketFileName b)) eqn:Hcan.
  - intros Hfold. destruct (IH _ Hfold) as (b' & Hb' & He). exists b'. split; [by right|done].
  - rewrite open_fold_inl. intros [= <-]. exists b. split; [by left|done].
Qed.

Lemma open_fold_all can bs d :
  (∀ b, b ∈ bs -> can (getBucketFileName b) = true) ->
  ∃ d', foldl (open_one can) (inr d) bs = inr d'.
Proof.
  revert d. induction bs as [|b bs IH]; intros d Hall; simpl; [by exists d|].
  rewrite Hall by (by left). apply IH. intros b' Hb'. apply Hall. by right.
Qed.

Lemma is_bucket_seqZ b : b ∈ seqZ 0 NUM_BUCKETS ↔ is_bucket b.
Proof. rewrite elem_of_seqZ. unfold is_bucket. lia. Qed.

(** When [openAll] returns, every partition has its file, and it is empty. *)
Lemma openAll_inr can d d' :
  openAll can d = inr d' ->
  ∀ b, is_bucket b -> d' !! getBucketFileName b = Some [].
Proof.
  rewrite openAll_fold. intros [_ H]%open_fold_inr b Hb.
  apply H. right. exists b. by rewrite is_bucket_seqZ.
Qed.

(** ** The writer keeps every key, in the file or the buffer of its partition *)

Lemma flush_inv b ks w :
  is_bucket b -> writer_inv ks w ->
  writer_inv ks (flush b w)
  ∧ buffers (flush b w) !!! Z.to_nat b = []
  ∧ ∀ b', is_bucket b' -> buffers w !!! Z.to_nat b' = [] ->
          buffers (flush b w) !!! Z.to_nat b' = [].
Proof.
  intros Hb [Hlen Hbk]. unfold flush.
  destruct (buffers w !!! Z.to_nat b) as [|k buf] eqn:Hbuf; [done|].
  split; [split|split]; simpl.
  - by rewrite length_insert.
  - intros b' Hb'. destruct (Hbk b' Hb') as (on_disk & Hf & Hk).
    destruct (decide (b' = b)) as [->|Hne].
    + exists (on_disk ++ k :: buf).
      rewrite lookup_alter_eq, Hf. split; [done|].
      rewrite list_lookup_total_insert_eq by bucket_lia.
      rewrite app_nil_r. by rewrite <- Hbuf.
    + exists on_disk. rewrite lookup_alter_ne by (intros ?%(inj _); done).
      split; [done|]. rewrite list_lookup_total_insert_ne by bucket_lia. done.
  - rewrite list_lookup_total_insert_eq by bucket_lia. done.
  - intros b' Hb' Hempty. destruct (decide (b' = b)) as [->|Hne].
    + rewrite list_lookup_total_insert_eq by bucket_lia. done.
    + rewrite list_lookup_total_insert_ne by bucket_lia. done.
Qed.

Lemma bucket_keys_snoc b ks k :
  bucket_keys b (ks ++ [k])
  = bucket_keys b ks ++ (if decide (bucketIdx k = b) then [k] else []).
Proof.
  unfold bucket_keys. rewrite filter_app, filter_cons, filter_nil.
  by destruct (decide _).
Qed.

Lemma add_inv k ks w :
  writer_inv ks w -> writer_inv (ks ++ [k]) (add (bucketIdx k) k w).
Proof.
  intros [Hlen Hbk]. unfold add.
  pose proof (bucketIdx_range k) as Hr.
  set (w1 := {| buffers := _; files := _ |}).
  assert (Hw1 : writer_inv (ks ++ [k]) w1).
  { split; [unfold w1; cbn [buffers]; by rewrite length_insert|].
    intros b Hb. destruct (Hbk b Hb) as (on_disk & Hf & Hk).
    unfold w1; cbn [buffers files].
    exists on_disk. split; [done|]. rewrite bucket_keys_snoc.
    destruct (decide (bucketIdx k = b)) as [->|Hne].
    - rewrite list_lookup_total_insert_eq by bucket_lia.
      by rewrite app_assoc, Hk.
    - rewrite list_lookup_total_insert_ne by bucket_lia.
      by rewrite app_nil_r. }
  destruct (_ >=? _); [|done].
  apply flush_inv; [bucket_lia|done].
Qed.

Lemma ingest_line_key w line :
  ingest_line w line
  = match line_key line with
    | Some k => add (bucketIdx k) k w
    | None => w
    end.
Proof. unfold ingest_line, line_key. by destruct (list_ascii_of_string line). Qed.

Lemma ingest_inv lines ks w :
  writer_inv ks w -> writer_inv (ks ++ keys_of lines) (foldl ingest_line w lines).
Proof.
  revert ks w. induction lines as [|line lines IH]; intros ks w Hw; simpl.
  - by rewrite app_nil_r.
  - rewrite ingest_line_key. unfold keys_of. simpl.
    destruct (line_key line) as [k|]; simpl.
    + replace (ks ++ k :: omap line_key lines) with ((ks ++ [k]) ++ keys_of lines)
        by (by rewrite <- app_assoc).
      apply IH. by apply add_inv.
    + by apply IH.
Qed.

Lemma flush_all_inv bs ks w :
  (∀ b, b ∈ bs -> is_bucket b) -> writer_inv ks w ->
  writer_inv ks (foldl (λ w i, flush i w) w bs)
  ∧ ∀ b, b ∈ bs -> buffers (foldl (λ w i, flush i w) w bs) !!! Z.to_nat b = [].
Proof.
  induction bs as [|b bs IH] using rev_ind; intros Hbs Hw.
  - split; [done|]. intros b Hb. by apply elem_of_nil in Hb.
  - rewrite foldl_snoc.
    destruct IH as [Hinv Hempty]; [intros; apply Hbs, elem_of_app; by left|done|].
    assert (is_bucket b) as Hb by (apply Hbs, elem_of_app; right; by left).
    destruct (flush_inv b ks _ Hb Hinv) as (Hinv' & Hb' & Hkeep).
    split; [done|]. intros b' [Hin|Hin]%elem_of_app.
    + apply Hkeep; [|by apply Hempty]. apply Hbs, elem_of_app. by left.
    + apply list_elem_of_singleton in Hin as ->. done.
Qed.

(** After phase 1 the file of partition [b] holds the keys of partition
    [b], in the order of the input. *)
Lemma phase1_files d lines b :
  (∀ b, is_bucket b -> d !! getBucketFileName b = Some []) ->
  is_bucket b ->
  phase1 d lines !! getBucketFileName b = Some (bucket_keys b (keys_of lines)).
Proof.
  intros Hd Hb. unfold phase1, flushAllAndClose.
  set (w0 := Writer _ d).
  assert (Hw0 : writer_inv [] w0).
  { split; [unfold w0; cbn [buffers]; by rewrite length_replicate|].
    intros b' Hb'. unfold w0; cbn [buffers files].
    exists []. split; [by apply Hd|].
    rewrite lookup_total_replicate_2 by bucket_lia. done. }
  pose proof (ingest_inv lines [] w0 Hw0) as Hw. rewrite app_nil_l in Hw.
  destruct (flush_all_inv (seqZ 0 NUM_BUCKETS) _ _
              (λ b, proj1 (is_bucket_seqZ b)) Hw) as [[_ Hbk] Hempty].
  destruct (Hbk b Hb) as (on_disk & Hf & Hk).
  rewrite Hempty, app_nil_r in Hk by (by apply is_bucket_seqZ).
  by rewrite Hf, Hk.
Qed.

(** ** [processBucket] *)

Lemma unique_in_bucket_nil : unique_in_bucket [] = 0.
Proof. done. Qed.

Lemma unique_in_bucket_nonneg ips : 0 <= unique_in_bucket ips.
Proof. unfold unique_in_bucket. lia. Qed.

Lemma processBucket_files b σ :
  sfiles (processBucket b σ) = delete (getBucketFileName b) (sfiles σ).
Proof.
  unfold processBucket.
  destruct (sfiles σ !! getBucketFileName b) as [ips|] eqn:Hf; simpl.
  - by destruct (_ =? _).
  - by rewrite delete_id.
Qed.

Lemma processBucket_total b σ :
  0 <= total_unique_count σ < 2 ^ 64 ->
  total_unique_count (processBucket b σ)
  = wrap64 (total_unique_count σ + contribution (sfiles σ) b).
Proof.
  intros Ht. unfold processBucket, contribution.
  destruct (sfiles σ !! getBucketFileName b) as [ips|] eqn:Hf; simpl.
  - destruct (Z.eqb_spec (16 * Z.of_nat (length ips)) 0) as [Hz|Hnz]; simpl; [|done].
    destruct ips; [|simpl in Hz; lia].
    rewrite unique_in_bucket_nil, Z.add_0_r. unfold wrap64. by rewrite Z.mod_small.
  - rewrite Z.add_0_r. unfold wrap64. by rewrite Z.mod_small.
Qed.

Lemma wrap64_range x : 0 <= wrap64 x < 2 ^ 64.
Proof. unfold wrap64. apply Z.mod_pos_bound. lia. Qed.

Lemma wrap64_add_l x y : wrap64 (wrap64 x + y) = wrap64 (x + y).
Proof. unfold wrap64. apply Z.add_mod_idemp_l. lia. Qed.

Lemma contribution_delete files b b' :
  b ≠ b' -> contribution (delete (getBucketFileName b) files) b' = contribution files b'.
Proof.
  intros Hne. unfold contribution.
  rewrite lookup_delete_ne; [done|]. intros ?%(inj _). done.
Qed.

(** Calls of [processBucket] on different partitions, in any order, add up
    the contributions of these partitions. *)
Lemma processBucket_fold_total bs σ :
  NoDup bs -> 0 <= total_unique_count σ < 2 ^ 64 ->
  total_unique_count (foldl (λ s b, processBucket b s) σ bs)
  = wrap64 (total_unique_count σ + sumZ (contribution (sfiles σ) <$> bs)).
Proof.
  intros Hnd. revert σ. induction Hnd as [|b bs Hb Hnd IH]; intros σ Ht.
  - simpl. rewrite Z.add_0_r. unfold wrap64. by rewrite Z.mod_small.
  - simpl foldl. rewrite IH by (rewrite processBucket_total by done; apply wrap64_range).
    rewrite processBucket_total by done. rewrite wrap64_add_l.
    rewrite fmap_cons, sumZ_cons, processBucket_files.
    rewrite (list_fmap_ext (contribution (delete _ _)) (contribution (sfiles σ)) bs).
    + f_equal. lia.
    + intros i b' Hb'. apply contribution_delete. intros ->.
      apply Hb. by eapply list_elem_of_lookup_2.
Qed.


(** ** The reduce phase, over all interleavings *)

Lemma omap_insert_perm {A B} (f : A → option B) ws i t t' :
  ws !! i = Some t ->
  option_list (f t) ++ omap f (<[i := t']> ws) ≡ₚ option_list (f t') ++ omap f ws.
Proof.
  intros Hi. rewrite insert_take_drop by (by eapply lookup_lt_Some).
  rewrite <- (take_drop_middle ws i t Hi) at 3.
  rewrite !omap_app. simpl.
  destruct (f t) as [y|], (f t') as [y'|]; simpl.
  - rewrite <- !Permutation_middle. apply perm_swap.
  - rewrite <- !Permutation_middle. done.
  - rewrite <- !Permutation_middle. done.
  - done.
Qed.

Lemma count_of_insert t0 ws i t t' :
  ws !! i = Some t ->
  count_of t0 (<[i := t']> ws) + (if decide (t = t0) then 1 else 0)
  = count_of t0 ws + (if decide (t' = t0) then 1 else 0).
Proof.
  intros Hi. unfold count_of.
  rewrite insert_take_drop by (by eapply lookup_lt_Some).
  rewrite <- (take_drop_middle ws i t Hi) at 3.
  rewrite !filter_app, !filter_cons, !length_app.
  destruct (decide (t = t0)), (decide (t' = t0)); simpl; lia.
Qed.

Lemma count_of_replicate t n : count_of t (replicate n t) = Z.of_nat n.
Proof.
  unfold count_of. induction n as [|n IH]; [done|].
  rewrite replicate_S, filter_cons, decide_True by done. cbn [length]. lia.
Qed.

Lemma count_of_replicate_ne t t' n : t' ≠ t -> count_of t (replicate n t') = 0.
Proof.
  intros Hne. unfold count_of. induction n as [|n IH]; [done|].
  rewrite replicate_S, filter_cons, decide_False by done. done.
Qed.

Lemma claimed_of_replicate_AtFetch n : claimed_of (replicate n AtFetch) = [].
Proof. induction n; simpl; done. Qed.

Lemma count_of_nonneg t ws : 0 <= count_of t ws.
Proof. unfold count_of. lia. Qed.

Lemma count_of_all t ws :
  count_of t ws = Z.of_nat (length ws) ↔ Forall (λ t', t' = t) ws.
Proof.
  unfold count_of. induction ws as [|t' ws IH]; [split; [constructor|done]|].
  rewrite filter_cons, Forall_cons.
  pose proof (length_filter (λ t', t' = t) ws).
  destruct (decide (t' = t)); cbn [length].
  - rewrite <- IH. split; [intros; split; [done|lia]|intros [_ ?]; lia].
  - split; [lia|]. by intros [? _].
Qed.

Lemma reduce_init_inv n d : reduce_inv n d (reduce_init (Z.of_nat n) d).
Proof.
  unfold reduce_init. rewrite Nat2Z.id. split; simpl.
  - by rewrite length_replicate.
  - done.
  - by rewrite count_of_replicate_ne.
  - done.
  - by rewrite claimed_of_replicate_AtFetch.
  - done.
Qed.

Lemma count_of_le_length t ws : count_of t ws <= Z.of_nat (length ws).
Proof. unfold count_of. pose proof (length_filter (λ t', t' = t) ws). lia. Qed.

Lemma reduce_inv_counter n d σ :
  reduce_inv n d σ -> currentBucket σ <= NUM_BUCKETS + Z.of_nat n.
Proof.
  intros [Hw Hc Hf _ _ _].
  pose proof (count_of_le_length Finished (workers σ)). lia.
Qed.

Lemma step_inv n d σ σ' :
  Z.of_nat n < 2 ^ 32 -> reduce_inv n d σ -> step σ σ' -> reduce_inv n d σ'.
Proof.
  intros Hn Hinv Hstep.
  pose proof (reduce_inv_counter n d σ Hinv) as Hle.
  destruct Hinv as [Hw Hc Hf Hcl Hwork Hsh].
  destruct Hstep as [σ i Hi b|σ i b Hi].
  - subst b. unfold NUM_BUCKETS in *.
    assert (Hwrap : wrap64 (currentBucket σ + 1) = currentBucket σ + 1).
    { unfold wrap64. apply Z.mod_small. lia. }
    pose proof (count_of_insert Finished (workers σ) i AtFetch
                  (if currentBucket σ >=? 256 then Finished else Claimed (currentBucket σ)) Hi)
      as Hcount.
    pose proof (omap_insert_perm holds (workers σ) i AtFetch
                  (if currentBucket σ >=? 256 then Finished else Claimed (currentBucket σ)) Hi)
      as Hperm.
    split; simpl; rewrite ?Hwrap; unfold NUM_BUCKETS in *.
    + by rewrite length_insert.
    + lia.
    + rewrite decide_False in Hcount by done.
      destruct (Z.geb_spec (currentBucket σ) 256).
      * rewrite decide_True in Hcount by done. lia.
      * rewrite decide_False in Hcount by done. lia.
    + rewrite fmap_app, Hcl. simpl.
      replace (currentBucket σ + 1) with (Z.of_nat (S (Z.to_nat (currentBucket σ)))) by lia.
      rewrite seqZ_S. rewrite Z2Nat.id by done. done.
    + simpl in Hperm. fold (claimed_of (<[i := (if currentBucket σ >=? 256 then Finished
                                   else Claimed (currentBucket σ))]> (workers σ))) in Hperm.
      fold (claimed_of (workers σ)) in Hperm. rewrite Hperm.
      destruct (Z.geb_spec (currentBucket σ) 256); simpl.
      * rewrite Hwork. f_equiv. lia.
      * rewrite <- Permutation_middle, Hwork.
        rewrite Z.min_l, Z.min_l by lia.
        replace (currentBucket σ + 1) with (Z.of_nat (S (Z.to_nat (currentBucket σ)))) by lia.
        rewrite seqZ_S. rewrite Z2Nat.id by done.
        rewrite <- Permutation_cons_append. done.
    + done.
  - pose proof (count_of_insert Finished (workers σ) i (Claimed b) AtFetch Hi) as Hcount.
    pose proof (omap_insert_perm holds (workers σ) i (Claimed b) AtFetch Hi) as Hperm.
    split; simpl; unfold NUM_BUCKETS in *.
    + by rewrite length_insert.
    + done.
    + rewrite !decide_False in Hcount by done. lia.
    + done.
    + simpl in Hperm. fold (claimed_of (<[i := AtFetch]> (workers σ))) in Hperm.
      fold (claimed_of (workers σ)) in Hperm.
      rewrite <- Hwork, <- Hperm. rewrite <- app_assoc. simpl.
      by rewrite <- Permutation_middle.
    + by rewrite foldl_snoc, Hsh.
Qed.

Lemma rtc_step_inv n d σ :
  Z.of_nat n < 2 ^ 32 ->
  rtc step (reduce_init (Z.of_nat n) d) σ -> reduce_inv n d σ.
Proof.
  intros Hn Hrtc.
  revert σ Hrtc. apply (rtc_ind_r (R := step)).
  - apply reduce_init_inv.
  - intros σ σ' _ Hstep IH. by eapply step_inv.
Qed.

Lemma step_remaining n d σ σ' :
  Z.of_nat n < 2 ^ 32 -> reduce_inv n d σ -> step σ σ' ->
  remaining σ' = remaining σ - 1.
Proof.
  intros Hn Hinv Hstep.
  pose proof (reduce_inv_counter n d σ Hinv) as Hle.
  destruct Hinv as [Hw Hc Hf Hcl Hwork Hsh].
  destruct Hstep as [σ i Hi b|σ i b Hi]; unfold remaining; simpl.
  - subst b. unfold NUM_BUCKETS in *.
    assert (Hwrap : wrap64 (currentBucket σ + 1) = currentBucket σ + 1).
    { unfold wrap64. apply Z.mod_small. lia. }
    rewrite Hwrap.
    pose proof (count_of_insert AtFetch (workers σ) i AtFetch
                  (if currentBucket σ >=? 256 then Finished else Claimed (currentBucket σ)) Hi)
      as Hcount.
    pose proof (omap_insert_perm holds (workers σ) i AtFetch
                  (if currentBucket σ >=? 256 then Finished else Claimed (currentBucket σ)) Hi)
      as Hperm.
    apply Permutation_length in Hperm. rewrite !length_app in Hperm.
    fold (claimed_of (<[i := (if currentBucket σ >=? 256 then Finished
                               else Claimed (currentBucket σ))]> (workers σ))) in Hperm.
    fold (claimed_of (workers σ)) in Hperm.
    rewrite decide_True in Hcount by done.
    destruct (Z.geb_spec (currentBucket σ) 256); simpl in Hperm.
    + rewrite decide_False in Hcount by done. lia.
    + rewrite decide_False in Hcount by done. lia.
  - pose proof (count_of_insert AtFetch (workers σ) i (Claimed b) AtFetch Hi) as Hcount.
    pose proof (omap_insert_perm holds (workers σ) i (Claimed b) AtFetch Hi) as Hperm.
    apply Permutation_length in Hperm. rewrite !length_app in Hperm.
    fold (claimed_of (<[i := AtFetch]> (workers σ))) in Hperm.
    fold (claimed_of (workers σ)) in Hperm. simpl in Hperm.
    rewrite decide_False, decide_True in Hcount by done. lia.
Qed.

Lemma remaining_init n d : remaining (reduce_init (Z.of_nat n) d) = 512 + Z.of_nat n.
Proof.
  unfold remaining, reduce_init. simpl. rewrite Nat2Z.id.
  rewrite claimed_of_replicate_AtFetch, count_of_replicate. done.
Qed.

Lemma claimed_of_joined ws : Forall (λ t, t = Finished) ws -> claimed_of ws = [].
Proof. induction 1 as [|t ws -> _ IH]; simpl; done. Qed.

Lemma joined_counter n d σ :
  (1 <= n)%nat -> reduce_inv n d σ -> joined σ ->
  currentBucket σ = NUM_BUCKETS + Z.of_nat n.
Proof.
  intros Hn [Hw Hc Hf _ _ _] Hj.
  apply count_of_all in Hj. rewrite Hj, Hw in Hf. lia.
Qed.

Lemma remaining_nonneg σ : 0 <= remaining σ.
Proof.
  unfold remaining. pose proof (count_of_nonneg AtFetch (workers σ)).
  unfold NUM_BUCKETS. lia.
Qed.

Lemma joined_remaining n d σ :
  (1 <= n)%nat -> reduce_inv n d σ -> joined σ -> remaining σ = 0.
Proof.
  intros Hn Hinv Hj. pose proof (joined_counter n d σ Hn Hinv Hj) as Hc.
  unfold remaining. rewrite (claimed_of_joined _ Hj), Hc.
  assert (count_of AtFetch (workers σ) = 0) as ->.
  { unfold count_of. unfold joined in Hj.
    induction Hj as [|t ws -> _ IH]; [done|].
    rewrite filter_cons, decide_False by done. done. }
  unfold NUM_BUCKETS. simpl. lia.
Qed.

(** A worker that has not left its loop can act. *)
Lemma step_progress σ : ¬ joined σ -> ∃ σ', step σ σ'.
Proof.
  intros Hnj. unfold joined in Hnj.
  apply not_Forall_Exists in Hnj; [|apply _].
  apply Exists_exists in Hnj as (t & Hin & Ht).
  apply list_elem_of_lookup in Hin as [i Hi].
  destruct t as [|b|]; [| |by destruct Ht].
  - eexists. by eapply step_fetch.
  - eexists. by eapply step_process.
Qed.

Lemma nsteps_remaining n d k σ σ' :
  Z.of_nat n < 2 ^ 32 -> reduce_inv n d σ -> nsteps step k σ σ' ->
  reduce_inv n d σ' ∧ remaining σ' = remaining σ - Z.of_nat k.
Proof.
  intros Hn Hinv Hsteps. induction Hsteps as [σ|k σ σ1 σ' Hstep Hsteps IH].
  - split; [done|lia].
  - destruct IH as [Hinv' Hrem]; [by eapply step_inv|].
    split; [done|]. rewrite Hrem, (step_remaining n d σ σ1) by done. lia.
Qed.

(** From every state of the reduce phase the workers can all be joined. *)
Lemma reduce_terminates n d σ :
  Z.of_nat n < 2 ^ 32 -> reduce_inv n d σ ->
  ∃ σ', rtc step σ σ' ∧ joined σ'.
Proof.
  intros Hn. remember (Z.to_nat (remaining σ)) as m eqn:Hm. revert σ Hm.
  induction (lt_wf m) as [m _ IH]. intros σ -> Hinv.
  destruct (decide (joined σ)) as [Hj|Hnj]; [by exists σ|].
  destruct (step_progress σ Hnj) as [σ1 Hstep].
  pose proof (step_remaining n d σ σ1 Hn Hinv Hstep) as Hrem.
  pose proof (remaining_nonneg σ1).
  destruct (IH (Z.to_nat (remaining σ1)) ltac:(lia) σ1 eq_refl) as (σ' & Hrtc & Hj).
  { by eapply step_inv. }
  exists σ'. split; [|done]. by eapply rtc_l.
Qed.

Lemma joined_calls n d σ :
  (1 <= n)%nat -> reduce_inv n d σ -> joined σ ->
  calls σ ≡ₚ seqZ 0 NUM_BUCKETS.
Proof.
  intros Hn Hinv Hj. pose proof (joined_counter n d σ Hn Hinv Hj) as Hc.
  destruct Hinv as [_ _ _ _ Hwork _].
  rewrite (claimed_of_joined _ Hj), app_nil_r, Hc in Hwork.
  rewrite Hwork. f_equiv. lia.
Qed.

(** When the workers have been joined, the count is the sum of the
    contributions of the 256 partitions, whatever the interleaving was. *)
Lemma joined_total n d σ :
  (1 <= n)%nat -> reduce_inv n d σ -> joined σ ->
  total_unique_count (sh σ)
  = wrap64 (sumZ (contribution d <$> seqZ 0 NUM_BUCKETS)).
Proof.
  intros Hn Hinv Hj. pose proof (joined_calls n d σ Hn Hinv Hj) as Hcalls.
  destruct Hinv as [_ _ _ _ _ ->].
  rewrite processBucket_fold_total; cbn [sfiles total_unique_count];
    [|by rewrite Hcalls; apply NoDup_seqZ|lia].
  rewrite Z.add_0_l. f_equal. apply sumZ_Permutation. by rewrite Hcalls.
Qed.

Lemma reduce_seq_total d :
  total_unique_count (reduce_seq d)
  = wrap64 (sumZ (contribution d <$> seqZ 0 NUM_BUCKETS)).
Proof.
  unfold reduce_seq.
  rewrite processBucket_fold_total; cbn [sfiles total_unique_count];
    [by rewrite Z.add_0_l|apply NoDup_seqZ|lia].
Qed.

(** ** The count of a whole run *)

Lemma contribution_phase1 d lines b :
  (∀ b, is_bucket b -> d !! getBucketFileName b = Some []) -> is_bucket b ->
  contribution (phase1 d lines) b
  = Z.of_nat (length (remove_dups (bucket_keys b (keys_of lines)))).
Proof.
  intros Hd Hb. unfold contribution. rewrite phase1_files by done.
  apply unique_in_bucket_distinct.
Qed.

Lemma phase1_count d lines :
  (∀ b, is_bucket b -> d !! getBucketFileName b = Some []) ->
  sumZ (contribution (phase1 d lines) <$> seqZ 0 NUM_BUCKETS)
  = Z.of_nat (length (remove_dups (keys_of lines))).
Proof.
  intros Hd.
  rewrite (list_fmap_ext _
    (λ b, Z.of_nat (length (remove_dups (filter (λ k, bucketIdx k = b) (keys_of lines)))))).
  - apply distinct_partition; [apply NoDup_seqZ|].
    intros k _. apply is_bucket_seqZ, bucketIdx_range.
  - intros i b Hb. apply contribution_phase1; [done|].
    apply is_bucket_seqZ. by eapply list_elem_of_lookup_2.
Qed.

Lemma keys_of_cons line lines :
  keys_of (line :: lines)
  = match line_key line with
    | Some k => k :: keys_of lines
    | None => keys_of lines
    end.
Proof. done. Qed.

Lemma keys_of_length lines : (length (keys_of lines) <= length lines)%nat.
Proof.
  induction lines as [|l lines IH]; [done|].
  rewrite keys_of_cons. destruct (line_key l); cbn [length]; lia.
Qed.

Lemma remove_dups_length_le {A} `{EqDecision A} (l : list A) :
  (length (remove_dups l) <= length l)%nat.
Proof.
  induction l as [|x l IH]; [done|].
  cbn [remove_dups]. case_match; cbn [length]; lia.
Qed.

Lemma nThreads_range w :
  0 <= hardware_concurrency w < 2 ^ 32 -> 1 <= nThreads w < 2 ^ 32.
Proof.
  unfold nThreads. destruct (Z.eqb_spec (hardware_concurrency w) 0); lia.
Qed.

(** The count every interleaving ends with. *)
Lemma reduce_count (nT : Z) d lines σ :
  1 <= nT < 2 ^ 32 ->
  (∀ b, is_bucket b -> d !! getBucketFileName b = Some []) ->
  Z.of_nat (length lines) < 2 ^ 64 ->
  rtc step (reduce_init nT (phase1 d lines)) σ -> joined σ ->
  total_unique_count (sh σ) = Z.of_nat (length (remove_dups (keys_of lines))).
Proof.
  intros HnT Hd Hlen Hrtc Hj.
  rewrite <- (Z2Nat.id nT) in Hrtc by lia.
  apply rtc_step_inv in Hrtc; [|lia].
  rewrite (joined_total (Z.to_nat nT) _ _ ltac:(lia) Hrtc Hj), phase1_count by done.
  unfold wrap64. apply Z.mod_small.
  pose proof (keys_of_length lines). pose proof (remove_dups_length_le (keys_of lines)).
  lia.
Qed.

(** [main] has an outcome in every world. *)
Lemma main_outcome_exists w :
  0 <= hardware_concurrency w < 2 ^ 32 -> ∃ o, main_outcome w o.
Proof.
  intros Hhw. pose proof (nThreads_range w Hhw) as HnT.
  destruct (decide (argc w = 3)) as [Hargc|Hargc]; [|eexists; by apply main_usage].
  destruct (input_file w) as [lines|] eqn:Hin; [|eexists; by apply main_no_input].
  destruct (openAll (can_create w) (disk0 w)) as [f|d] eqn:Hopen;
    [eexists; by eapply main_no_temp|].
  destruct (reduce_terminates (Z.to_nat (nThreads w)) (phase1 d lines)
              (reduce_init (nThreads w) (phase1 d lines))) as (σ & Hrtc & Hj).
  - lia.
  - rewrite <- (Z2Nat.id (nThreads w)) at 2 by lia. apply reduce_init_inv.
  - eexists. by eapply main_counted.
Qed.

(** The outcome does not depend on the interleaving: it is the one of the
    schedule [main_seq]. *)
Lemma main_outcome_seq w o :
  0 <= hardware_concurrency w < 2 ^ 32 -> main_outcome w o -> o = main_seq w.
Proof.
  intros Hhw Ho. pose proof (nThreads_range w Hhw) as HnT. unfold main_seq.
  destruct Ho as [Hargc|Hargc Hin|lines f Hargc Hin Hopen|lines d σ Hargc Hin Hopen Hrtc Hj].
  - destruct (Z.eqb_spec (argc w) 3); done.
  - rewrite Hargc, Hin. done.
  - rewrite Hargc, Hin, Hopen. done.
  - rewrite Hargc, Hin, Hopen.
    change (write_result w (total_unique_count (sh σ))
            = write_result w (total_unique_count (reduce_seq (phase1 d lines)))).
    f_equal.
    rewrite <- (Z2Nat.id (nThreads w)) in Hrtc by lia.
    apply rtc_step_inv in Hrtc; [|lia].
    rewrite (joined_total (Z.to_nat (nThreads w)) _ _ ltac:(lia) Hrtc Hj).
    by rewrite reduce_seq_total.
Qed.

Lemma main_seq_outcome w :
  0 <= hardware_concurrency w < 2 ^ 32 -> main_outcome w (main_seq w).
Proof.
  intros Hhw. destruct (main_outcome_exists w Hhw) as [o Ho].
  by rewrite <- (main_outcome_seq w o Hhw Ho).
Qed.

(** ** Fields of one to four digits *)

Lemma hex_acc_bound v ds :
  forallb is_hex ds = true -> 0 <= v ->
  0 <= hex_acc v ds < (v + 1) * 16 ^ Z.of_nat (length ds).
Proof.
  revert v. induction ds as [|c ds IH]; intros v Hds Hv.
  - unfold hex_acc. simpl. lia.
  - simpl in Hds. apply andb_true_iff in Hds as [Hc Hds].
    apply is_hex_range in Hc.
    change (hex_acc v (c :: ds)) with (hex_acc (16 * v + hexDigitToInt c) ds).
    specialize (IH (16 * v + hexDigitToInt c) Hds ltac:(lia)).
    cbn [length]. rewrite Nat2Z.inj_succ, Z.pow_succ_r by lia.
    split; [lia|]. eapply Z.lt_le_trans; [apply IH|].
    assert (0 < 16 ^ Z.of_nat (length ds)) by (apply Z.pow_pos_nonneg; lia).
    nia.
Qed.

Lemma is_field_group g : is_field g = true -> is_group g = true.
Proof. unfold is_field. by intros [? _]%andb_true_iff. Qed.

Lemma group_value_field g : is_field g = true -> group_value g = hex_value g.
Proof.
  unfold is_field. intros [Hg Hlen]%andb_true_iff.
  apply is_group_inv in Hg as [_ Hg]. apply Z.leb_le in Hlen.
  unfold group_value. apply Z.mod_small.
  pose proof (hex_acc_bound 0 g Hg ltac:(lia)) as Hb. fold (hex_value g) in Hb.
  assert (16 ^ Z.of_nat (length g) <= 16 ^ 4) by (apply Z.pow_le_mono_r; lia).
  lia.
Qed.

Lemma Forall_field_group gs :
  Forall (λ g, is_field g = true) gs -> Forall (λ g, is_group g = true) gs.
Proof. intros H. eapply Forall_impl; [done|]. intros g. apply is_field_group. Qed.

Lemma map_group_value_field gs :
  Forall (λ g, is_field g = true) gs -> map group_value gs = map hex_value gs.
Proof.
  induction 1 as [|g gs Hg _ IH]; simpl; [done|].
  by rewrite IH, group_value_field.
Qed.

(** [parseIPv6] gives a well-formed text the key of the address the text
    stands for. *)
Lemma parse_well_formed t :
  spec_well_formed t ->
  parseIPv6_chars (spec_render t) = Some (pack (spec_groups t)).
Proof.
  destruct t as [gs|a b]; simpl.
  - intros [Hgs Hlen].
    pose proof (parse_full_form [] gs [] eq_refl (Forall_field_group gs Hgs) Hlen eq_refl) as H.
    simpl in H. rewrite app_nil_r in H. rewrite H. by rewrite map_group_value_field.
  - intros (Ha & Hb & Hlen).
    pose proof (parse_compressed_form [] a b [] eq_refl (Forall_field_group a Ha)
                  (Forall_field_group b Hb) Hlen eq_refl) as H.
    simpl in H. rewrite app_nil_r in H. rewrite H.
    by rewrite !map_group_value_field.
Qed.

Lemma distinct_count_repeated (addrs lines : list string) (k : nat) :
  (1 <= k)%nat -> lines ≡ₚ mjoin (replicate k addrs) ->
  Forall (λ a, is_Some (line_key a)) addrs -> NoDup (keys_of addrs) ->
  length (remove_dups (keys_of lines)) = length addrs.
Proof.
  intros Hk Hperm Hvalid Hnd.
  assert (Hlen : length (keys_of addrs) = length addrs).
  { clear Hnd Hperm. induction Hvalid as [|a addrs [key Ha] _ IH]; [done|].
    rewrite keys_of_cons, Ha. cbn [length]. by rewrite IH. }
  rewrite <- Hlen. apply Permutation_length.
  apply NoDup_Permutation; [apply NoDup_remove_dups|done|].
  intros x. rewrite elem_of_remove_dups. unfold keys_of.
  rewrite !list_elem_of_omap. split.
  - intros (line & Hin & Hx). exists line. split; [|done].
    rewrite Hperm in Hin. apply list_elem_of_join in Hin as (l & Hl & Hrep).
    by apply elem_of_replicate_inv in Hrep as ->.
  - intros (line & Hin & Hx). exists line. split; [|done].
    rewrite Hperm. apply list_elem_of_join. exists addrs. split; [done|].
    apply elem_of_replicate. split; [done|lia].
Qed.

Lemma keys_of_all_rejected lines :
  Forall (λ l, line_key l = None) lines -> keys_of lines = [].
Proof.
  induction 1 as [|l lines Hl _ IH]; [done|]. by rewrite keys_of_cons, Hl.
Qed.

Lemma NoDup_fmap_inj {A B} (f : A → B) (l : list A) x y :
  NoDup (f <$> l) -> x ∈ l -> y ∈ l -> f x = f y -> x = y.
Proof.
  induction l as [|z l IH]; intros Hnd Hx Hy Hf; [by apply elem_of_nil in Hx|].
  rewrite fmap_cons in Hnd. apply NoDup_cons in Hnd as [Hz Hnd].
  apply elem_of_cons in Hx as [->|Hx], Hy as [->|Hy]; [done| | |by apply IH].
  - exfalso. apply Hz. rewrite Hf. by apply list_elem_of_fmap_2.
  - exfalso. apply Hz. rewrite <- Hf. by apply list_elem_of_fmap_2.
Qed.

Lemma openAll_created w d :
  openAll (can_create w) (disk0 w) = inr d ->
  ∀ b, is_bucket b -> can_create w (getBucketFileName b) = true.
Proof.
  rewrite openAll_fold. intros [H _]%open_fold_inr b Hb.
  apply H. by apply is_bucket_seqZ.
Qed.

Lemma openAll_refused w f :
  openAll (can_create w) (disk0 w) = inl f ->
  ∃ b, is_bucket b ∧ can_create w (getBucketFileName b) = false.
Proof.
  rewrite openAll_fold. intros (b & Hb & -> & Hcan)%open_fold_inl_inv.
  exists b. split; [by apply is_bucket_seqZ|done].
Qed.

Lemma fresh_disk_open : openAll (λ _, true) ∅ = inr fresh_disk.
Proof.
  unfold fresh_disk. destruct (openAll (λ _, true) ∅) as [f|d] eqn:Hopen; [|done].
  rewrite openAll_fold in Hopen.
  by apply open_fold_inl_inv in Hopen as (b & _ & _ & ?).
Qed.

(** ** Distinct addresses have distinct keys *)

Lemma pack4_inj a b c d a' b' c' d' :
  group_ok a -> group_ok b -> group_ok c -> group_ok d ->
  group_ok a' -> group_ok b' -> group_ok c' -> group_ok d' ->
  pack4 a b c d = pack4 a' b' c' d' -> a = a' ∧ b = b' ∧ c = c' ∧ d = d'.
Proof.
  intros Ha Hb Hc Hd Ha' Hb' Hc' Hd'. rewrite !pack4_value by done.
  unfold group_ok in *. lia.
Qed.

Lemma pack_inj p q :
  length p = 8%nat -> length q = 8%nat -> Forall group_ok p -> Forall group_ok q ->
  pack p = pack q -> p = q.
Proof.
  intros Hp Hq Hpok Hqok Heq.
  do 8 (destruct p as [|? p]; [done|]). destruct p; [|done].
  do 8 (destruct q as [|? q]; [done|]). destruct q; [|done].
  repeat match goal with H : Forall _ (_ :: _) |- _ => apply Forall_cons in H as [? H] end.
  unfold pack in Heq. simpl in Heq. injection Heq as Hhi Hlo.
  apply pack4_inj in Hhi as (-> & -> & -> & ->); [|done..].
  apply pack4_inj in Hlo as (-> & -> & -> & ->); [|done..].
  done.
Qed.

Lemma hex_value_field_ok g : is_field g = true -> group_ok (hex_value g).
Proof.
  intros Hg. rewrite <- group_value_field by done.
  unfold group_ok, group_value. apply Z.mod_pos_bound. lia.
Qed.

Lemma map_hex_value_ok gs :
  Forall (λ g, is_field g = true) gs -> Forall group_ok (map hex_value gs).
Proof.
  induction 1 as [|g gs Hg _ IH]; simpl; [done|].
  apply Forall_cons. split; [by apply hex_value_field_ok|done].
Qed.

Lemma spec_groups_ok t :
  spec_well_formed t -> length (spec_groups t) = 8%nat ∧ Forall group_ok (spec_groups t).
Proof.
  destruct t as [gs|a b]; simpl.
  - intros [Hgs Hlen]. split; [by rewrite length_map|by apply map_hex_value_ok].
  - intros (Ha & Hb & Hlen). split.
    + rewrite !length_app, !length_map, length_replicate. lia.
    + apply Forall_app. split; [by apply map_hex_value_ok|].
      apply Forall_app. split; [|by apply map_hex_value_ok].
      apply Forall_replicate. unfold group_ok. lia.
Qed.

(** ** The line of a well-formed text *)

Lemma pop_cr_no_space l : Forall (λ c, isspace c = false) l -> pop_cr l = l.
Proof.
  intros Hl. unfold pop_cr. destruct (last l) as [c|] eqn:Hlast; [|done].
  apply last_Some in Hlast as [l' ->].
  apply Forall_app in Hl as [_ Hc]. apply Forall_cons in Hc as [Hc _].
  destruct (Z.eqb_spec (code c) (code CR)) as [Heq|]; [|done].
  unfold isspace in Hc. rewrite Heq in Hc. done.
Qed.

Lemma group_no_space g :
  is_group g = true -> Forall (λ c, isspace c = false) g.
Proof.
  intros [_ Hg]%is_group_inv. induction g as [|c g IH]; [done|].
  simpl in Hg. apply andb_true_iff in Hg as [Hc Hg].
  apply Forall_cons. split; [by apply hex_not_sep in Hc as [_ ?]|auto].
Qed.

Lemma join_no_space gs :
  Forall (λ g, is_group g = true) gs -> Forall (λ c, isspace c = false) (join gs).
Proof.
  induction 1 as [|g gs Hg Hgs IH]; [done|].
  destruct gs as [|g' gs]; [by apply group_no_space|].
  rewrite join_cons. apply Forall_app. split; [by apply group_no_space|].
  apply Forall_cons. split; [done|exact IH].
Qed.

Lemma spec_render_no_space t :
  spec_well_formed t -> Forall (λ c, isspace c = false) (spec_render t).
Proof.
  destruct t as [gs|a b]; simpl.
  - intros [Hgs _]. by apply join_no_space, Forall_field_group.
  - intros (Ha & Hb & _). apply Forall_app. split.
    + by apply join_no_space, Forall_field_group.
    + do 2 (apply Forall_cons; split; [done|]).
      by apply join_no_space, Forall_field_group.
Qed.

Lemma spec_render_not_nil t : spec_well_formed t -> spec_render t ≠ [].
Proof.
  destruct t as [gs|a b]; simpl.
  - intros [Hgs Hlen] Hnil.
    pose proof (starts_hex_join' gs [] (Forall_field_group gs Hgs)) as Hh.
    rewrite app_nil_r, Hnil in Hh. destruct gs; [done|]. by specialize (Hh ltac:(done)).
  - intros _ Hnil. by apply app_eq_nil in Hnil as [_ ?].
Qed.

(** The line that holds a well-formed text contributes the key of the
    address the text stands for. *)
Lemma line_key_text t :
  spec_well_formed t -> line_key (text t) = Some (pack (spec_groups t)).
Proof.
  intros Ht. unfold line_key, text.
  rewrite list_ascii_of_string_of_list_ascii.
  pose proof (spec_render_not_nil t Ht) as Hne.
  destruct (spec_render t) as [|c cs] eqn:Hr; [done|].
  rewrite pop_cr_no_space by (rewrite <- Hr; by apply spec_render_no_space).
  rewrite <- Hr. by apply parse_well_formed.
Qed.

Lemma keys_of_texts ts :
  Forall spec_well_formed ts ->
  keys_of (text <$> ts) = (λ t, pack (spec_groups t)) <$> ts.
Proof.
  induction 1 as [|t ts Ht _ IH]; [done|].
  rewrite !fmap_cons, keys_of_cons, line_key_text by done. by rewrite IH.
Qed.

Lemma keys_of_texts_NoDup ts :
  Forall spec_well_formed ts -> NoDup (spec_groups <$> ts) ->
  NoDup (keys_of (text <$> ts)).
Proof.
  intros Hts Hnd. rewrite keys_of_texts by done.
  rewrite (list_fmap_compose spec_groups pack).
  apply NoDup_fmap_2_strong; [|done].
  intros p q [t [-> Ht]]%list_elem_of_fmap [t' [-> Ht']]%list_elem_of_fmap Heq.
  rewrite Forall_forall in Hts.
  destruct (spec_groups_ok t (Hts t Ht)), (spec_groups_ok t' (Hts t' Ht')).
  by apply pack_inj.
Qed.

(** ** Indices into [parts] are in range *)

Lemma store_index_in_range st :
  pstate_ok st -> current_part st < 8 ->
  0 <= current_part st ∧ (Z.to_nat (current_part st) < length (parts st))%nat.
Proof. intros [Hl _ Hc _] Hlt. rewrite Hl. lia. Qed.

Lemma expansion_indices_in_range st k :
  pstate_ok st -> double_colon_index st ≠ -1 ->
  0 <= k < current_part st - double_colon_index st ->
  0 <= 7 - k ∧ (Z.to_nat (7 - k) < length (parts st))%nat
  ∧ 0 <= current_part st - 1 - k
  ∧ (Z.to_nat (current_part st - 1 - k) < length (parts st))%nat.
Proof. intros [Hl _ Hc Hm] Hd Hk. rewrite Hl. lia. Qed.

(** ** What follows the eighth group *)

Lemma parse_after_eight_groups gs rest :
  Forall (λ g, is_group g = true) gs -> length gs = 8%nat ->
  parseIPv6_chars (join gs ++ ":"%char :: rest) = Some (pack (map group_value gs)).
Proof.
  intros Hgs Hlen.
  assert (Hne : gs ≠ []) by (by destruct gs).
  pose proof (parseIPv6_chars_hex [] (join gs ++ ":"%char :: rest) eq_refl
                (starts_hex_join' gs _ Hgs Hne)) as Hp.
  simpl in Hp. rewrite Hp. clear Hp.
  destruct (starts_colon rest) eqn:Hrest.
  - destruct rest as [|c rest]; [done|]. simpl in Hrest.
    apply is_colon_eq in Hrest as ->.
    rewrite main_loop_join_double_colon by (done || simpl; lia). simpl.
    rewrite main_loop_full
      by (unfold mark_double_colon; simpl; rewrite stores_current_part; simpl; lia).
    rewrite stores_parts0 by (done || lia).
    rewrite Hlen. simpl. rewrite app_nil_r. done.
  - rewrite main_loop_join_colon by (done || simpl; lia).
    rewrite main_loop_full by (rewrite stores_current_part; simpl; lia).
    rewrite stores_parts0 by (done || lia).
    rewrite Hlen. simpl. rewrite app_nil_r. done.
Qed.

(** ** White space ends the parsing of a line *)

Lemma hex_prefix s :
  ∃ ds s1, s = ds ++ s1 ∧ forallb is_hex ds = true ∧ starts_hex s1 = false.
Proof.
  induction s as [|c s (ds & s1 & -> & Hds & Hs1)].
  - by exists [], [].
  - destruct (is_hex c) eqn:Hc.
    + exists (c :: ds), s1. simpl. by rewrite Hc, Hds.
    + exists [], (c :: ds ++ s1). done.
Qed.

Lemma loop_body_no_digits s st :
  starts_hex s = false ->
  loop_body s st
  = match s with
    | [] => Break st
    | c :: s2 =>
        if isspace c then Break st
        else if is_colon c then
          match s2 with
          | c2 :: s3 =>
              if is_colon c2 then
                if negb (double_colon_index st =? -1) then ReturnFalse
                else Continue s3 (mark_double_colon st)
              else Continue s2 st
          | [] => Continue s2 st
          end
        else ReturnFalse
    end.
Proof.
  intros Hs. unfold loop_body.
  pose proof (read_hex_digits [] s 0 false eq_refl Hs) as Hr.
  simpl in Hr. by rewrite Hr.
Qed.

Lemma loop_body_space s sp rest st :
  Forall (λ c, isspace c = false) s -> isspace sp = true ->
  match loop_body s st with
  | Continue s1 st1 =>
      loop_body (s ++ sp :: rest) st = Continue (s1 ++ sp :: rest) st1
      ∧ Forall (λ c, isspace c = false) s1
  | Break st1 => loop_body (s ++ sp :: rest) st = Break st1
  | ReturnFalse => loop_body (s ++ sp :: rest) st = ReturnFalse
  end.
Proof.
  intros Hs Hsp. destruct (space_not_hex sp Hsp) as [Hsph Hspc].
  destruct (hex_prefix s) as (ds & s1 & -> & Hds & Hs1).
  apply Forall_app in Hs as [_ Hs].
  assert (Hs1' : starts_hex (s1 ++ sp :: rest) = false).
  { destruct s1; simpl; done. }
  rewrite <- app_assoc.
  rewrite !loop_body_digits by done.
  rewrite !loop_body_no_digits by done.
  destruct s1 as [|c1 s2]; simpl; [by rewrite Hsp|].
  apply Forall_cons in Hs as [Hc1 Hs]. rewrite Hc1.
  destruct (is_colon c1); [|done].
  destruct s2 as [|c2 s3]; simpl; [by rewrite Hspc|].
  apply Forall_cons in Hs as [Hc2 Hs].
  destruct (is_colon c2).
  - by destruct (negb _).
  - split; [done|]. by apply Forall_cons.
Qed.

Lemma main_loop_space s sp rest st :
  Forall (λ c, isspace c = false) s -> isspace sp = true ->
  main_loop (s ++ sp :: rest) st = main_loop s st.
Proof.
  intros Hs Hsp. remember (length s) as n eqn:Hn. revert s st Hn Hs.
  induction (lt_wf n) as [n _ IH]. intros s st -> Hs.
  destruct s as [|c s]; [by rewrite !main_loop_ends|].
  rewrite (main_loop_eq (c :: s)), (main_loop_eq ((c :: s) ++ sp :: rest)).
  simpl ((c :: s) ++ _).
  destruct (current_part st <? 8); [|done].
  pose proof (loop_body_space (c :: s) sp rest st Hs Hsp) as Hb.
  pose proof (loop_body_Continue_length (c :: s) st) as Hl.
  simpl ((c :: s) ++ _) in Hb.
  destruct (loop_body (c :: s) st) as [s1 st1|st1|].
  - destruct Hb as [-> Hs1]. eapply IH; [by eapply Hl|done|done].
  - by rewrite Hb.
  - by rewrite Hb.
Qed.

Lemma parse_space ws s sp rest :
  forallb isspace ws = true -> s ≠ [] ->
  Forall (λ c, isspace c = false) s -> isspace sp = true ->
  parseIPv6_chars (ws ++ s ++ sp :: rest) = parseIPv6_chars (ws ++ s).
Proof.
  intros Hws Hne Hs Hsp. destruct (space_not_hex sp Hsp) as [Hsph Hspc].
  destruct s as [|c s1]; [done|].
  pose proof Hs as [Hc Hs1]%Forall_cons.
  unfold parseIPv6_chars.
  rewrite !skip_spaces_app by done. simpl.
  destruct (is_colon c).
  - destruct s1 as [|c1 s2]; simpl; [by rewrite Hspc|].
    apply Forall_cons in Hs1 as [Hc1 Hs2].
    destruct (is_colon c1); [|done].
    destruct s2 as [|c2 s3]; simpl; [by rewrite Hsp|].
    pose proof Hs2 as [Hc2 _]%Forall_cons. rewrite Hc2.
    f_equal. by apply (main_loop_space (c2 :: s3)).
  - f_equal. by apply (main_loop_space (c :: s1)).
Qed.

(** ** The shape of a well-formed text *)

Lemma has_marker_app x y :
  has_marker (x ++ ":"%char :: ":"%char :: y) = true.
Proof.
  induction x as [|c x IH]; [done|].
  destruct x as [|c' x]; simpl in *; by rewrite ?IH, ?orb_true_r.
Qed.

Lemma colons_app x y : colons (x ++ y) = (colons x + colons y)%nat.
Proof. unfold colons. by rewrite filter_app, length_app. Qed.

Lemma colons_group g : is_group g = true -> colons g = 0%nat.
Proof.
  intros [_ Hg]%is_group_inv. unfold colons.
  induction g as [|c g IH]; [done|].
  simpl in Hg. apply andb_true_iff in Hg as [Hc Hg].
  apply hex_not_sep in Hc as [Hc _].
  rewrite filter_cons, decide_False by congruence. auto.
Qed.

Lemma colons_join gs :
  Forall (λ g, is_group g = true) gs -> colons (join gs) = (length gs - 1)%nat.
Proof.
  induction 1 as [|g gs Hg Hgs IH]; [done|].
  destruct gs as [|g' gs]; [by apply colons_group|].
  rewrite join_cons, colons_app, colons_group by done.
  change (colons (":"%char :: join (g' :: gs))) with (S (colons (join (g' :: gs)))).
  rewrite IH. simpl. lia.
Qed.

Lemma spec_render_shape t :
  spec_well_formed t ->
  has_marker (spec_render t) = true ∨ colons (spec_render t) = 7%nat.
Proof.
  destruct t as [gs|a b]; simpl.
  - intros [Hgs Hlen]. right.
    rewrite colons_join by (by apply Forall_field_group). lia.
  - intros _. left. apply has_marker_app.
Qed.

(** ** Counting distinct addresses through their keys *)

Lemma remove_dups_length_perm {A} `{EqDecision A} (l l' : list A) :
  l ≡ₚ l' -> length (remove_dups l) = length (remove_dups l').
Proof.
  intros Hp. apply Permutation_length, NoDup_Permutation; [apply NoDup_remove_dups..|].
  intros x. by rewrite !elem_of_remove_dups, Hp.
Qed.

Lemma remove_dups_fmap_length {A B} `{EqDecision A, EqDecision B} (f : A → B) l :
  (∀ x y, x ∈ l -> y ∈ l -> f x = f y -> x = y) ->
  length (remove_dups (f <$> l)) = length (remove_dups l).
Proof.
  intros Hinj. rewrite <- (length_fmap f (remove_dups l)).
  apply Permutation_length, NoDup_Permutation.
  - apply NoDup_remove_dups.
  - apply NoDup_fmap_2_strong; [|apply NoDup_remove_dups].
    intros x y Hx Hy. rewrite elem_of_remove_dups in Hx, Hy. by apply Hinj.
  - intros y. rewrite elem_of_remove_dups, !list_elem_of_fmap.
    by setoid_rewrite elem_of_remove_dups.
Qed.

Lemma distinct_count_texts (ts : list text_form) (bad lines : list string) :
  lines ≡ₚ (text <$> ts) ++ bad ->
  Forall spec_well_formed ts -> Forall (λ l, line_key l = None) bad ->
  length (remove_dups (keys_of lines)) = length (remove_dups (spec_groups <$> ts)).
Proof.
  intros Hperm Hts Hbad.
  rewrite (remove_dups_length_perm (keys_of lines) (keys_of ((text <$> ts) ++ bad)))
    by (unfold keys_of; by rewrite Hperm).
  unfold keys_of. rewrite omap_app.
  fold (keys_of (text <$> ts)). fold (keys_of bad).
  rewrite (keys_of_all_rejected bad), app_nil_r, keys_of_texts by done.
  rewrite (list_fmap_compose spec_groups pack).
  apply remove_dups_fmap_length.
  intros p q [t [-> Ht]]%list_elem_of_fmap [t' [-> Ht']]%list_elem_of_fmap Heq.
  rewrite Forall_forall in Hts.
  destruct (spec_groups_ok t (Hts t Ht)), (spec_groups_ok t' (Hts t' Ht')).
  by apply pack_inj.
Qed.

(** ** The key of eight groups, as two numbers *)

Lemma pack_value v0 v1 v2 v3 v4 v5 v6 v7 :
  Forall group_ok [v0; v1; v2; v3; v4; v5; v6; v7] ->
  pack [v0; v1; v2; v3; v4; v5; v6; v7]
  = {| hi := v0 * 2 ^ 48 + v1 * 2 ^ 32 + v2 * 2 ^ 16 + v3;
       lo := v4 * 2 ^ 48 + v5 * 2 ^ 32 + v6 * 2 ^ 16 + v7 |}.
Proof.
  intros Hok.
  repeat match goal with H : Forall _ (_ :: _) |- _ => apply Forall_cons in H as [? H] end.
  unfold pack. simpl. by rewrite !pack4_value.
Qed.

Lemma group_value_ok g : group_ok (group_value g).
Proof. unfold group_ok, group_value. apply Z.mod_pos_bound. lia. Qed.

Lemma pack_group_values g0 g1 g2 g3 g4 g5 g6 g7 :
  pack (map group_value [g0; g1; g2; g3; g4; g5; g6; g7])
  = {| hi := group_value g0 * 2 ^ 48 + group_value g1 * 2 ^ 32
             + group_value g2 * 2 ^ 16 + group_value g3;
       lo := group_value g4 * 2 ^ 48 + group_value g5 * 2 ^ 32
             + group_value g6 * 2 ^ 16 + group_value g7 |}.
Proof.
  apply (pack_value (group_value g0) (group_value g1) (group_value g2) (group_value g3)
                    (group_value g4) (group_value g5) (group_value g6) (group_value g7)).
  repeat (apply Forall_cons_2; [apply group_value_ok|]). apply Forall_nil_2.
Qed.

(** * The claims *)

(** C1, as amended. When nothing fails, the line written to the output
    file is the decimal number of distinct keys among the lines the
    normalizer accepts, for every interleaving of the workers: 0 for an
    empty input, 0 for an input of rejected lines only, and N for N accepted
    lines with distinct keys each repeated k times, in any order. For an
    input of well-formed address texts and rejected lines it is the number
    of distinct addresses, so N for the texts of N distinct addresses each
    repeated k times. *)
Theorem C1_output_is_distinct_count (w : world) (lines : list string) (o : outcome) :
  argc w = 3 -> input_file w = Some lines ->
  (∀ b, is_bucket b -> can_create w (getBucketFileName b) = true) ->
  0 <= hardware_concurrency w < 2 ^ 32 ->
  Z.of_nat (length lines) < 2 ^ 64 ->
  output_writable w = true ->
  main_outcome w o ->
  exit_status o = 0
  ∧ output_file o
    = Some (pretty (Z.of_nat (length (remove_dups (keys_of lines)))) +:+ newline)
  ∧ (lines = [] -> output_file o = Some ("0" +:+ newline))
  ∧ (Forall (λ l, line_key l = None) lines -> output_file o = Some ("0" +:+ newline))
  ∧ (∀ (addrs : list string) (k : nat),
       (1 <= k)%nat -> lines ≡ₚ mjoin (replicate k addrs) ->
       Forall (λ a, is_Some (line_key a)) addrs -> NoDup (keys_of addrs) ->
       output_file o = Some (pretty (Z.of_nat (length addrs)) +:+ newline))
  ∧ (∀ (ts : list text_form) (bad : list string),
       lines ≡ₚ (text <$> ts) ++ bad ->
       Forall spec_well_formed ts -> Forall (λ l, line_key l = None) bad ->
       output_file o
       = Some (pretty (Z.of_nat (length (remove_dups (spec_groups <$> ts)))) +:+ newline))
  ∧ (∀ (ts : list text_form) (k : nat),
       (1 <= k)%nat -> lines ≡ₚ mjoin (replicate k (text <$> ts)) ->
       Forall spec_well_formed ts -> NoDup (spec_groups <$> ts) ->
       output_file o = Some (pretty (Z.of_nat (length ts)) +:+ newline)).
Proof.
  intros Hargc Hin Hcan Hhw Hlen Hout Ho.
  assert (Hmain : exit_status o = 0
    ∧ output_file o
      = Some (pretty (Z.of_nat (length (remove_dups (keys_of lines)))) +:+ newline)).
  { destruct Ho as [Hargc'|_ Hin'|lines' f _ Hin' Hopen|lines' d σ _ Hin' Hopen Hrtc Hj].
    - done.
    - congruence.
    - apply openAll_refused in Hopen as (b & Hb & Hno). rewrite Hcan in Hno; done.
    - assert (lines' = lines) as -> by congruence.
      unfold write_result. rewrite Hout. simpl. split; [done|].
      rewrite (reduce_count (nThreads w) d lines σ); eauto using nThreads_range, openAll_inr. }
  destruct Hmain as [Hexit Hfile]. split; [done|]. split; [done|].
  split; [|split; [|split; [|split]]].
  - intros ->. by rewrite Hfile.
  - intros Hrej. by rewrite Hfile, keys_of_all_rejected.
  - intros addrs k Hk Hperm Hvalid Hnd.
    by rewrite Hfile, (distinct_count_repeated addrs lines k).
  - intros ts bad Hperm Hts Hbad.
    by rewrite Hfile, (distinct_count_texts ts bad lines).
  - intros ts k Hk Hperm Hts Hnd.
    rewrite Hfile, (distinct_count_repeated (text <$> ts) lines k), length_fmap;
      [done..| |by apply keys_of_texts_NoDup].
    apply Forall_fmap. eapply Forall_impl; [done|].
    intros t Ht. simpl. rewrite line_key_text by done. by eexists.
Qed.

Lemma C1_witness :
  output_file (main_seq (quiet_world scenario_lines)) = Some ("2" +:+ newline).
Proof.
  assert (Hhw : 0 <= hardware_concurrency (quiet_world scenario_lines) < 2 ^ 32)
    by (simpl; lia).
  assert (Hlen : Z.of_nat (length scenario_lines) < 2 ^ 64) by (simpl; lia).
  pose proof (C1_output_is_distinct_count
                (quiet_world scenario_lines) scenario_lines
                (main_seq (quiet_world scenario_lines))
                eq_refl eq_refl (λ _ _, eq_refl) Hhw Hlen eq_refl
                (main_seq_outcome _ Hhw)) as (_ & H & _).
  rewrite H. vm_compute. reflexivity.
Defined.

(** C1 as stated fails: the only line of this input has nine groups, it is
    no text of an address, and the count written is 1. *)
Lemma C1_counterexample :
  (∀ t, spec_well_formed t -> text t ≠ "1:2:3:4:5:6:7:8:9")
  ∧ main_outcome (quiet_world ["1:2:3:4:5:6:7:8:9"])
                 (main_seq (quiet_world ["1:2:3:4:5:6:7:8:9"]))
  ∧ output_file (main_seq (quiet_world ["1:2:3:4:5:6:7:8:9"])) = Some ("1" +:+ newline).
Proof.
  split; [|split].
  - intros t Ht Heq. apply (f_equal list_ascii_of_string) in Heq.
    unfold text in Heq. rewrite list_ascii_of_string_of_list_ascii in Heq.
    destruct (spec_render_shape t Ht) as [Hm|Hc]; rewrite Heq in *; done.
  - apply main_seq_outcome. simpl. lia.
  - vm_compute. reflexivity.
Qed.

(** C2, at the input where the code departs from it. With eight groups and
    a marker the expansion loop copies every group after the marker onto
    itself and then clears it: the groups after the marker are lost, they
    are not in the last slots. With fewer groups the expansion is the
    manual one, as for [2001:db8::ff00:42:8329]. *)
Theorem C2_marker_with_eight_groups :
  parseIPv6 "1:2:3:4::5:6:7:8" = Some (key_of_groups [1; 2; 3; 4; 0; 0; 0; 0])
  ∧ key_of_groups [1; 2; 3; 4; 0; 0; 0; 0] ≠ key_of_groups [1; 2; 3; 4; 5; 6; 7; 8]
  ∧ parseIPv6 "2001:db8::ff00:42:8329"
    = Some (key_of_groups [0x2001; 0xdb8; 0; 0; 0; 0xff00; 0x42; 0x8329]).
Proof. split; [|split]; vm_compute; congruence. Qed.

(** C3. After the ingest phase the file of partition b holds the keys whose
    top byte is b; the distinct counts of the 256 files add up to the
    distinct count of all keys; the partition index is a function of the
    key with values in 0..255, so no key is in two files. *)
Theorem C3_partition_counts_add_up
    (can : string → bool) (d0 d : gmap string (list uint128_t)) (lines : list string) :
  openAll can d0 = inr d ->
  sumZ (contribution (phase1 d lines) <$> seqZ 0 NUM_BUCKETS)
    = unique_in_bucket (keys_of lines)
  ∧ unique_in_bucket (keys_of lines) = Z.of_nat (length (remove_dups (keys_of lines)))
  ∧ (∀ b, is_bucket b ->
       phase1 d lines !! getBucketFileName b
       = Some (filter (λ k, bucketIdx k = b) (keys_of lines))
       ∧ contribution (phase1 d lines) b
         = Z.of_nat (length (remove_dups (filter (λ k, bucketIdx k = b) (keys_of lines)))))
  ∧ (∀ k, is_bucket (bucketIdx k))
  ∧ (∀ k1 k2, k1 = k2 -> bucketIdx k1 = bucketIdx k2)
  ∧ (∀ b1 b2 ks1 ks2 k,
       is_bucket b1 -> is_bucket b2 ->
       phase1 d lines !! getBucketFileName b1 = Some ks1 ->
       phase1 d lines !! getBucketFileName b2 = Some ks2 ->
       k ∈ ks1 -> k ∈ ks2 -> b1 = b2).
Proof.
  intros Hopen. pose proof (openAll_inr can d0 d Hopen) as Hd.
  split; [|split; [|split; [|split; [|split]]]].
  - rewrite phase1_count by done. by rewrite unique_in_bucket_distinct.
  - apply unique_in_bucket_distinct.
  - intros b Hb. split; [by apply phase1_files|by apply contribution_phase1].
  - intros k. apply bucketIdx_range.
  - by intros k1 k2 ->.
  - intros b1 b2 ks1 ks2 k Hb1 Hb2 Hf1 Hf2 Hk1 Hk2.
    rewrite phase1_files in Hf1, Hf2 by done.
    injection Hf1 as <-. injection Hf2 as <-.
    apply list_elem_of_filter in Hk1 as [<- _]. by apply list_elem_of_filter in Hk2 as [<- _].
Qed.

Lemma C3_witness :
  sumZ (contribution (phase1 fresh_disk ["::1"; "ff00::1"; "::1"; "FF00::2"])
          <$> seqZ 0 NUM_BUCKETS)
  = 3.
Proof.
  pose proof (C3_partition_counts_add_up (λ _, true) ∅ fresh_disk
                ["::1"; "ff00::1"; "::1"; "FF00::2"] fresh_disk_open)
    as (H & _).
  rewrite H. vm_compute. reflexivity.
Defined.

(** C4. The normalizer is a function of the line, and every well-formed
    text of an address gets the key packed from the eight groups the text
    stands for: two texts of the same address get the same key, as [::1] and
    [0:0:0:0:0:0:0:1], or [2001:db8::1] and its full form. *)
Theorem C4_spellings_of_an_address_agree :
  (∀ line k1 k2, parseIPv6 line = Some k1 -> parseIPv6 line = Some k2 -> k1 = k2)
  ∧ (∀ t, spec_well_formed t ->
       parseIPv6_chars (spec_render t) = Some (pack (spec_groups t)))
  ∧ (∀ t1 t2, spec_well_formed t1 -> spec_well_formed t2 ->
       spec_groups t1 = spec_groups t2 ->
       ∃ key, parseIPv6_chars (spec_render t1) = Some key
              ∧ parseIPv6_chars (spec_render t2) = Some key)
  ∧ parseIPv6 "::1" = Some (Uint128 0 1)
  ∧ parseIPv6 "0:0:0:0:0:0:0:1" = parseIPv6 "::1"
  ∧ parseIPv6 "2001:db8::1" = Some (key_of_groups [0x2001; 0xdb8; 0; 0; 0; 0; 0; 1])
  ∧ parseIPv6 "2001:0db8:0000:0000:0000:0000:0000:0001" = parseIPv6 "2001:db8::1".
Proof.
  split; [|split; [|split]].
  - intros line k1 k2 H1 H2. congruence.
  - apply parse_well_formed.
  - intros t1 t2 H1 H2 Heq. exists (pack (spec_groups t1)).
    split; [by apply parse_well_formed|]. rewrite Heq. by apply parse_well_formed.
  - repeat split; vm_compute; reflexivity.
Qed.

Lemma C4_witness :
  ∃ key,
    parseIPv6 "2001:db8::1" = Some key
    ∧ parseIPv6 "2001:0DB8:0:0:0:0:0:1" = Some key.
Proof.
  pose proof C4_spellings_of_an_address_agree as (_ & _ & H & _).
  destruct (H (Compressed [list_ascii_of_string "2001"; list_ascii_of_string "db8"]
                          [list_ascii_of_string "1"])
              (Full (list_ascii_of_string <$>
                       ["2001"; "0DB8"; "0"; "0"; "0"; "0"; "0"; "1"])))
    as (key & H1 & H2).
  - check_groups.
  - check_groups.
  - vm_compute. reflexivity.
  - exists key. split; [exact H1|exact H2].
Defined.

(** C5. A group of any number of hexadecimal digits is read by shifting
    the accumulator left by four bits per digit, and what is stored is the
    number the digits denote modulo 2^16: a line with a group of more than
    four digits is accepted, with the low 16 bits of that group, and every
    accepted key is packed from eight values between 0 and 0xFFFF. *)
Theorem C5_group_values_wrap :
  (∀ g rest st,
     is_group g = true -> starts_hex rest = false ->
     read_hex (g ++ rest) 0 false = (acc32 0 g, true, rest)
     ∧ loop_body (g ++ rest) st = loop_body rest (store_part st (acc32 0 g))
     ∧ parts (store_part st (acc32 0 g))
       = <[Z.to_nat (current_part st) := hex_value g mod 2 ^ 16]> (parts st))
  ∧ (∀ ws gs t,
       forallb isspace ws = true -> Forall (λ g, is_group g = true) gs ->
       length gs = 8%nat -> ends t = true ->
       parseIPv6_chars (ws ++ join gs ++ t)
       = Some (pack (map (λ g, hex_value g mod 2 ^ 16) gs)))
  ∧ (∀ line key,
       parseIPv6_chars line = Some key ->
       ∃ p, length p = 8%nat ∧ Forall (λ x, 0 <= x <= 0xFFFF) p ∧ key = pack p)
  ∧ parseIPv6 "12345:0:0:0:0:0:0:1"
    = Some (key_of_groups [0x2345; 0; 0; 0; 0; 0; 0; 1]).
Proof.
  split; [|split; [|split]].
  - intros g rest st Hg Hrest.
    pose proof (is_group_inv g Hg) as [Hne Hhex].
    split; [|split].
    + rewrite read_hex_digits by done.
      by rewrite bool_decide_eq_false_2.
    + rewrite loop_body_digits by done.
      unfold opt_store. by rewrite bool_decide_eq_false_2.
    + simpl. by rewrite wrap16_acc32.
  - intros ws gs t Hws Hgs Hlen Ht. by apply parse_full_form.
  - intros line key Hparse.
    destruct (parseIPv6_chars_groups line key Hparse) as (p & Hlen & Hp & ->).
    exists p. split; [done|]. split; [|done].
    eapply Forall_impl; [done|]. unfold group_ok. simpl. lia.
  - vm_compute. reflexivity.
Qed.

Lemma C5_witness :
  parseIPv6 "fffff:0:0:0:0:0:0:1abcd"
  = Some (key_of_groups [0xffff; 0; 0; 0; 0; 0; 0; 0xabcd]).
Proof.
  pose proof C5_group_values_wrap as (_ & H & _).
  assert (Hgs : Forall (λ g, is_group g = true)
                  (list_ascii_of_string <$>
                     ["fffff"; "0"; "0"; "0"; "0"; "0"; "0"; "1abcd"]))
    by check_groups.
  specialize (H [] _ [] eq_refl Hgs eq_refl eq_refl).
  vm_compute in H. vm_compute. exact H.
Defined.

(** C6, as amended. A second marker is rejected where the scan arrives at
    it: in a line [A::B::rest], after optional leading white space, where
    [A] and [B] are lists (possibly empty) of groups separated by single
    colons, [A] has at most seven groups and [A] and [B] together at most
    eight. What follows white space is not read: the line is parsed as if
    it ended there. *)
Theorem C6_second_marker_rejected :
  (∀ (ws : list ascii) (a b : list (list ascii)) (rest : list ascii),
     forallb isspace ws = true ->
     Forall (λ g, is_group g = true) a -> Forall (λ g, is_group g = true) b ->
     (length a <= 7)%nat -> (length a + length b <= 8)%nat ->
     parseIPv6_chars
       (ws ++ join a ++ ":"%char :: ":"%char :: join b ++ ":"%char :: ":"%char :: rest)
     = None)
  ∧ (∀ (ws s : list ascii) (sp : ascii) (rest : list ascii),
       forallb isspace ws = true -> s ≠ [] ->
       Forall (λ c, isspace c = false) s -> isspace sp = true ->
       parseIPv6_chars (ws ++ s ++ sp :: rest) = parseIPv6_chars (ws ++ s)).
Proof. split; [apply parse_second_marker|apply parse_space]. Qed.

Lemma C6_witness : parseIPv6 " 1:2::3:4::5" = None.
Proof.
  assert (Ha : Forall (λ g, is_group g = true) (list_ascii_of_string <$> ["1"; "2"]))
    by check_groups.
  assert (Hb : Forall (λ g, is_group g = true) (list_ascii_of_string <$> ["3"; "4"]))
    by check_groups.
  exact (proj1 C6_second_marker_rejected
           (list_ascii_of_string " ") _ _ (list_ascii_of_string "5")
           eq_refl Ha Hb ltac:(simpl; lia) ltac:(simpl; lia)).
Defined.

(** C6 as stated fails: a second marker behind white space, or behind the
    colon that follows the eighth group, is not read, and the line is
    accepted. *)
Lemma C6_counterexample :
  (count_markers (list_ascii_of_string "::1 ::2") = 2%nat
   ∧ parseIPv6 "::1 ::2" = Some (Uint128 0 1))
  ∧ (count_markers (list_ascii_of_string "1:2:3:4:5:6:7:8::9::") = 2%nat
     ∧ parseIPv6 "1:2:3:4:5:6:7:8::9::"
       = Some (key_of_groups [1; 2; 3; 4; 5; 6; 7; 8])).
Proof. repeat split; vm_compute; reflexivity. Qed.

(** C7. The exit status is 1, and nothing is written to the output file,
    when the input file cannot be opened or one of the 256 temporary files
    cannot be created; when the run gets past these, the exit status is 0
    whether or not the output file can be written, and a failure to write it
    leaves a message on the diagnostic stream only. *)
Theorem C7_exit_status (w : world) (o : outcome) :
  main_outcome w o ->
  (input_file w = None -> exit_status o = 1 ∧ output_file o = None)
  ∧ ((∃ b, is_bucket b ∧ can_create w (getBucketFileName b) = false) ->
     exit_status o = 1 ∧ output_file o = None)
  ∧ (argc w = 3 -> is_Some (input_file w) ->
     (∀ b, is_bucket b -> can_create w (getBucketFileName b) = true) ->
     exit_status o = 0
     ∧ (output_writable w = false ->
        output_file o = None ∧ cerr o = ["Error: Could not write output file."])).
Proof.
  intros Ho.
  destruct Ho as [Hargc|Hargc Hin|lines f Hargc Hin Hopen|lines d σ Hargc Hin Hopen Hrtc Hj].
  - split; [done|]. split; [done|]. intros Hargc'. done.
  - split; [done|]. split; [done|]. intros _ [x Hx]. congruence.
  - split; [done|]. split; [done|]. intros _ _ Hcan.
    apply openAll_refused in Hopen as (b & Hb & Hno). rewrite Hcan in Hno; done.
  - split; [congruence|]. split.
    + intros (b & Hb & Hno). rewrite (openAll_created w d Hopen b Hb) in Hno. done.
    + intros _ _ _. unfold write_result.
      destruct (output_writable w); simpl; split; done.
Qed.

Lemma C7_witness :
  exit_status
    (main_seq {| argc := 3; argv0 := "count"; input_file := Some ["::1"];
                 can_create := λ _, true; disk0 := ∅;
                 hardware_concurrency := 0; output_writable := false |}) = 0.
Proof.
  set (w := {| argc := 3; argv0 := "count"; input_file := Some ["::1"];
               can_create := λ _, true; disk0 := ∅;
               hardware_concurrency := 0; output_writable := false |}).
  assert (Hhw : 0 <= hardware_concurrency w < 2 ^ 32) by (simpl; lia).
  apply (C7_exit_status w (main_seq w) (main_seq_outcome w Hhw)).
  - reflexivity.
  - by eexists.
  - reflexivity.
Defined.

(** C8. [processBucket] on a partition whose file is empty adds nothing to
    the count and removes the file without reading it, and the file of a
    partition no key was routed to is empty; on a partition whose file
    cannot be opened it adds nothing, leaves the files as they are and
    returns; and whatever files are missing, the workers all come to their
    end. *)
Theorem C8_empty_or_missing_partition (b : Z) (σ : shared) :
  (sfiles σ !! getBucketFileName b = Some [] ->
     total_unique_count (processBucket b σ) = total_unique_count σ
     ∧ sfiles (processBucket b σ) = delete (getBucketFileName b) (sfiles σ)
     ∧ ops (processBucket b σ)
       = ops σ ++ [OpOpen (getBucketFileName b) true; OpRemove (getBucketFileName b)])
  ∧ (∀ can d0 d lines,
       openAll can d0 = inr d -> is_bucket b ->
       (∀ k, k ∈ keys_of lines -> bucketIdx k ≠ b) ->
       phase1 d lines !! getBucketFileName b = Some [])
  ∧ (sfiles σ !! getBucketFileName b = None ->
       total_unique_count (processBucket b σ) = total_unique_count σ
       ∧ sfiles (processBucket b σ) = sfiles σ
       ∧ ops (processBucket b σ) = ops σ ++ [OpOpen (getBucketFileName b) false])
  ∧ (∀ (n : nat) d, (1 <= n)%nat -> Z.of_nat n < 2 ^ 32 ->
       ∃ σ', rtc step (reduce_init (Z.of_nat n) d) σ' ∧ joined σ').
Proof.
  split; [|split; [|split]].
  - intros Hf. unfold processBucket. rewrite Hf. simpl. done.
  - intros can d0 d lines Hopen Hb Hnone.
    rewrite phase1_files by eauto using openAll_inr. f_equal.
    apply elem_of_nil_inv. intros k [Hk Hin]%list_elem_of_filter. by eapply Hnone.
  - intros Hf. unfold processBucket. rewrite Hf. simpl. done.
  - intros n d Hn Hlt. apply (reduce_terminates n d); [done|apply reduce_init_inv].
Qed.

Lemma C8_witness :
  total_unique_count (processBucket 7 (Shared {[getBucketFileName 7 := []]} 5 [])) = 5
  ∧ total_unique_count (processBucket 7 (Shared ∅ 5 [])) = 5.
Proof.
  pose proof (C8_empty_or_missing_partition 7 (Shared {[getBucketFileName 7 := []]} 5 []))
    as (H1 & _).
  pose proof (C8_empty_or_missing_partition 7 (Shared ∅ 5 [])) as (_ & _ & H2 & _).
  split.
  - apply H1. vm_compute. reflexivity.
  - apply H2. vm_compute. reflexivity.
Defined.

(** C9. A line of nine or more groups separated by single colons, with no
    marker, is accepted, and its key is the key of the first eight groups:
    the high half is the number made of the first four groups, 16 bits
    each, most significant first, the low half the number made of the next
    four. What follows the eighth group and its colon is not read, whatever
    it is. *)
Theorem C9_more_than_eight_groups_accepted :
  (∀ gs : list (list ascii),
     Forall (λ g, is_group g = true) gs -> (9 <= length gs)%nat ->
     parseIPv6_chars (join gs) = Some (pack (map group_value (take 8 gs))))
  ∧ (∀ (gs : list (list ascii)) (rest : list ascii),
       Forall (λ g, is_group g = true) gs -> length gs = 8%nat ->
       parseIPv6_chars (join gs ++ ":"%char :: rest)
       = Some (pack (map group_value gs)))
  ∧ (∀ (g0 g1 g2 g3 g4 g5 g6 g7 : list ascii) (more : list (list ascii)),
       Forall (λ g, is_group g = true) [g0; g1; g2; g3; g4; g5; g6; g7] ->
       Forall (λ g, is_group g = true) more -> more ≠ [] ->
       parseIPv6_chars (join ([g0; g1; g2; g3; g4; g5; g6; g7] ++ more))
       = Some {| hi := group_value g0 * 2 ^ 48 + group_value g1 * 2 ^ 32
                       + group_value g2 * 2 ^ 16 + group_value g3;
                 lo := group_value g4 * 2 ^ 48 + group_value g5 * 2 ^ 32
                       + group_value g6 * 2 ^ 16 + group_value g7 |})
  ∧ (∀ (g0 g1 g2 g3 g4 g5 g6 g7 : list ascii) (rest : list ascii),
       Forall (λ g, is_group g = true) [g0; g1; g2; g3; g4; g5; g6; g7] ->
       parseIPv6_chars (join [g0; g1; g2; g3; g4; g5; g6; g7] ++ ":"%char :: rest)
       = Some {| hi := group_value g0 * 2 ^ 48 + group_value g1 * 2 ^ 32
                       + group_value g2 * 2 ^ 16 + group_value g3;
                 lo := group_value g4 * 2 ^ 48 + group_value g5 * 2 ^ 32
                       + group_value g6 * 2 ^ 16 + group_value g7 |})
  ∧ (∀ g : list ascii,
       group_value g = hex_value g mod 2 ^ 16
       ∧ (is_field g = true -> group_value g = hex_value g)).
Proof.
  assert (Hlong : ∀ gs : list (list ascii),
            Forall (λ g, is_group g = true) gs -> (9 <= length gs)%nat ->
            parseIPv6_chars (join gs) = Some (pack (map group_value (take 8 gs)))).
  { intros gs Hgs Hlen.
    rewrite <- (take_drop 8 gs) in Hgs |- * at 1.
    destruct (drop 8 gs) as [|g more] eqn:Hdrop.
    { apply (f_equal length) in Hdrop. rewrite length_drop in Hdrop. simpl in Hdrop. lia. }
    apply (parse_overlong_form [] (take 8 gs) g more); [done|done|].
    rewrite length_take. lia. }
  split; [done|]. split; [apply parse_after_eight_groups|]. split; [|split].
  - intros g0 g1 g2 g3 g4 g5 g6 g7 more Hgs Hmore Hne.
    rewrite Hlong.
    + change (take 8 ([g0; g1; g2; g3; g4; g5; g6; g7] ++ more))
        with [g0; g1; g2; g3; g4; g5; g6; g7].
      by rewrite pack_group_values.
    + by apply Forall_app.
    + rewrite length_app. destruct more; [done|]. simpl. lia.
  - intros g0 g1 g2 g3 g4 g5 g6 g7 rest Hgs.
    rewrite parse_after_eight_groups by done. by rewrite pack_group_values.
  - intros g. split; [done|]. apply group_value_field.
Qed.

Lemma C9_witness :
  parseIPv6 "1:2:3:4:5:6:7:8:9"
  = Some (Uint128 0x0001000200030004 0x0005000600070008).
Proof.
  assert (Hgs : Forall (λ g, is_group g = true)
                  (list_ascii_of_string <$> ["1"; "2"; "3"; "4"; "5"; "6"; "7"; "8"]))
    by check_groups.
  assert (Hmore : Forall (λ g, is_group g = true) (list_ascii_of_string <$> ["9"]))
    by check_groups.
  pose proof (proj1 (proj2 (proj2 C9_more_than_eight_groups_accepted))
                _ _ _ _ _ _ _ _ _ Hgs Hmore ltac:(done)) as H.
  vm_compute in H. vm_compute. exact H.
Defined.

(** C10. In every state the workers can reach, under every interleaving:
    the values handed out by [fetch_add] are 0, 1, 2, ... in order, so no
    value is handed out twice; no partition has been passed to
    [processBucket] twice, and each one passed was fetched before; once all
    workers have been joined, every partition 0..255 has been passed to
    [processBucket] exactly once, by the single worker that fetched its
    index. The workers cannot get stuck, and every run is over after
    512 + n actions. *)
Theorem C10_each_partition_claimed_once
    (n : nat) (d : gmap string (list uint128_t)) (σ : reduce_state) :
  (1 <= n)%nat -> Z.of_nat n < 2 ^ 32 ->
  rtc step (reduce_init (Z.of_nat n) d) σ ->
  (snd <$> claims σ) = seqZ 0 (currentBucket σ)
  ∧ (∀ i j b, (i, b) ∈ claims σ -> (j, b) ∈ claims σ -> i = j)
  ∧ NoDup (calls σ)
  ∧ (∀ b, b ∈ calls σ -> is_bucket b ∧ ∃ i, (i, b) ∈ claims σ)
  ∧ (joined σ ->
     calls σ ≡ₚ seqZ 0 NUM_BUCKETS
     ∧ ∀ b, is_bucket b -> b ∈ calls σ ∧ ∃ i, (i, b) ∈ claims σ)
  ∧ (¬ joined σ -> ∃ σ', step σ σ')
  ∧ (∃ σ', rtc step σ σ' ∧ joined σ')
  ∧ (∀ k, nsteps step k (reduce_init (Z.of_nat n) d) σ ->
          Z.of_nat k = 512 + Z.of_nat n - remaining σ
          ∧ (joined σ -> Z.of_nat k = 512 + Z.of_nat n)).
Proof.
  intros Hn Hlt Hrtc.
  pose proof (rtc_step_inv n d σ Hlt Hrtc) as Hinv.
  pose proof Hinv as [Hw Hc Hf Hcl Hwork Hsh].
  assert (Hclaimed : ∀ b, 0 <= b < currentBucket σ -> ∃ i, (i, b) ∈ claims σ).
  { intros b Hb.
    assert (b ∈ snd <$> claims σ) as Hin by (rewrite Hcl, elem_of_seqZ; lia).
    apply list_elem_of_fmap in Hin as ([i b'] & -> & Hin). by exists i. }
  assert (Hcalls : ∀ b, b ∈ calls σ -> 0 <= b < Z.min (currentBucket σ) NUM_BUCKETS).
  { intros b Hb.
    assert (b ∈ seqZ 0 (Z.min (currentBucket σ) NUM_BUCKETS)) as Hin.
    { rewrite <- Hwork. apply elem_of_app. by left. }
    apply elem_of_seqZ in Hin. lia. }
  split; [done|]. split; [|split; [|split; [|split; [|split; [|split]]]]].
  - intros i j b Hi Hj.
    assert ((i, b) = (j, b)) as [= ->]; [|done].
    eapply (NoDup_fmap_inj snd); [|done|done|done].
    rewrite Hcl. apply NoDup_seqZ.
  - assert (NoDup (calls σ ++ claimed_of (workers σ))) as Hnd.
    { rewrite Hwork. apply NoDup_seqZ. }
    by apply NoDup_app in Hnd as [? _].
  - intros b Hb. apply Hcalls in Hb. split; [bucket_lia|]. apply Hclaimed. lia.
  - intros Hj. pose proof (joined_calls n d σ Hn Hinv Hj) as Hperm.
    split; [done|]. intros b Hb.
    assert (b ∈ calls σ) as Hin by (by rewrite Hperm, is_bucket_seqZ).
    split; [done|]. apply Hcalls in Hin. apply Hclaimed. lia.
  - apply step_progress.
  - by apply (reduce_terminates n d).
  - intros k Hk.
    destruct (nsteps_remaining n d k _ σ Hlt (reduce_init_inv n d) Hk) as [_ Hrem].
    rewrite remaining_init in Hrem. split; [lia|].
    intros Hj. rewrite (joined_remaining n d σ Hn Hinv Hj) in Hrem. lia.
Qed.

Lemma C10_witness :
  ∃ σ', rtc step (reduce_init 2 ∅) σ' ∧ joined σ'.
Proof.
  pose proof (C10_each_partition_claimed_once 2 ∅ (reduce_init 2 ∅)
                ltac:(lia) ltac:(simpl; lia) (rtc_refl _ _)) as H.
  apply H.
Defined.

(** * Further properties of the code *)

Lemma span_no_space s :
  ∃ tok rest, s = tok ++ rest ∧ Forall (λ c, isspace c = false) tok ∧ ends rest = true.
Proof.
  induction s as [|c s (tok & rest & -> & Htok & Hrest)].
  - by exists [], [].
  - destruct (isspace c) eqn:Hc.
    + exists [], (c :: tok ++ rest). done.
    + exists (c :: tok), rest. split; [done|]. split; [by apply Forall_cons|done].
Qed.

Lemma span_space s :
  ∃ ws s', s = ws ++ s' ∧ forallb isspace ws = true ∧ (s' = [] ∨ ends s' = false).
Proof.
  induction s as [|c s (ws & s' & -> & Hws & Hs')].
  - exists [], []. auto.
  - destruct (isspace c) eqn:Hc.
    + exists (c :: ws), s'. simpl. rewrite Hc, Hws. auto.
    + exists [], (c :: ws ++ s'). simpl. rewrite Hc. auto.
Qed.

Lemma skip_spaces_all ws : forallb isspace ws = true -> skip_spaces ws = [].
Proof.
  induction ws as [|c ws IH]; simpl; [done|].
  intros [-> Hws]%andb_true_iff. auto.
Qed.

Lemma parse_trailing_space s sp :
  isspace sp = true -> parseIPv6_chars (s ++ [sp]) = parseIPv6_chars s.
Proof.
  intros Hsp. destruct (span_space s) as (ws & s' & -> & Hws & [->|Hs']).
  - rewrite app_nil_r. unfold parseIPv6_chars.
    rewrite !skip_spaces_all; [done|done|].
    rewrite forallb_app, Hws. simpl. by rewrite Hsp.
  - destruct (span_no_space s') as (tok & rest & -> & Htok & Hrest).
    assert (tok ≠ []) as Hne.
    { intros ->. simpl in Hs'. congruence. }
    rewrite <- !app_assoc. destruct rest as [|sp' rest].
    + simpl. rewrite app_nil_r. by apply parse_space.
    + simpl in Hrest. simpl.
      rewrite (parse_space ws tok sp' (rest ++ [sp])) by done.
      by rewrite (parse_space ws tok sp' rest) by done.
Qed.

Lemma list_ascii_of_string_app s1 s2 :
  list_ascii_of_string (s1 +:+ s2) = list_ascii_of_string s1 ++ list_ascii_of_string s2.
Proof. induction s1 as [|c s1 IH]; simpl; [done|]. by rewrite IH. Qed.

Lemma isspace_CR : isspace CR = true.
Proof. done. Qed.

Lemma line_key_parse line :
  line_key line = parseIPv6_chars (list_ascii_of_string line).
Proof.
  unfold line_key. destruct (list_ascii_of_string line) as [|c cs] eqn:Hl; [done|].
  unfold pop_cr. destruct (last (c :: cs)) as [c'|] eqn:Hlast; [|done].
  destruct (Z.eqb_spec (code c') (code CR)) as [Heq|]; [|done].
  apply last_Some in Hlast as [l' Hl'']. rewrite Hl''.
  rewrite removelast_last. symmetry. apply parse_trailing_space.
  unfold isspace. rewrite Heq. done.
Qed.

(** X1. A marker with at most seven groups in all: the groups before the
    marker keep their slots, the groups after it stand in the last slots,
    zeros in between; and the eight groups are packed big-endian, four to a
    half. *)
Theorem marker_expansion_up_to_seven_groups :
  (∀ (ws : list ascii) (a b : list (list ascii)) (t : list ascii),
     forallb isspace ws = true ->
     Forall (λ g, is_group g = true) a -> Forall (λ g, is_group g = true) b ->
     (length a + length b <= 7)%nat -> ends t = true ->
     parseIPv6_chars (ws ++ join a ++ ":"%char :: ":"%char :: join b ++ t)
     = Some (pack (map group_value a
                   ++ replicate (8 - length a - length b) 0 ++ map group_value b)))
  ∧ (∀ g0 g1 g2 g3 g4 g5 g6 g7,
       Forall group_ok [g0; g1; g2; g3; g4; g5; g6; g7] ->
       pack [g0; g1; g2; g3; g4; g5; g6; g7]
       = {| hi := g0 * 2 ^ 48 + g1 * 2 ^ 32 + g2 * 2 ^ 16 + g3;
            lo := g4 * 2 ^ 48 + g5 * 2 ^ 32 + g6 * 2 ^ 16 + g7 |}).
Proof.
  split; [apply parse_compressed_form|].
  intros g0 g1 g2 g3 g4 g5 g6 g7 Hok.
  repeat match goal with H : Forall _ (_ :: _) |- _ => apply Forall_cons in H as [? H] end.
  unfold pack. simpl. by rewrite !pack4_value.
Qed.

Lemma marker_expansion_witness :
  parseIPv6 "fe80::1  " = Some (key_of_groups [0xfe80; 0; 0; 0; 0; 0; 0; 1]).
Proof.
  assert (Ha : Forall (λ g, is_group g = true) (list_ascii_of_string <$> ["fe80"]))
    by check_groups.
  assert (Hb : Forall (λ g, is_group g = true) (list_ascii_of_string <$> ["1"]))
    by check_groups.
  pose proof (proj1 marker_expansion_up_to_seven_groups [] _ _ (list_ascii_of_string "  ")
                eq_refl Ha Hb ltac:(simpl; lia) eq_refl) as H.
  vm_compute in H. vm_compute. exact H.
Defined.

(** X2. Lines the normalizer rejects: an empty line or a line of white
    space; fewer than eight groups and no marker; a single colon at the
    start; a first character that is neither a hexadecimal digit, nor a
    colon, nor white space. *)
Theorem rejected_lines :
  (∀ ws, forallb isspace ws = true -> parseIPv6_chars ws = None)
  ∧ (∀ ws (gs : list (list ascii)) t,
       forallb isspace ws = true -> Forall (λ g, is_group g = true) gs ->
       (1 <= length gs < 8)%nat -> ends t = true ->
       parseIPv6_chars (ws ++ join gs ++ t) = None)
  ∧ (∀ ws s,
       forallb isspace ws = true -> starts_colon s = false ->
       parseIPv6_chars (ws ++ ":"%char :: s) = None)
  ∧ (∀ ws c s,
       forallb isspace ws = true ->
       is_hex c = false -> is_colon c = false -> isspace c = false ->
       parseIPv6_chars (ws ++ c :: s) = None).
Proof.
  split; [|split; [|split]].
  - intros ws Hws. unfold parseIPv6_chars. by rewrite skip_spaces_all.
  - intros ws gs t Hws Hgs Hlen Ht.
    assert (Hne : gs ≠ []) by (destruct gs; simpl in *; [lia|done]).
    rewrite parseIPv6_chars_hex by auto using starts_hex_join'.
    rewrite main_loop_join_ends by (done || simpl; lia).
    rewrite stores_parts0 by (done || lia).
    unfold finish, expand. simpl.
    destruct (Z.eqb_spec (Z.of_nat (length gs)) 8); [lia|done].
  - intros ws s Hws Hs. unfold parseIPv6_chars.
    rewrite skip_spaces_app by done. simpl.
    destruct s as [|c s]; [done|]. simpl in Hs. by rewrite Hs.
  - intros ws c s Hws Hhex Hcolon Hspace. unfold parseIPv6_chars.
    rewrite skip_spaces_app by (simpl; done). rewrite Hcolon.
    rewrite main_loop_eq. simpl (current_part _ <? 8).
    rewrite loop_body_no_digits by done. by rewrite Hspace, Hcolon.
Qed.

Lemma rejected_lines_witness : parseIPv6 "1:2:3:4:5:6:7" = None.
Proof.
  assert (Hgs : Forall (λ g, is_group g = true)
                  (list_ascii_of_string <$> ["1"; "2"; "3"; "4"; "5"; "6"; "7"]))
    by check_groups.
  pose proof rejected_lines as (_ & H & _).
  pose proof (H [] _ [] eq_refl Hgs ltac:(simpl; lia) eq_refl) as H'.
  exact H'.
Defined.

(** X3. A carriage return at the end of a line changes nothing: the line
    contributes the same key, or none, with it as without it. *)
Theorem trailing_carriage_return (line : string) :
  line_key (line +:+ String CR EmptyString) = line_key line.
Proof.
  rewrite !line_key_parse, list_ascii_of_string_app. simpl.
  apply parse_trailing_space, isspace_CR.
Qed.

(** X4. The outcome of [main] does not depend on the interleaving of the
    workers: [main] has an outcome in every world, and every outcome is the
    one of the schedule in which a single worker does everything. *)
Theorem outcome_independent_of_interleaving (w : world) :
  0 <= hardware_concurrency w < 2 ^ 32 ->
  main_outcome w (main_seq w) ∧ ∀ o, main_outcome w o -> o = main_seq w.
Proof.
  intros Hhw. split; [by apply main_seq_outcome|].
  intros o. by apply main_outcome_seq.
Qed.

Lemma outcome_independent_of_interleaving_witness :
  main_outcome (quiet_world scenario_lines) (main_seq (quiet_world scenario_lines)).
Proof.
  assert (Hhw : 0 <= hardware_concurrency (quiet_world scenario_lines) < 2 ^ 32)
    by (simpl; lia).
  exact (proj1 (outcome_independent_of_interleaving _ Hhw)).
Defined.

(** X5. The count of the reducer depends on the set of keys only: it is
    the same for any two arrangements of the same keys, and counting the
    keys that [std::unique] kept gives the same count again. *)
Theorem reducer_count_stable :
  (∀ l l', l ≡ₚ l' -> unique_in_bucket l = unique_in_bucket l')
  ∧ (∀ l, unique_in_bucket (unique (sort128 l)) = unique_in_bucket l)
  ∧ (∀ l, unique (unique (sort128 l)) = unique (sort128 l)).
Proof.
  assert (Hperm : ∀ l l', l ≡ₚ l' -> unique_in_bucket l = unique_in_bucket l').
  { intros l l' Hp. rewrite !unique_in_bucket_distinct. f_equal.
    apply Permutation_length, NoDup_Permutation; [apply NoDup_remove_dups..|].
    intros x. by rewrite !elem_of_remove_dups, Hp. }
  assert (Hfix : ∀ l, NoDup l -> unique l = l).
  { intros [|x l] Hnd; [done|]. simpl. f_equal.
    revert x Hnd. induction l as [|y l IH]; intros x Hnd; [done|].
    apply NoDup_cons in Hnd as [Hx Hnd]. simpl.
    destruct (eq128 x y) eqn:He.
    - apply eq128_spec in He as ->. exfalso. apply Hx. by left.
    - f_equal. by apply IH. }
  split; [done|]. split.
  - intros l. rewrite !unique_in_bucket_distinct. f_equal.
    apply Permutation_length, NoDup_Permutation; [apply NoDup_remove_dups..|].
    intros x. rewrite !elem_of_remove_dups.
    destruct (unique_sorted_spec (sort128 l) (sort128_sorted l)) as [_ Hel].
    by rewrite Hel, sort128_perm.
  - intros l. apply Hfix.
    by destruct (unique_sorted_spec (sort128 l) (sort128_sorted l)).
Qed.

Lemma reducer_count_stable_witness :
  unique_in_bucket [Uint128 0 1; Uint128 0 2; Uint128 0 1]
  = unique_in_bucket [Uint128 0 1; Uint128 0 1; Uint128 0 2].
Proof.
  apply (proj1 reducer_count_stable).
  apply perm_skip, perm_swap.
Defined.

(** ** The digits *)

Lemma ascii_cases (P : ascii → Prop) :
  (∀ b0 b1 b2 b3 b4 b5 b6 b7, P (Ascii b0 b1 b2 b3 b4 b5 b6 b7)) -> ∀ c, P c.
Proof. intros H [b0 b1 b2 b3 b4 b5 b6 b7]. apply H. Qed.

Lemma hex_digit_decode (n : nat) (c : ascii) :
  hex_digits_lower !! n = Some c ∨ hex_digits_upper !! n = Some c ->
  hexDigitToInt c = Z.of_nat n.
Proof.
  unfold hex_digits_lower, hex_digits_upper. cbn [list_ascii_of_string].
  do 16 (destruct n as [|n]; [intros [H|H]; cbn in H; injection H as <-; vm_compute; reflexivity|]).
  intros [H|H]; cbn in H; discriminate H.
Qed.
Lemma hex_digit_encode (c : ascii) :
  hexDigitToInt c ≠ -1 ->
  hex_digits_lower !! Z.to_nat (hexDigitToInt c) = Some c
  ∨ hex_digits_upper !! Z.to_nat (hexDigitToInt c) = Some c.
Proof.
  destruct c as [[] [] [] [] [] [] [] []]; vm_compute;
    first [left; reflexivity | right; reflexivity | intros H; exfalso; apply H; reflexivity].
Qed.
(** X6. [hexDigitToInt] decodes the sixteen digits in either case, and
    returns -1 for every other character. *)
Theorem hexDigitToInt_decodes_digits :
  (∀ (n : nat) (c : ascii),
     hex_digits_lower !! n = Some c ∨ hex_digits_upper !! n = Some c ->
     hexDigitToInt c = Z.of_nat n)
  ∧ (∀ c, hexDigitToInt c ≠ -1 ->
       0 <= hexDigitToInt c < 16
       ∧ (hex_digits_lower !! Z.to_nat (hexDigitToInt c) = Some c
          ∨ hex_digits_upper !! Z.to_nat (hexDigitToInt c) = Some c))
  ∧ (∀ c, hexDigitToInt c = -1 ↔ c ∉ hex_digits_lower ++ hex_digits_upper).
Proof.
  split; [apply hex_digit_decode|]. split.
  - intros c Hc. split; [|by apply hex_digit_encode].
    destruct (hexDigitToInt_range c); [done|lia].
  - intros c. split.
    + intros Hc Hin. apply elem_of_app in Hin as [Hin|Hin];
        apply list_elem_of_lookup in Hin as [n Hn].
      * rewrite (hex_digit_decode n c) in Hc by auto. lia.
      * rewrite (hex_digit_decode n c) in Hc by auto. lia.
    + intros Hnot. destruct (Z.eq_dec (hexDigitToInt c) (-1)) as [|Hne]; [done|].
      exfalso. apply Hnot, elem_of_app.
      destruct (hex_digit_encode c Hne) as [H|H]; [left|right];
        by eapply list_elem_of_lookup_2.
Qed.

Lemma hexDigitToInt_decodes_digits_witness :
  hexDigitToInt "c" = 12 ∧ hexDigitToInt "C" = 12.
Proof.
  split.
  - apply (proj1 hexDigitToInt_decodes_digits 12%nat). left. reflexivity.
  - apply (proj1 hexDigitToInt_decodes_digits 12%nat). right. reflexivity.
Defined.

(** ** A change of characters that keeps digits, colons and white space *)

Section char_map.
Variable f : ascii → ascii.
Hypothesis f_hex : ∀ c, hexDigitToInt (f c) = hexDigitToInt c.
Hypothesis f_space : ∀ c, isspace (f c) = isspace c.
Hypothesis f_colon : ∀ c, is_colon (f c) = is_colon c.

Lemma skip_spaces_map s : skip_spaces (f <$> s) = f <$> skip_spaces s.
Proof.
  induction s as [|c s IH]; [done|].
  rewrite fmap_cons. simpl. rewrite f_space. by destruct (isspace c).
Qed.

Lemma read_hex_map s v h :
  read_hex (f <$> s) v h
  = ((read_hex s v h).1.1, (read_hex s v h).1.2, f <$> (read_hex s v h).2).
Proof.
  revert v h. induction s as [|c s IH]; intros v h; [done|].
  rewrite fmap_cons. simpl. rewrite f_hex.
  destruct (hexDigitToInt c =? -1); [done|]. apply IH.
Qed.

Lemma loop_body_map s st : loop_body (f <$> s) st = map_iter f (loop_body s st).
Proof.
  unfold loop_body. rewrite read_hex_map.
  destruct (read_hex s 0 false) as [[val h] s1]. simpl.
  destruct s1 as [|c s2]; [done|]. rewrite fmap_cons, f_space, f_colon.
  destruct (isspace c); [done|]. destruct (is_colon c); [|done].
  destruct s2 as [|c2 s3]; [done|]. rewrite fmap_cons, f_colon.
  destruct (is_colon c2); [|done]. by destruct (negb _).
Qed.

Lemma main_loop_map s st : main_loop (f <$> s) st = main_loop s st.
Proof.
  remember (length s) as n eqn:Hn. revert s st Hn.
  induction (lt_wf n) as [n _ IH]. intros s st ->.
  rewrite (main_loop_eq s), (main_loop_eq (f <$> s)).
  destruct s as [|c s]; [done|]. rewrite fmap_cons.
  destruct (current_part st <? 8); [|done].
  rewrite <- fmap_cons, loop_body_map.
  destruct (loop_body (c :: s) st) as [s' st'| |] eqn:Hbody; [|done..].
  simpl. eapply IH; [|done]. by eapply loop_body_Continue_length.
Qed.

Lemma parseIPv6_chars_map s : parseIPv6_chars (f <$> s) = parseIPv6_chars s.
Proof.
  unfold parseIPv6_chars. rewrite skip_spaces_map.
  destruct (skip_spaces s) as [|c s1]; [done|]. rewrite fmap_cons, f_colon.
  destruct (is_colon c).
  - destruct s1 as [|c1 s2]; [done|]. rewrite fmap_cons, f_colon.
    destruct (is_colon c1); [|done].
    destruct s2 as [|c2 s3]; [done|]. rewrite fmap_cons, f_space.
    destruct (isspace c2); [done|]. by rewrite <- fmap_cons, main_loop_map.
  - by rewrite <- fmap_cons, main_loop_map.
Qed.
End char_map.

Lemma to_lower_keeps c :
  hexDigitToInt (to_lower c) = hexDigitToInt c
  ∧ isspace (to_lower c) = isspace c ∧ is_colon (to_lower c) = is_colon c.
Proof. destruct c as [[] [] [] [] [] [] [] []]; vm_compute; done. Qed.

Lemma to_upper_keeps c :
  hexDigitToInt (to_upper c) = hexDigitToInt c
  ∧ isspace (to_upper c) = isspace c ∧ is_colon (to_upper c) = is_colon c.
Proof. destruct c as [[] [] [] [] [] [] [] []]; vm_compute; done. Qed.

(** X7. The normalizer does not tell upper case from lower case: a line
    and the line with its letters turned into lower case, or into upper
    case, get the same result. *)
Theorem letter_case_is_ignored (line : list ascii) :
  parseIPv6_chars (to_lower <$> line) = parseIPv6_chars line
  ∧ parseIPv6_chars (to_upper <$> line) = parseIPv6_chars line.
Proof.
  split.
  - apply parseIPv6_chars_map; intros c; apply to_lower_keeps.
  - apply parseIPv6_chars_map; intros c; apply to_upper_keeps.
Qed.

(** ** The order of the keys *)

Lemma lt128_spec a b :
  lt128 a b = true ↔ hi a < hi b ∨ (hi a = hi b ∧ lo a < lo b).
Proof.
  unfold lt128. destruct (Z.eqb_spec (hi a) (hi b)); simpl.
  - rewrite Z.ltb_lt. lia.
  - rewrite Z.ltb_lt. lia.
Qed.

(** X8. [operator<] is a strict total order on keys and [operator==] is
    equality, as [std::sort] and [std::unique] need; on halves of 64 bits
    it is the order of the 128-bit numbers. *)
Theorem key_order_is_strict_and_total :
  (∀ a, lt128 a a = false)
  ∧ (∀ a b c, lt128 a b = true -> lt128 b c = true -> lt128 a c = true)
  ∧ (∀ a b, lt128 a b = true -> lt128 b a = false)
  ∧ (∀ a b, lt128 a b = false -> lt128 b a = false -> eq128 a b = true)
  ∧ (∀ a b, eq128 a b = true ↔ a = b)
  ∧ (∀ a b, 0 <= lo a < 2 ^ 64 -> 0 <= lo b < 2 ^ 64 ->
       (lt128 a b = true ↔ value128 a < value128 b)).
Proof.
  split; [|split; [|split; [|split; [|split]]]].
  - intros a. apply not_true_is_false. rewrite lt128_spec. lia.
  - intros a b c. rewrite !lt128_spec. lia.
  - intros a b Hab. apply not_true_is_false. rewrite lt128_spec in *. lia.
  - intros a b Hab Hba. apply not_true_iff_false in Hab, Hba.
    rewrite lt128_spec in Hab, Hba. unfold eq128.
    apply andb_true_iff. rewrite !Z.eqb_eq. lia.
  - apply eq128_spec.
  - intros a b Ha Hb. rewrite lt128_spec. unfold value128. nia.
Qed.

Lemma key_order_witness :
  lt128 (Uint128 1 0) (Uint128 1 5) = true ∧ lt128 (Uint128 1 0) (Uint128 2 0) = true.
Proof.
  pose proof key_order_is_strict_and_total as (_ & Htrans & _).
  split; [reflexivity|].
  apply (Htrans (Uint128 1 0) (Uint128 1 5) (Uint128 2 0)); reflexivity.
Defined.

(** ** White space around the text of a line *)

Lemma skip_spaces_leading ws s :
  forallb isspace ws = true -> skip_spaces (ws ++ s) = skip_spaces s.
Proof.
  induction ws as [|c ws IH]; [done|]. simpl.
  intros [-> Hws]%andb_true_iff. auto.
Qed.

Lemma parse_leading_spaces ws s :
  forallb isspace ws = true -> parseIPv6_chars (ws ++ s) = parseIPv6_chars s.
Proof. intros Hws. unfold parseIPv6_chars. by rewrite skip_spaces_leading. Qed.

Lemma parse_trailing_spaces s ws :
  forallb isspace ws = true -> parseIPv6_chars (s ++ ws) = parseIPv6_chars s.
Proof.
  induction ws as [|sp ws IH] using rev_ind; intros Hws.
  - by rewrite app_nil_r.
  - rewrite forallb_app in Hws. apply andb_true_iff in Hws as [Hws Hsp].
    simpl in Hsp. rewrite andb_true_r in Hsp.
    rewrite app_assoc, parse_trailing_space by done. auto.
Qed.

(** X9. White space before and after the text of a line changes
    nothing. *)
Theorem surrounding_white_space_ignored (ws1 ws2 s : list ascii) :
  forallb isspace ws1 = true -> forallb isspace ws2 = true ->
  parseIPv6_chars (ws1 ++ s ++ ws2) = parseIPv6_chars s.
Proof.
  intros H1 H2. by rewrite parse_leading_spaces, parse_trailing_spaces.
Qed.

Lemma surrounding_white_space_witness :
  parseIPv6 "  fe80::1   " = parseIPv6 "fe80::1".
Proof.
  exact (surrounding_white_space_ignored
           (list_ascii_of_string "  ") (list_ascii_of_string "   ")
           (list_ascii_of_string "fe80::1") eq_refl eq_refl).
Defined.

(** ** A marker beside eight groups *)

Lemma shift_loop_full (pre bs us : list Z) :
  (length pre + length bs + length us = 8)%nat ->
  shift_loop (length bs) (Z.of_nat (length us)) 8 (pre ++ bs ++ us)
  = pre ++ replicate (length bs) 0 ++ us.
Proof.
  revert us. induction bs as [|x bs IH] using rev_ind; intros us Hlen; [done|].
  rewrite length_app in *. simpl in Hlen.
  replace (length bs + length [x])%nat with (S (length bs)) by (simpl; lia).
  simpl shift_loop.
  replace (Z.to_nat (8 - 1 - Z.of_nat (length us))) with (length (pre ++ bs))
    by (rewrite length_app; lia).
  replace (Z.to_nat (7 - Z.of_nat (length us))) with (length (pre ++ bs))
    by (rewrite length_app; lia).
  assert (Hp : pre ++ (bs ++ [x]) ++ us = (pre ++ bs) ++ x :: us).
  { by rewrite <- !app_assoc. }
  rewrite Hp, list_lookup_total_middle by done.
  rewrite !insert_app_r_alt by lia. rewrite Nat.sub_diag. simpl.
  specialize (IH (0 :: us)). simpl in IH.
  replace (Z.of_nat (length us) + 1) with (Z.of_nat (S (length us))) by lia.
  rewrite <- app_assoc, IH by lia.
  change (0 :: replicate (length bs) 0 ++ us)
    with (replicate (S (length bs)) 0 ++ us).
  by rewrite replicate_S_end, <- app_assoc.
Qed.

Lemma expand_marked_full (a b : list Z) :
  (length a + length b = 8)%nat ->
  expand (PState (a ++ b) 8 (Z.of_nat (length a)))
  = Some (a ++ replicate (length b) 0).
Proof.
  intros Hlen. unfold expand. simpl.
  destruct (Z.eqb_spec (Z.of_nat (length a)) (-1)); [lia|]. simpl.
  replace (Z.to_nat (8 - Z.of_nat (length a))) with (length b) by lia.
  pose proof (shift_loop_full a b [] ) as H.
  rewrite !app_nil_r in H. simpl (length []) in H. change (Z.of_nat 0) with 0 in H.
  rewrite H by lia. done.
Qed.

(** X10. With a marker and eight groups in all, the line is accepted and
    every group after the marker is replaced by zero: the groups before the
    marker keep their slots and the other slots are zero. *)
Theorem marker_with_eight_groups_clears_tail
    (ws : list ascii) (a b : list (list ascii)) (t : list ascii) :
  forallb isspace ws = true ->
  Forall (λ g, is_group g = true) a -> Forall (λ g, is_group g = true) b ->
  (length a + length b = 8)%nat -> ends t = true ->
  parseIPv6_chars (ws ++ join a ++ ":"%char :: ":"%char :: join b ++ t)
  = Some (pack (map group_value a ++ replicate (length b) 0)).
Proof.
  intros Hws Ha Hb Hlen Ht.
  pose proof (expand_marked_full (map group_value a) (map group_value b)) as He.
  rewrite !length_map in He. specialize (He Hlen).
  destruct (decide (a = [])) as [->|Hane].
  - simpl (join []). simpl ([] ++ _). rewrite parseIPv6_chars_double_colon by done.
    assert (Hbne : b ≠ []) by (intros ->; simpl in Hlen; lia).
    rewrite starts_hex_not_ends by auto using starts_hex_join'.
    rewrite main_loop_join_ends by (done || simpl in *; lia).
    rewrite stores_parts0 by (done || simpl in *; lia).
    apply finish_Some. simpl in Hlen.
    replace (8 - length b)%nat with 0%nat by lia.
    simpl (replicate 0 0). rewrite app_nil_r. rewrite Hlen at 1. exact He.
  - rewrite parseIPv6_chars_hex by auto using starts_hex_join'.
    rewrite main_loop_join_double_colon by (done || simpl; lia).
    simpl (negb _). cbv iota.
    rewrite stores_parts0 by (done || lia).
    destruct (decide (b = [])) as [->|Hbne].
    + simpl (join []). simpl ([] ++ _). rewrite main_loop_ends by done.
      apply finish_Some. unfold mark_double_colon. simpl.
      simpl in He, Hlen. rewrite Nat.add_0_r in Hlen.
      replace (8 - length a)%nat with 0%nat by lia.
      simpl (replicate 0 0). rewrite Hlen in He |- *. exact He.
    + unfold mark_double_colon.
      rewrite main_loop_join_ends by (done || simpl; lia).
      pose proof (stores_parts b (map group_value a) (Z.of_nat (length a)) Hb) as Hs.
      rewrite !length_map in Hs. simpl. rewrite Hs by lia.
      apply finish_Some.
      replace (8 - length a - length b)%nat with 0%nat by lia.
      replace (length a + length b)%nat with 8%nat by lia.
      simpl (replicate 0 0). rewrite app_nil_r. exact He.
Qed.

Lemma marker_with_eight_groups_witness :
  parseIPv6 "::1:2:3:4:5:6:7:8" = Some (Uint128 0 0).
Proof.
  assert (Hb : Forall (λ g, is_group g = true)
                 (list_ascii_of_string <$> ["1"; "2"; "3"; "4"; "5"; "6"; "7"; "8"]))
    by check_groups.
  pose proof (marker_with_eight_groups_clears_tail [] [] _ [] eq_refl
                (Forall_nil_2 _) Hb eq_refl eq_refl) as H.
  exact H.
Defined.

(** ** A colon too many *)

Lemma main_loop_colon s st :
  starts_colon s = false -> current_part st < 8 ->
  main_loop (":"%char :: s) st = main_loop s st.
Proof.
  intros Hs Hcp. rewrite main_loop_eq.
  destruct (Z.ltb_spec (current_part st) 8); [|lia].
  by rewrite loop_body_colon.
Qed.

Lemma parse_colon_after_marker ws a rest :
  forallb isspace ws = true -> Forall (λ g, is_group g = true) a ->
  (length a <= 7)%nat -> starts_colon rest = false ->
  parseIPv6_chars (ws ++ join a ++ ":"%char :: ":"%char :: ":"%char :: rest)
  = parseIPv6_chars (ws ++ join a ++ ":"%char :: ":"%char :: rest).
Proof.
  intros Hws Ha Hlen Hrest.
  destruct (decide (a = [])) as [->|Hane].
  - simpl (join []). simpl ([] ++ _). rewrite !parseIPv6_chars_double_colon by done.
    change (ends (":"%char :: rest)) with false. cbv iota.
    rewrite main_loop_colon by (done || simpl; lia).
    destruct (ends rest) eqn:He; [|done].
    by rewrite main_loop_ends.
  - rewrite !parseIPv6_chars_hex by auto using starts_hex_join'.
    rewrite !main_loop_join_double_colon by (done || simpl; lia).
    simpl (negb _). cbv iota.
    rewrite main_loop_colon; [done|done|].
    unfold mark_double_colon. simpl. rewrite stores_current_part. simpl. lia.
Qed.

Lemma parse_colon_at_end ws a b t :
  forallb isspace ws = true ->
  Forall (λ g, is_group g = true) a -> Forall (λ g, is_group g = true) b ->
  b ≠ [] -> (length a + length b <= 7)%nat -> ends t = true ->
  parseIPv6_chars (ws ++ join a ++ ":"%char :: ":"%char :: join b ++ ":"%char :: t)
  = Some (pack (map group_value a
                ++ replicate (8 - length a - length b) 0 ++ map group_value b)).
Proof.
  intros Hws Ha Hb Hbne Hlen Ht.
  pose proof (expand_marked (map group_value a) (map group_value b)) as He.
  rewrite !length_map in He. specialize (He Hlen).
  pose proof (ends_not_colon t Ht) as Htc.
  destruct (decide (a = [])) as [->|Hane].
  - simpl (join []). simpl ([] ++ _). rewrite parseIPv6_chars_double_colon by done.
    rewrite starts_hex_not_ends by auto using starts_hex_join'.
    rewrite main_loop_join_colon by (done || simpl in *; lia).
    rewrite main_loop_ends by done.
    rewrite stores_parts0 by (done || simpl in *; lia).
    apply finish_Some. apply He.
  - rewrite parseIPv6_chars_hex by auto using starts_hex_join'.
    rewrite main_loop_join_double_colon by (done || simpl; lia).
    simpl (negb _). cbv iota.
    rewrite stores_parts0 by (done || lia).
    unfold mark_double_colon.
    rewrite main_loop_join_colon by (done || simpl; lia).
    rewrite main_loop_ends by done.
    pose proof (stores_parts b (map group_value a) (Z.of_nat (length a)) Hb) as Hs.
    rewrite !length_map in Hs. simpl. rewrite Hs by lia.
    apply finish_Some. apply He.
Qed.

(** X11. A single colon that stands directly after the marker is skipped,
    whatever follows; and a single colon at the end of a text with a marker
    is ignored. Such lines are accepted as if the colon were not there. *)
Theorem stray_colon_is_ignored :
  (∀ (ws : list ascii) (a : list (list ascii)) (rest : list ascii),
     forallb isspace ws = true -> Forall (λ g, is_group g = true) a ->
     (length a <= 7)%nat -> starts_colon rest = false ->
     parseIPv6_chars (ws ++ join a ++ ":"%char :: ":"%char :: ":"%char :: rest)
     = parseIPv6_chars (ws ++ join a ++ ":"%char :: ":"%char :: rest))
  ∧ (∀ (ws : list ascii) (a b : list (list ascii)) (t : list ascii),
       forallb isspace ws = true ->
       Forall (λ g, is_group g = true) a -> Forall (λ g, is_group g = true) b ->
       b ≠ [] -> (length a + length b <= 7)%nat -> ends t = true ->
       parseIPv6_chars (ws ++ join a ++ ":"%char :: ":"%char :: join b ++ ":"%char :: t)
       = Some (pack (map group_value a
                     ++ replicate (8 - length a - length b) 0 ++ map group_value b))).
Proof. split; [apply parse_colon_after_marker|apply parse_colon_at_end]. Qed.

Lemma stray_colon_witness :
  parseIPv6 "1:::2" = parseIPv6 "1::2"
  ∧ parseIPv6 "1::2:" = Some (key_of_groups [1; 0; 0; 0; 0; 0; 0; 2]).
Proof.
  assert (Ha : Forall (λ g, is_group g = true) (list_ascii_of_string <$> ["1"]))
    by check_groups.
  assert (Hb : Forall (λ g, is_group g = true) (list_ascii_of_string <$> ["2"]))
    by check_groups.
  split.
  - exact (proj1 stray_colon_is_ignored [] _ (list_ascii_of_string "2")
             eq_refl Ha ltac:(simpl; lia) eq_refl).
  - pose proof (proj2 stray_colon_is_ignored [] _ _ [] eq_refl Ha Hb
                  ltac:(done) ltac:(simpl; lia) eq_refl) as H.
    vm_compute in H. vm_compute. exact H.
Defined.

(** ** A character that is no digit, no colon and no white space *)

Lemma colons_cons_colon c s : is_colon c = true -> colons (c :: s) = S (colons s).
Proof. intros Hc. unfold colons. by rewrite filter_cons, decide_True. Qed.

Lemma colons_cons_other c s : is_colon c = false -> colons (c :: s) = colons s.
Proof. intros Hc. unfold colons. rewrite filter_cons, decide_False; [done|congruence]. Qed.

Lemma colons_hex ds : forallb is_hex ds = true -> colons ds = 0%nat.
Proof.
  induction ds as [|c ds IH]; [done|]. simpl.
  intros [Hc Hds]%andb_true_iff. apply hex_not_sep in Hc as [Hc _].
  rewrite colons_cons_other by done. auto.
Qed.

Lemma opt_store_current_part st ds :
  current_part st <= current_part (opt_store st ds) <= current_part st + 1.
Proof. unfold opt_store. destruct (bool_decide _); simpl; lia. Qed.

Lemma opt_store_double_colon_index st ds :
  double_colon_index (opt_store st ds) = double_colon_index st.
Proof. unfold opt_store. by destruct (bool_decide _). Qed.

Lemma main_loop_invalid c rest p st :
  is_hex c = false -> is_colon c = false -> isspace c = false ->
  forallb (λ x, is_hex x || is_colon x) p = true ->
  current_part st + Z.of_nat (colons p) <= 7 ->
  main_loop (p ++ c :: rest) st = None.
Proof.
  intros Hch Hcc Hcs.
  remember (length p) as n eqn:Hn. revert p st Hn.
  induction (lt_wf n) as [n _ IH]. intros p st -> Hp Hcp.
  rewrite main_loop_eq.
  destruct (p ++ c :: rest) as [|x0 l0] eqn:E; [by destruct p|]. rewrite <- E. clear E x0 l0.
  destruct (Z.ltb_spec (current_part st) 8); [|lia].
  destruct (hex_prefix p) as (ds & p1 & -> & Hds & Hp1).
  rewrite forallb_app in Hp. apply andb_true_iff in Hp as [_ Hp].
  rewrite colons_app, colons_hex in Hcp by done. simpl in Hcp.
  pose proof (opt_store_current_part st ds) as Hst.
  assert (Hnh : starts_hex (p1 ++ c :: rest) = false).
  { destruct p1; [done|]. done. }
  rewrite <- app_assoc, loop_body_digits, loop_body_no_digits by done.
  destruct p1 as [|x p2]; simpl.
  { by rewrite Hcs, Hcc. }
  simpl in Hp1, Hp. apply andb_true_iff in Hp as [Hx Hp].
  rewrite Hp1 in Hx. simpl in Hx.
  destruct (colon_not_hex x Hx) as [_ Hxs]. rewrite Hxs, Hx.
  rewrite colons_cons_colon in Hcp by done.
  destruct p2 as [|y p3]; simpl.
  { rewrite Hcc. apply (IH 0%nat) with (p := []); [|done|done|simpl; lia].
    rewrite length_app. simpl. lia. }
  simpl in Hp. apply andb_true_iff in Hp as [Hy Hp].
  destruct (is_colon y) eqn:Hyc.
  - destruct (negb _); [done|].
    rewrite colons_cons_colon in Hcp by done.
    apply (IH (length p3)) with (p := p3); [|done|done|].
    + rewrite length_app. simpl. lia.
    + unfold mark_double_colon. simpl. lia.
  - rewrite colons_cons_other in Hcp by done.
    change (y :: p3 ++ c :: rest) with ((y :: p3) ++ c :: rest).
    apply (IH (length (y :: p3))) with (p := y :: p3); [|done| |].
    + rewrite length_app. simpl. lia.
    + simpl. by rewrite Hyc, Hy, Hp.
    + rewrite colons_cons_other by done. lia.
Qed.

(** X12. A character that is no hexadecimal digit, no colon and no white
    space makes the line rejected when it is reached: when only digits and
    colons, with at most seven colons, stand before it. *)
Theorem invalid_character_rejected (ws p : list ascii) (c : ascii) (rest : list ascii) :
  forallb isspace ws = true ->
  forallb (λ x, is_hex x || is_colon x) p = true -> (colons p <= 7)%nat ->
  is_hex c = false -> is_colon c = false -> isspace c = false ->
  parseIPv6_chars (ws ++ p ++ c :: rest) = None.
Proof.
  intros Hws Hp Hcol Hch Hcc Hcs.
  assert (Hvalid : ∀ x, is_hex x || is_colon x = true -> isspace x = false).
  { intros x [Hx|Hx]%orb_true_iff; [by apply hex_not_sep|by apply colon_not_hex]. }
  unfold parseIPv6_chars.
  destruct p as [|x p1].
  - rewrite skip_spaces_app by done. simpl. rewrite Hcc.
    by rewrite (main_loop_invalid c rest []) by (done || simpl; lia).
  - simpl in Hp. apply andb_true_iff in Hp as [Hx Hp].
    rewrite skip_spaces_app by (simpl; auto). simpl.
    destruct (is_colon x) eqn:Hxc.
    + rewrite colons_cons_colon in Hcol by done.
      destruct p1 as [|y p2]; simpl; [by rewrite Hcc|].
      simpl in Hp. apply andb_true_iff in Hp as [Hy Hp].
      destruct (is_colon y) eqn:Hyc; [|done].
      rewrite colons_cons_colon in Hcol by done.
      destruct (p2 ++ c :: rest) as [|z l] eqn:E; [by destruct p2|].
      assert (isspace z = false) as ->.
      { destruct p2 as [|z' p3]; simplify_eq/=; [done|].
        apply andb_true_iff in Hp as [Hz _]. auto. }
      rewrite <- E. by rewrite main_loop_invalid by (done || simpl; lia).
    + rewrite colons_cons_other in Hcol by done.
      change (x :: p1 ++ c :: rest) with ((x :: p1) ++ c :: rest).
      rewrite main_loop_invalid; [done..| |].
      * simpl. by rewrite Hxc, Hx, Hp.
      * rewrite colons_cons_other by done. simpl. lia.
Qed.

Lemma invalid_character_witness : parseIPv6 "fe80::1%eth0" = None.
Proof.
  exact (invalid_character_rejected [] (list_ascii_of_string "fe80::1") "%"
           (list_ascii_of_string "eth0") eq_refl eq_refl ltac:(vm_compute; lia)
           eq_refl eq_refl eq_refl).
Defined.

(** ** The key determines the address *)

(** X13. Different addresses get different keys: two lists of eight 16-bit
    groups with the same key are the same list, so two well-formed texts
    with the same key stand for the same address. *)
Theorem different_addresses_different_keys :
  (∀ p q, length p = 8%nat -> length q = 8%nat ->
          Forall group_ok p -> Forall group_ok q -> pack p = pack q -> p = q)
  ∧ (∀ t1 t2, spec_well_formed t1 -> spec_well_formed t2 ->
       parseIPv6_chars (spec_render t1) = parseIPv6_chars (spec_render t2) ->
       spec_groups t1 = spec_groups t2)
  ∧ (∀ t1 t2, spec_well_formed t1 -> spec_well_formed t2 ->
       line_key (text t1) = line_key (text t2) -> spec_groups t1 = spec_groups t2).
Proof.
  split; [apply pack_inj|]. split.
  - intros t1 t2 H1 H2. rewrite !parse_well_formed by done. intros Heq%(inj Some).
    destruct (spec_groups_ok t1 H1), (spec_groups_ok t2 H2). by apply pack_inj.
  - intros t1 t2 H1 H2. rewrite !line_key_text by done. intros Heq%(inj Some).
    destruct (spec_groups_ok t1 H1), (spec_groups_ok t2 H2). by apply pack_inj.
Qed.

Lemma different_addresses_witness :
  spec_groups (Compressed [] [list_ascii_of_string "1"])
  = spec_groups (Full (list_ascii_of_string <$> ["0"; "0"; "0"; "0"; "0"; "0"; "0"; "1"])).
Proof.
  apply (proj1 (proj2 different_addresses_different_keys)).
  - check_groups.
  - check_groups.
  - vm_compute. reflexivity.
Defined.

(** ** The partition of a key *)

Lemma bucketIdx_pack p :
  length p = 8%nat -> Forall group_ok p -> bucketIdx (pack p) = (p !!! 0%nat) / 256.
Proof.
  intros Hlen Hp.
  do 8 (destruct p as [|? p]; [done|]). destruct p; [|done].
  repeat match goal with H : Forall _ (_ :: _) |- _ => apply Forall_cons in H as [? H] end.
  unfold bucketIdx, pack. simpl. rewrite pack4_value by done.
  unfold group_ok in *.
  rewrite Z.shiftr_div_pow2 by lia. change 255 with (Z.ones 8).
  rewrite Z.land_ones by lia.
  replace ((z * 2 ^ 48 + z0 * 2 ^ 32 + z1 * 2 ^ 16 + z2) / 2 ^ 56) with (z / 256).
  - apply Z.mod_small. split; [apply Z.div_pos; lia|]. apply Z.div_lt_upper_bound; lia.
  - apply Z.div_unique_pos with
      (r := (z mod 256) * 2 ^ 48 + z0 * 2 ^ 32 + z1 * 2 ^ 16 + z2).
    + pose proof (Z.mod_pos_bound z 256 ltac:(lia)). lia.
    + pose proof (Z.div_mod z 256 ltac:(lia)). lia.
Qed.

(** X14. The partition of a key is the high byte of the first group of the
    address: all addresses that agree there are routed to the same
    temporary file, and an address that begins with the marker (or with a
    first group below 0x100) goes to partition 0. *)
Theorem partition_is_high_byte_of_first_group :
  (∀ p, length p = 8%nat -> Forall group_ok p -> bucketIdx (pack p) = (p !!! 0%nat) / 256)
  ∧ (∀ t, spec_well_formed t ->
       ∃ key, line_key (text t) = Some key
              ∧ bucketIdx key = (spec_groups t !!! 0%nat) / 256)
  ∧ (∀ b, Forall (λ g, is_field g = true) b -> (1 <= length b <= 7)%nat ->
       ∃ key, line_key (text (Compressed [] b)) = Some key ∧ bucketIdx key = 0).
Proof.
  split; [apply bucketIdx_pack|]. split.
  - intros t Ht. exists (pack (spec_groups t)). split; [by apply line_key_text|].
    destruct (spec_groups_ok t Ht). by apply bucketIdx_pack.
  - intros b Hb Hlen.
    assert (Ht : spec_well_formed (Compressed [] b)).
    { simpl. split; [done|]. split; [done|lia]. }
    exists (pack (spec_groups (Compressed [] b))). split; [by apply line_key_text|].
    destruct (spec_groups_ok _ Ht). rewrite bucketIdx_pack by done.
    cbn [spec_groups map app length].
    replace (8 - 0 - length b)%nat with (S (7 - length b)) by lia. done.
Qed.

Lemma partition_witness :
  ∃ key, line_key "fe80::1" = Some key ∧ bucketIdx key = 0xfe.
Proof.
  pose proof (proj1 (proj2 partition_is_high_byte_of_first_group)
                (Compressed [list_ascii_of_string "fe80"] [list_ascii_of_string "1"]))
    as (key & Hkey & Hb).
  - check_groups.
  - exists key. split; [exact Hkey|]. rewrite Hb. vm_compute. reflexivity.
Defined.

(** ** The writer writes whole buffers *)

Lemma add_blocks k ks w :
  writer_inv ks w -> writer_blocks w -> writer_blocks (add (bucketIdx k) k w).
Proof.
  intros [Hlen _] [Hbuf Hfile]. unfold add.
  pose proof (bucketIdx_range k) as Hr.
  assert (Hk : is_bucket (bucketIdx k)) by bucket_lia.
  set (w1 := {| buffers := _; files := _ |}).
  assert (Hnew : buffers w1 !!! Z.to_nat (bucketIdx k)
                 = buffers w !!! Z.to_nat (bucketIdx k) ++ [k]).
  { unfold w1; cbn [buffers]. by rewrite list_lookup_total_insert_eq by bucket_lia. }
  assert (Hother : ∀ b, is_bucket b -> b ≠ bucketIdx k ->
            buffers w1 !!! Z.to_nat b = buffers w !!! Z.to_nat b).
  { intros b Hb Hne. unfold w1; cbn [buffers].
    by rewrite list_lookup_total_insert_ne by bucket_lia. }
  pose proof (Hbuf _ Hk) as Hold.
  destruct (Z.geb_spec (Z.of_nat (length (buffers w1 !!! Z.to_nat (bucketIdx k))))
                       WRITE_BUFFER_SIZE) as [Hfull|Hroom].
  - unfold flush. rewrite Hnew in Hfull |- *. rewrite length_app in Hfull. cbn [length] in Hfull.
    destruct (buffers w !!! Z.to_nat (bucketIdx k) ++ [k]) as [|x buf] eqn:Hb.
    { by destruct (buffers w !!! Z.to_nat (bucketIdx k)). }
    assert (Hxl : Z.of_nat (length (x :: buf)) = WRITE_BUFFER_SIZE).
    { rewrite <- Hb, length_app. cbn [length]. lia. }
    split; cbn [buffers files].
    + intros b Hbk. destruct (decide (b = bucketIdx k)) as [->|Hne].
      * rewrite list_lookup_total_insert_eq
          by (unfold w1; cbn [buffers]; rewrite length_insert; bucket_lia).
        done.
      * rewrite list_lookup_total_insert_ne by bucket_lia.
        rewrite Hother by done. by apply Hbuf.
    + intros b on_disk Hbk. destruct (decide (b = bucketIdx k)) as [->|Hne].
      * rewrite lookup_alter_eq. unfold w1; cbn [files].
        destruct (files w !! getBucketFileName (bucketIdx k)) as [od|] eqn:Hod; [|done].
        intros [= <-]. rewrite length_app, Nat2Z.inj_add, Hxl.
        replace (Z.of_nat (length od) + WRITE_BUFFER_SIZE)
          with (Z.of_nat (length od) + 1 * WRITE_BUFFER_SIZE) by lia.
        rewrite Z_mod_plus_full. by eapply Hfile.
      * rewrite lookup_alter_ne by (intros ?%(inj _); done).
        unfold w1; cbn [files]. by apply Hfile.
  - split.
    + intros b Hbk. destruct (decide (b = bucketIdx k)) as [->|Hne]; [lia|].
      rewrite Hother by done. by apply Hbuf.
    + intros b on_disk Hbk. unfold w1; cbn [files]. by apply Hfile.
Qed.

Lemma ingest_blocks lines ks w :
  writer_inv ks w -> writer_blocks w -> writer_blocks (foldl ingest_line w lines).
Proof.
  revert ks w. induction lines as [|line lines IH]; intros ks w Hw Hb; [done|].
  cbn [foldl]. rewrite ingest_line_key.
  destruct (line_key line) as [k|]; [|by eapply IH].
  apply (IH (ks ++ [k])); [by apply add_inv|by eapply add_blocks].
Qed.

Lemma new_writer_inv d :
  (∀ b, is_bucket b -> d !! getBucketFileName b = Some []) ->
  writer_inv [] (Writer (replicate (Z.to_nat NUM_BUCKETS) []) d)
  ∧ writer_blocks (Writer (replicate (Z.to_nat NUM_BUCKETS) []) d).
Proof.
  intros Hd. split; split; cbn [buffers files].
  - by rewrite length_replicate.
  - intros b Hb. exists []. split; [by apply Hd|].
    by rewrite lookup_total_replicate_2 by bucket_lia.
  - intros b Hb. rewrite lookup_total_replicate_2 by bucket_lia. done.
  - intros b on_disk Hb. rewrite Hd by done. by intros [= <-].
Qed.

Lemma flush_empty b w : buffers w !!! Z.to_nat b = [] -> flush b w = w.
Proof. intros H. unfold flush. by rewrite H. Qed.

Lemma flush_all_empty bs w :
  (∀ b, b ∈ bs -> buffers w !!! Z.to_nat b = []) ->
  foldl (λ w i, flush i w) w bs = w.
Proof.
  induction bs as [|b bs IH]; intros Hbs; [done|]. cbn [foldl].
  rewrite flush_empty by (apply Hbs; by left).
  apply IH. intros b' Hb'. apply Hbs. by right.
Qed.

(** X15. Keys reach a temporary file in whole buffers of 65536 keys. When
    the lines have been read, before the writer is closed, the file of a
    partition holds the keys of the partition up to the last full buffer, in
    the order of arrival, and the buffer holds the rest, fewer than 65536
    keys. Closing the writer empties every buffer, and closing it again
    changes nothing. *)
Theorem writer_writes_whole_buffers
    (d : gmap string (list uint128_t)) (lines : list string) (b : Z) :
  (∀ b, is_bucket b -> d !! getBucketFileName b = Some []) ->
  is_bucket b ->
  let ks := bucket_keys b (keys_of lines) in
  let n := Z.of_nat (length ks) in
  let written := Z.to_nat (n - n mod WRITE_BUFFER_SIZE) in
  files (ingested d lines) !! getBucketFileName b = Some (take written ks)
  ∧ buffers (ingested d lines) !!! Z.to_nat b = drop written ks
  ∧ Z.of_nat (length (buffers (ingested d lines) !!! Z.to_nat b)) < WRITE_BUFFER_SIZE
  ∧ buffers (flushAllAndClose (ingested d lines)) !!! Z.to_nat b = []
  ∧ flushAllAndClose (flushAllAndClose (ingested d lines))
    = flushAllAndClose (ingested d lines).
Proof.
  intros Hd Hb ks n written.
  destruct (new_writer_inv d Hd) as [Hw0 Hb0].
  pose proof (ingest_inv lines [] _ Hw0) as Hw. rewrite app_nil_l in Hw.
  pose proof (ingest_blocks lines [] _ Hw0 Hb0) as Hblocks.
  fold (ingested d lines) in Hw, Hblocks.
  destruct Hw as [Hlen Hbk]. destruct Hblocks as [Hbuf Hfile].
  destruct (Hbk b Hb) as (on_disk & Hf & Hk). fold ks in Hk.
  pose proof (Hbuf b Hb) as Hlt. pose proof (Hfile b on_disk Hb Hf) as Hmod.
  assert (Hn : n = Z.of_nat (length on_disk)
                   + Z.of_nat (length (buffers (ingested d lines) !!! Z.to_nat b))).
  { unfold n. rewrite <- Hk, length_app. lia. }
  assert (Hwritten : written = length on_disk).
  { unfold written. rewrite Hn.
    apply Z.mod_divide in Hmod as [q Hq]; [|done].
    rewrite Hq, Z.add_comm, Z_mod_plus_full, Z.mod_small by lia. lia. }
  rewrite Hwritten, <- Hk, take_app_length, drop_app_length.
  split; [done|]. split; [done|]. split; [done|].
  destruct (flush_all_inv (seqZ 0 NUM_BUCKETS) (keys_of lines) (ingested d lines)
              (λ b, proj1 (is_bucket_seqZ b)) (Build_writer_inv _ _ Hlen Hbk))
    as [_ Hempty].
  split.
  - apply Hempty. by apply is_bucket_seqZ.
  - unfold flushAllAndClose at 1. by apply flush_all_empty.
Qed.

Lemma writer_writes_whole_buffers_witness :
  files (ingested fresh_disk ["::1"; "zz"; "::2"]) !! getBucketFileName 0 = Some []
  ∧ buffers (ingested fresh_disk ["::1"; "zz"; "::2"]) !!! 0%nat
    = [Uint128 0 1; Uint128 0 2].
Proof.
  pose proof (writer_writes_whole_buffers fresh_disk ["::1"; "zz"; "::2"] 0
                (openAll_inr _ _ _ fresh_disk_open) ltac:(bucket_lia))
    as (Hf & Hbuf & _).
  assert (Hks : bucket_keys 0 (keys_of ["::1"; "zz"; "::2"]) = [Uint128 0 1; Uint128 0 2])
    by (vm_compute; reflexivity).
  rewrite Hks in Hf, Hbuf. split; [exact Hf|exact Hbuf].
Defined.

(** ** [openAll]: which files it makes, and which failure it reports *)

Lemma open_fold_frame can bs d d' f :
  foldl (open_one can) (inr d) bs = inr d' ->
  (∀ b, b ∈ bs -> f ≠ getBucketFileName b) -> d' !! f = d !! f.
Proof.
  revert d. induction bs as [|b bs IH]; intros d; cbn [foldl].
  - by intros [= <-].
  - unfold open_one at 2.
    destruct (can (getBucketFileName b)); [|by rewrite open_fold_inl].
    intros Hfold Hf. rewrite (IH _ Hfold) by (intros b' Hb'; apply Hf; by right).
    apply lookup_insert_ne. intros Heq. by apply (Hf b); [left|].
Qed.

Lemma open_fold_first can bs d e :
  foldl (open_one can) (inr d) bs = inl e ->
  ∃ pre b post, bs = pre ++ b :: post ∧ e = getBucketFileName b ∧ can e = false
                ∧ ∀ b', b' ∈ pre -> can (getBucketFileName b') = true.
Proof.
  revert d. induction bs as [|b bs IH]; intros d; cbn [foldl]; [done|].
  unfold open_one at 2. destruct (can (getBucketFileName b)) eqn:Hcan.
  - intros Hfold. destruct (IH _ Hfold) as (pre & b' & post & -> & He & Hno & Hpre).
    exists (b :: pre), b', post. split; [done|]. split; [done|]. split; [done|].
    intros b'' [->|Hin]%elem_of_cons; auto.
  - rewrite open_fold_inl. intros [= <-]. exists [], b, bs.
    split; [done|]. split; [done|]. split; [done|].
    intros b' Hb'. by apply elem_of_nil in Hb'.
Qed.

Lemma seqZ_split pre b post n :
  seqZ 0 n = pre ++ b :: post ->
  0 <= b < n ∧ ∀ b', 0 <= b' < b -> b' ∈ pre.
Proof.
  intros Heq.
  assert (Hb : seqZ 0 n !! length pre = Some b).
  { rewrite Heq. by apply list_lookup_middle. }
  apply lookup_seqZ in Hb as [Hb Hlt]. split; [lia|].
  intros b' Hb'.
  assert (Hin : seqZ 0 n !! Z.to_nat b' = Some b').
  { apply lookup_seqZ. lia. }
  rewrite Heq, lookup_app_l in Hin by lia.
  by eapply list_elem_of_lookup_2.
Qed.

Lemma openAll_first_refused can d f :
  openAll can d = inl f ->
  ∃ b, is_bucket b ∧ f = getBucketFileName b ∧ can f = false
       ∧ ∀ b', 0 <= b' < b -> can (getBucketFileName b') = true.
Proof.
  rewrite openAll_fold.
  intros (pre & b & post & Hsplit & -> & Hno & Hpre)%open_fold_first.
  apply seqZ_split in Hsplit as [Hb Hin].
  exists b. split; [bucket_lia|]. split; [done|]. split; [done|]. auto.
Qed.

(** X16. [openAll] succeeds exactly when each of the 256 temporary files
    can be opened; the 256 files are then empty, whatever they held before,
    and no other file is changed. When it fails, the file it reports is the
    first, in the order of the indices, that cannot be opened, and this is
    the file that [main] names on the diagnostic stream. *)
Theorem openAll_creates_or_reports_first_failure
    (can : string → bool) (d : gmap string (list uint128_t)) :
  (∀ d', openAll can d = inr d' ->
     (∀ b, is_bucket b -> can (getBucketFileName b) = true)
     ∧ (∀ b, is_bucket b -> d' !! getBucketFileName b = Some [])
     ∧ (∀ f, (∀ b, is_bucket b -> f ≠ getBucketFileName b) -> d' !! f = d !! f))
  ∧ ((∀ b, is_bucket b -> can (getBucketFileName b) = true) ->
     ∃ d', openAll can d = inr d')
  ∧ (∀ b, is_bucket b -> can (getBucketFileName b) = false ->
       (∀ b', 0 <= b' < b -> can (getBucketFileName b') = true) ->
       openAll can d = inl (getBucketFileName b))
  ∧ (∀ w o b lines,
       can_create w = can -> disk0 w = d ->
       argc w = 3 -> input_file w = Some lines ->
       is_bucket b -> can (getBucketFileName b) = false ->
       (∀ b', 0 <= b' < b -> can (getBucketFileName b') = true) ->
       main_outcome w o ->
       o = Outcome 1 ["Error: Could not open temp file " +:+ getBucketFileName b] None).
Proof.
  assert (Hok : ∀ d', openAll can d = inr d' ->
            ∀ b, is_bucket b -> can (getBucketFileName b) = true).
  { intros d' Hopen b Hb. rewrite openAll_fold in Hopen.
    apply open_fold_inr in Hopen as [Hall _]. by apply Hall, is_bucket_seqZ. }
  assert (Hfirst : ∀ b, is_bucket b -> can (getBucketFileName b) = false ->
            (∀ b', 0 <= b' < b -> can (getBucketFileName b') = true) ->
            openAll can d = inl (getBucketFileName b)).
  { intros b Hb Hno Hpre. destruct (openAll can d) as [f|d'] eqn:Hopen.
    - apply openAll_first_refused in Hopen as (b1 & Hb1 & -> & Hno1 & Hpre1).
      f_equal. f_equal.
      destruct (Z.lt_trichotomy b1 b) as [Hlt|[->|Hgt]]; [|done|].
      + rewrite Hpre in Hno1 by bucket_lia. done.
      + rewrite Hpre1 in Hno by bucket_lia. done.
    - rewrite (Hok d' eq_refl b Hb) in Hno. done. }
  split; [|split; [|split]].
  - intros d' Hopen. split; [by apply (Hok d')|].
    split; [by apply (openAll_inr can d)|].
    intros f Hf. rewrite openAll_fold in Hopen.
    apply (open_fold_frame _ _ _ _ f) in Hopen; [done|].
    intros b Hb. by apply Hf, is_bucket_seqZ.
  - intros Hall. rewrite openAll_fold. apply open_fold_all.
    intros b Hb. by apply Hall, is_bucket_seqZ.
  - done.
  - intros w o b lines <- <- Hargc Hin Hb Hno Hpre Ho.
    pose proof (Hfirst b Hb Hno Hpre) as Hopen.
    destruct Ho as [Hargc'|_ Hin'|lines' f _ Hin' Hopen'|lines' d' σ _ _ Hopen' _ _].
    + done.
    + congruence.
    + rewrite Hopen in Hopen'. by injection Hopen' as <-.
    + rewrite Hopen in Hopen'. done.
Qed.

Lemma openAll_witness :
  openAll (λ f, negb (String.eqb f "temp_bucket_2.bin")) ∅ = inl "temp_bucket_2.bin".
Proof.
  pose proof (openAll_creates_or_reports_first_failure
                (λ f, negb (String.eqb f "temp_bucket_2.bin")) ∅) as (_ & _ & H & _).
  apply (H 2).
  - bucket_lia.
  - vm_compute. reflexivity.
  - intros b' Hb'.
    assert (b' = 0 ∨ b' = 1) as [->| ->] by lia; vm_compute; reflexivity.
Defined.

(** ** Phase 1 and the files *)

Lemma flush_frame b w f :
  f ≠ getBucketFileName b -> files (flush b w) !! f = files w !! f.
Proof.
  intros Hf. unfold flush. destruct (buffers w !!! Z.to_nat b); [done|].
  cbn [files]. by apply lookup_alter_ne.
Qed.

Lemma add_frame b k w f :
  f ≠ getBucketFileName b -> files (add b k w) !! f = files w !! f.
Proof.
  intros Hf. unfold add. destruct (_ >=? _); [|done].
  by rewrite flush_frame.
Qed.

Lemma add_other_buffer b b' k w :
  Z.to_nat b ≠ Z.to_nat b' ->
  buffers (add b k w) !!! Z.to_nat b' = buffers w !!! Z.to_nat b'.
Proof.
  intros Hne. unfold add.
  set (w1 := {| buffers := _; files := _ |}).
  assert (Hw1 : buffers w1 !!! Z.to_nat b' = buffers w !!! Z.to_nat b').
  { unfold w1; cbn [buffers]. by rewrite list_lookup_total_insert_ne. }
  destruct (_ >=? _); [|done].
  unfold flush. destruct (buffers w1 !!! Z.to_nat b); [done|].
  cbn [buffers]. by rewrite list_lookup_total_insert_ne.
Qed.

Lemma ingest_frame lines w f :
  (∀ b, is_bucket b -> f ≠ getBucketFileName b) ->
  files (foldl ingest_line w lines) !! f = files w !! f.
Proof.
  intros Hf. revert w. induction lines as [|line lines IH]; intros w; [done|].
  cbn [foldl]. rewrite IH, ingest_line_key.
  destruct (line_key line) as [k|]; [|done].
  apply add_frame, Hf. pose proof (bucketIdx_range k). bucket_lia.
Qed.

Lemma flush_all_frame bs w f :
  (∀ b, b ∈ bs -> f ≠ getBucketFileName b) ->
  files (foldl (λ w i, flush i w) w bs) !! f = files w !! f.
Proof.
  revert w. induction bs as [|b bs IH]; intros w Hf; [done|].
  cbn [foldl]. rewrite IH by (intros b' Hb'; apply Hf; by right).
  apply flush_frame, Hf. by left.
Qed.

(** X17. Phase 1 writes every key to the file of its partition and to no
    other: [add] leaves the files and the buffers of the other partitions
    as they are; when the writer has been closed the 256 files hold, taken
    together, as many keys as lines were accepted; and no file but the 256
    temporary files is changed. *)
Theorem phase1_writes_every_key_once
    (d : gmap string (list uint128_t)) (lines : list string) :
  (∀ b, is_bucket b -> d !! getBucketFileName b = Some []) ->
  (∀ w k b, is_bucket b -> b ≠ bucketIdx k ->
     files (add (bucketIdx k) k w) !! getBucketFileName b
     = files w !! getBucketFileName b
     ∧ buffers (add (bucketIdx k) k w) !!! Z.to_nat b = buffers w !!! Z.to_nat b)
  ∧ sumZ (file_length (phase1 d lines) <$> seqZ 0 NUM_BUCKETS)
    = Z.of_nat (length (keys_of lines))
  ∧ (length (keys_of lines) <= length lines)%nat
  ∧ (∀ f, (∀ b, is_bucket b -> f ≠ getBucketFileName b) ->
          phase1 d lines !! f = d !! f).
Proof.
  intros Hd. split; [|split; [|split]].
  - intros w k b Hb Hne. pose proof (bucketIdx_range k) as Hr. split.
    + apply add_frame. intros ?%(inj _). done.
    + apply add_other_buffer. bucket_lia.
  - rewrite <- (count_partition bucketIdx (keys_of lines) (seqZ 0 NUM_BUCKETS)).
    + f_equal. apply list_fmap_ext. intros i b Hb%list_elem_of_lookup_2.
      apply is_bucket_seqZ in Hb. unfold file_length.
      by rewrite phase1_files by done.
    + apply NoDup_seqZ.
    + intros k _. apply is_bucket_seqZ. pose proof (bucketIdx_range k). bucket_lia.
  - apply keys_of_length.
  - intros f Hf. unfold phase1, flushAllAndClose.
    rewrite flush_all_frame by (intros b Hb; by apply Hf, is_bucket_seqZ).
    by rewrite ingest_frame.
Qed.

Lemma phase1_writes_witness :
  sumZ (file_length (phase1 fresh_disk ["::1"; "ff00::1"; "::1"; "x"])
          <$> seqZ 0 NUM_BUCKETS) = 3.
Proof.
  pose proof (phase1_writes_every_key_once fresh_disk ["::1"; "ff00::1"; "::1"; "x"]
                (openAll_inr _ _ _ fresh_disk_open)) as (_ & H & _).
  rewrite H. vm_compute. reflexivity.
Defined.

(** ** How calls of [processBucket] compose *)

Lemma processBucket_total_after b σ :
  total_unique_count (processBucket b σ)
  = total_after (sfiles σ !! getBucketFileName b) (total_unique_count σ).
Proof.
  unfold processBucket, total_after.
  destruct (sfiles σ !! getBucketFileName b) as [ips|]; [|done].
  cbv zeta. by destruct (16 * Z.of_nat (length ips) =? 0).
Qed.

Lemma processBucket_lookup_ne b b' σ :
  b ≠ b' ->
  sfiles (processBucket b σ) !! getBucketFileName b' = sfiles σ !! getBucketFileName b'.
Proof.
  intros Hne. rewrite processBucket_files.
  apply lookup_delete_ne. intros ?%(inj _). done.
Qed.

Lemma total_after_comm o1 o2 t :
  total_after o1 (total_after o2 t) = total_after o2 (total_after o1 t).
Proof.
  unfold total_after. destruct o1 as [l1|], o2 as [l2|]; try done.
  destruct (16 * Z.of_nat (length l1) =? 0), (16 * Z.of_nat (length l2) =? 0); try done.
  rewrite !wrap64_add_l. f_equal. lia.
Qed.

Lemma processBucket_twice b σ :
  total_unique_count (processBucket b (processBucket b σ))
  = total_unique_count (processBucket b σ)
  ∧ sfiles (processBucket b (processBucket b σ)) = sfiles (processBucket b σ).
Proof.
  split.
  - rewrite (processBucket_total_after b (processBucket b σ)).
    by rewrite processBucket_files, lookup_delete_eq.
  - rewrite (processBucket_files b (processBucket b σ)), processBucket_files.
    apply delete_delete_eq.
Qed.

Lemma processBucket_comm b b' σ :
  total_unique_count (processBucket b (processBucket b' σ))
  = total_unique_count (processBucket b' (processBucket b σ))
  ∧ sfiles (processBucket b (processBucket b' σ))
    = sfiles (processBucket b' (processBucket b σ)).
Proof.
  destruct (decide (b = b')) as [->|Hne]; [done|]. split.
  - rewrite (processBucket_total_after b (processBucket b' σ)).
    rewrite (processBucket_total_after b' (processBucket b σ)).
    rewrite !processBucket_lookup_ne by done.
    rewrite !processBucket_total_after. apply total_after_comm.
  - rewrite !processBucket_files. apply delete_delete.
Qed.

Lemma processBucket_agree b σ1 σ2 :
  total_unique_count σ1 = total_unique_count σ2 -> sfiles σ1 = sfiles σ2 ->
  total_unique_count (processBucket b σ1) = total_unique_count (processBucket b σ2)
  ∧ sfiles (processBucket b σ1) = sfiles (processBucket b σ2).
Proof.
  intros Ht Hf. rewrite !processBucket_total_after, !processBucket_files.
  by rewrite Ht, Hf.
Qed.

Lemma processBucket_fold_agree bs σ1 σ2 :
  total_unique_count σ1 = total_unique_count σ2 -> sfiles σ1 = sfiles σ2 ->
  total_unique_count (foldl (λ s b, processBucket b s) σ1 bs)
  = total_unique_count (foldl (λ s b, processBucket b s) σ2 bs)
  ∧ sfiles (foldl (λ s b, processBucket b s) σ1 bs)
    = sfiles (foldl (λ s b, processBucket b s) σ2 bs).
Proof.
  revert σ1 σ2. induction bs as [|b bs IH]; intros σ1 σ2 Ht Hf; [done|].
  cbn [foldl]. destruct (processBucket_agree b σ1 σ2 Ht Hf). by apply IH.
Qed.

Lemma processBucket_fold_perm bs bs' σ :
  bs ≡ₚ bs' ->
  total_unique_count (foldl (λ s b, processBucket b s) σ bs)
  = total_unique_count (foldl (λ s b, processBucket b s) σ bs')
  ∧ sfiles (foldl (λ s b, processBucket b s) σ bs)
    = sfiles (foldl (λ s b, processBucket b s) σ bs').
Proof.
  intros Hperm. revert σ.
  induction Hperm as [|x l l' _ IH|x y l|l l' l'' _ IH1 _ IH2]; intros σ.
  - done.
  - cbn [foldl]. apply IH.
  - cbn [foldl]. destruct (processBucket_comm x y σ). by apply processBucket_fold_agree.
  - destruct (IH1 σ) as [-> ->]. apply IH2.
Qed.

(** X18. Calls of [processBucket] compose: a second call on the same
    partition changes neither the count nor the files, because the file is
    gone; two calls commute; so the count and the files after a list of
    calls do not depend on the order of the calls. *)
Theorem processBucket_calls_compose :
  (∀ b σ,
     total_unique_count (processBucket b (processBucket b σ))
     = total_unique_count (processBucket b σ)
     ∧ sfiles (processBucket b (processBucket b σ)) = sfiles (processBucket b σ))
  ∧ (∀ b b' σ,
       total_unique_count (processBucket b (processBucket b' σ))
       = total_unique_count (processBucket b' (processBucket b σ))
       ∧ sfiles (processBucket b (processBucket b' σ))
         = sfiles (processBucket b' (processBucket b σ)))
  ∧ (∀ bs bs' σ, bs ≡ₚ bs' ->
       total_unique_count (foldl (λ s b, processBucket b s) σ bs)
       = total_unique_count (foldl (λ s b, processBucket b s) σ bs')
       ∧ sfiles (foldl (λ s b, processBucket b s) σ bs)
         = sfiles (foldl (λ s b, processBucket b s) σ bs')).
Proof.
  split; [apply processBucket_twice|].
  split; [apply processBucket_comm|apply processBucket_fold_perm].
Qed.

Lemma processBucket_calls_witness :
  total_unique_count
    (foldl (λ s b, processBucket b s)
       (Shared {[getBucketFileName 0 := [Uint128 0 1; Uint128 0 1];
                 getBucketFileName 1 := [Uint128 (2 ^ 56) 0]]} 0 []) [1; 0; 1])
  = total_unique_count
      (foldl (λ s b, processBucket b s)
         (Shared {[getBucketFileName 0 := [Uint128 0 1; Uint128 0 1];
                   getBucketFileName 1 := [Uint128 (2 ^ 56) 0]]} 0 []) [0; 1; 1]).
Proof.
  apply (proj2 (proj2 processBucket_calls_compose)).
  apply perm_swap.
Defined.

(** ** The reduce phase and the files *)





(** ** What the outcome of a run depends on *)

Lemma main_seq_with_threads w h h' :
  main_seq (with_threads w h) = main_seq (with_threads w h').
Proof. done. Qed.

(** X20. The outcome of [main] does not depend on the number of hardware
    threads: every outcome in a world is an outcome in the world that
    differs in this number only. When the number reported is 0, four
    workers are started. *)
Theorem outcome_independent_of_thread_count (w : world) (h h' : Z) (o : outcome) :
  0 <= h < 2 ^ 32 -> 0 <= h' < 2 ^ 32 ->
  (main_outcome (with_threads w h) o -> main_outcome (with_threads w h') o)
  ∧ length (workers (reduce_init (nThreads (with_threads w 0)) ∅)) = 4%nat
  ∧ (h ≠ 0 ->
     Z.of_nat (length (workers (reduce_init (nThreads (with_threads w h)) ∅))) = h).
Proof.
  intros Hh Hh'. split; [|split].
  - intros Ho. apply main_outcome_seq in Ho; [|done].
    rewrite Ho, (main_seq_with_threads w h h'). by apply main_seq_outcome.
  - done.
  - intros Hne. unfold nThreads, reduce_init. cbn [workers hardware_concurrency with_threads].
    destruct (Z.eqb_spec h 0); [done|]. rewrite length_replicate. lia.
Qed.

Lemma outcome_independent_of_thread_count_witness :
  main_outcome (with_threads (quiet_world scenario_lines) 1)
    (main_seq (with_threads (quiet_world scenario_lines) 64)).
Proof.
  apply (outcome_independent_of_thread_count (quiet_world scenario_lines) 64 1);
    [lia|lia|].
  apply main_seq_outcome. simpl. lia.
Defined.

Lemma reduce_seq_count d lines :
  (∀ b, is_bucket b -> d !! getBucketFileName b = Some []) ->
  total_unique_count (reduce_seq (phase1 d lines))
  = wrap64 (Z.of_nat (length (remove_dups (keys_of lines)))).
Proof. intros Hd. by rewrite reduce_seq_total, phase1_count. Qed.

Lemma main_seq_same_keys w lines lines' :
  (∀ k, k ∈ keys_of lines ↔ k ∈ keys_of lines') ->
  main_seq (with_input w lines) = main_seq (with_input w lines').
Proof.
  intros Hkeys. unfold main_seq. cbn [argc input_file can_create disk0 with_input].
  destruct (negb (argc w =? 3)); [done|].
  destruct (openAll (can_create w) (disk0 w)) as [f|d] eqn:Hopen; [done|].
  pose proof (openAll_inr _ _ _ Hopen) as Hd.
  rewrite !reduce_seq_count by done.
  assert (length (remove_dups (keys_of lines)) = length (remove_dups (keys_of lines')))
    as ->; [|done].
  apply Permutation_length, NoDup_Permutation; [apply NoDup_remove_dups..|].
  intros k. by rewrite !elem_of_remove_dups.
Qed.

(** X21. The outcome of [main] depends on the input through the set of its
    keys only: two inputs whose accepted lines give the same keys, in
    whatever order, with whatever repetitions, rejected lines and empty
    lines, have the same outcomes. *)
Theorem outcome_depends_on_the_set_of_keys
    (w : world) (lines lines' : list string) (o : outcome) :
  0 <= hardware_concurrency w < 2 ^ 32 ->
  (∀ k, k ∈ keys_of lines ↔ k ∈ keys_of lines') ->
  main_outcome (with_input w lines) o -> main_outcome (with_input w lines') o.
Proof.
  intros Hh Hkeys Ho. apply main_outcome_seq in Ho; [|done].
  rewrite Ho, (main_seq_same_keys w lines lines' Hkeys). by apply main_seq_outcome.
Qed.

Lemma outcome_depends_on_the_set_of_keys_witness :
  main_outcome (with_input (quiet_world []) ["fe80::1"; ""; "::1"; "x"; "FE80::1"])
    (main_seq (with_input (quiet_world []) ["::1"; "fe80:0:0:0:0:0:0:1"])).
Proof.
  apply (outcome_depends_on_the_set_of_keys (quiet_world [])
           ["::1"; "fe80:0:0:0:0:0:0:1"] ["fe80::1"; ""; "::1"; "x"; "FE80::1"]).
  - simpl. lia.
  - intros k.
    assert (Hl : keys_of ["::1"; "fe80:0:0:0:0:0:0:1"]
                 = [Uint128 0 1; Uint128 (0xfe80 * 2 ^ 48) 1]) by (vm_compute; reflexivity).
    assert (Hr : keys_of ["fe80::1"; ""; "::1"; "x"; "FE80::1"]
                 = [Uint128 (0xfe80 * 2 ^ 48) 1; Uint128 0 1; Uint128 (0xfe80 * 2 ^ 48) 1])
      by (vm_compute; reflexivity).
    rewrite Hl, Hr, !elem_of_cons, !elem_of_nil. tauto.
  - apply main_seq_outcome. simpl. lia.
Defined.

(** ** The standard output *)

Lemma main_run_outcome w o out : main_run w o out -> main_outcome w o.
Proof.
  intros [Hargc|Hargc Hin|lines f Hargc Hin Hopen|lines d σ Hargc Hin Hopen Hrtc Hj].
  - by apply main_usage.
  - by apply main_no_input.
  - by eapply main_no_temp.
  - by eapply main_counted.
Qed.

Lemma main_run_exists w o :
  main_outcome w o -> ∃ out, main_run w o out.
Proof.
  intros [Hargc|Hargc Hin|lines f Hargc Hin Hopen|lines d σ Hargc Hin Hopen Hrtc Hj].
  - eexists. by apply run_usage.
  - eexists. by apply run_no_input.
  - eexists. by eapply run_no_temp.
  - eexists. by eapply run_counted.
Qed.

(** X22. The standard output. A run that fails writes at most the line of
    phase 1. A run that gets to the count ends its output with the line
    that reports the number of distinct keys, whether or not the output
    file can be written; when it can, the number in the file is the same. *)
Theorem standard_output_reports_the_count (w : world) (o : outcome) (out : list string) :
  0 <= hardware_concurrency w < 2 ^ 32 ->
  (∀ lines, input_file w = Some lines -> Z.of_nat (length lines) < 2 ^ 64) ->
  main_run w o out ->
  main_outcome w o
  ∧ (exit_status o = 1 -> out = [] ∨ out = [phase1_line])
  ∧ (exit_status o = 0 ->
     ∃ lines, input_file w = Some lines
       ∧ out = phase1_line :: progress lines
                 ++ [phase2_line;
                     done_line (Z.of_nat (length (remove_dups (keys_of lines))))]
       ∧ (output_writable w = true ->
          output_file o
          = Some (pretty (Z.of_nat (length (remove_dups (keys_of lines)))) +:+ newline))
       ∧ (output_writable w = false -> output_file o = None)).
Proof.
  intros Hh Hlen Hrun. split; [by eapply main_run_outcome|].
  destruct Hrun as [Hargc|Hargc Hin|lines f Hargc Hin Hopen|lines d σ Hargc Hin Hopen Hrtc Hj].
  - split; [by left|done].
  - split; [by right|done].
  - split; [by right|done].
  - rewrite (reduce_count (nThreads w) d lines σ);
      eauto using nThreads_range, openAll_inr.
    unfold write_result. split.
    + by destruct (output_writable w).
    + intros _. exists lines. split; [done|]. split; [done|].
      by destruct (output_writable w).
Qed.

Lemma standard_output_witness :
  ∃ o out,
    main_run {| argc := 3; argv0 := "count"; input_file := Some ["::1"; "::1"; "::2"];
                can_create := λ _, true; disk0 := ∅;
                hardware_concurrency := 2; output_writable := false |} o out
    ∧ last out = Some "Done. Found 2 unique IPv6 addresses."
    ∧ output_file o = None.
Proof.
  set (w := {| argc := 3; argv0 := "count"; input_file := Some ["::1"; "::1"; "::2"];
               can_create := λ _, true; disk0 := ∅;
               hardware_concurrency := 2; output_writable := false |}).
  assert (Hh : 0 <= hardware_concurrency w < 2 ^ 32) by (simpl; lia).
  destruct (main_run_exists w (main_seq w) (main_seq_outcome w Hh)) as [out Hrun].
  exists (main_seq w), out. split; [exact Hrun|].
  destruct (standard_output_reports_the_count w (main_seq w) out Hh) as (_ & _ & H).
  - intros lines [= <-]. simpl. lia.
  - exact Hrun.
  - destruct (H eq_refl) as (lines & [= <-] & -> & _ & Hnone).
    split; [|by apply Hnone].
    rewrite (app_comm_cons _ _ phase1_line).
    change [phase2_line; ?x] with ([phase2_line] ++ [x]).
    rewrite app_assoc, last_snoc. vm_compute. reflexivity.
Defined.

Lemma nonempty_line line :
  list_ascii_of_string line = [] ↔ line = EmptyString.
Proof. by destruct line. Qed.

Lemma count_line_fold lines p out :
  0 <= p -> p + Z.of_nat (length (nonempty_lines lines)) < 2 ^ 64 ->
  out = progress_line <$> ((λ j, j * 10000000) <$> seqZ 1 (p / 10000000)) ->
  foldl count_line (p, out) lines
  = (p + Z.of_nat (length (nonempty_lines lines)),
     progress_line <$> ((λ j, j * 10000000)
        <$> seqZ 1 ((p + Z.of_nat (length (nonempty_lines lines))) / 10000000))).
Proof.
  revert p out. induction lines as [|line lines IH]; intros p out Hp Hlt Hout.
  - cbn [foldl nonempty_lines filter list_filter length]. simpl (Z.of_nat 0).
    by rewrite Z.add_0_r, Hout.
  - cbn [foldl]. unfold nonempty_lines in *. rewrite filter_cons in Hlt |- *.
    unfold count_line at 2.
    destruct (list_ascii_of_string line) as [|c cs] eqn:Hline.
    + apply nonempty_line in Hline as ->.
      rewrite decide_False in Hlt |- * by (by intros H; apply H).
      by apply IH.
    + assert (line ≠ EmptyString) as Hne.
      { intros ->. done. }
      rewrite decide_True in Hlt |- * by done.
      cbn [length] in Hlt |- *. cbn [fst snd].
      assert (Hw : wrap64 (p + 1) = p + 1).
      { apply Z.mod_small. lia. }
      rewrite Hw.
      replace (p + Z.of_nat (S (length (filter (λ l, l ≠ EmptyString) lines))))
        with (p + 1 + Z.of_nat (length (filter (λ l, l ≠ EmptyString) lines))) by lia.
      apply IH; [lia|lia|].
      destruct (Z.eqb_spec ((p + 1) mod 10000000) 0) as [Hz|Hnz].
      * assert (Hq : (p + 1) / 10000000 = p / 10000000 + 1)
          by (Z.div_mod_to_equations; lia).
        assert (Hpos : 0 <= p / 10000000) by (apply Z.div_pos; lia).
        rewrite Hq, seqZ_app by lia.
        assert (Hone : seqZ (1 + p / 10000000) 1 = [p / 10000000 + 1]).
        { unfold seqZ. simpl. f_equal. lia. }
        rewrite Hone, !fmap_app, Hout. f_equal. cbn [fmap list_fmap]. do 2 f_equal.
        rewrite <- Hq. Z.div_mod_to_equations; lia.
      * assert (Hq : (p + 1) / 10000000 = p / 10000000)
          by (Z.div_mod_to_equations; lia).
        by rewrite Hq.
Qed.

(** X23. The progress lines of phase 1: one line for every ten million
    lines of the input that are not empty, accepted or not; the j-th
    reports j times ten million. Empty lines are not counted. *)
Theorem progress_every_ten_million_lines (lines : list string) :
  Z.of_nat (length (nonempty_lines lines)) < 2 ^ 64 ->
  progress lines
  = (λ j, progress_line (j * 10000000))
      <$> seqZ 1 (Z.of_nat (length (nonempty_lines lines)) / 10000000).
Proof.
  intros Hlt. unfold progress.
  rewrite (count_line_fold lines 0 []) by (done || lia).
  cbn [snd]. rewrite Z.add_0_l. by rewrite <- list_fmap_compose.
Qed.

Lemma progress_witness : progress ["::1"; ""; "not an address"] = [].
Proof.
  rewrite progress_every_ten_million_lines; [reflexivity|].
  vm_compute. reflexivity.
Defined.

(** ** The accesses to [parts] *)

(** X24. [parts] is never indexed out of its eight slots, whatever the
    line: the locals of [parseIPv6] start in a state that satisfies the
    invariant [pstate_ok], every pass of the main loop keeps it, under it
    the index of the store is within 0..7 when the loop condition holds,
    and so are the two indices of every pass of the expansion loop. *)
Theorem parts_is_indexed_within_bounds :
  (∀ d, -1 <= d <= 0 -> pstate_ok (PState parts0 0 d))
  ∧ (∀ s st, pstate_ok st -> current_part st < 8 ->
       0 <= current_part st
       ∧ (Z.to_nat (current_part st) < length (parts st))%nat
       ∧ match loop_body s st with
         | Continue _ st' | Break st' => pstate_ok st'
         | ReturnFalse => True
         end)
  ∧ (∀ s st st', pstate_ok st -> main_loop s st = Some st' -> pstate_ok st')
  ∧ (∀ st k, pstate_ok st -> double_colon_index st ≠ -1 ->
       0 <= k < current_part st - double_colon_index st ->
       0 <= 7 - k ∧ (Z.to_nat (7 - k) < length (parts st))%nat
       ∧ 0 <= current_part st - 1 - k
       ∧ (Z.to_nat (current_part st - 1 - k) < length (parts st))%nat).
Proof.
  split; [apply parts0_ok|]. split; [|split].
  - intros s st Hok Hcp.
    destruct (store_index_in_range st Hok Hcp) as [H1 H2].
    split; [done|]. split; [done|]. by apply loop_body_ok.
  - apply main_loop_ok.
  - apply expansion_indices_in_range.
Qed.

Lemma parts_is_indexed_within_bounds_witness :
  match loop_body (list_ascii_of_string "ffff::1") (PState parts0 0 (-1)) with
  | Continue _ st' | Break st' => pstate_ok st'
  | ReturnFalse => True
  end.
Proof.
  destruct (proj1 (proj2 parts_is_indexed_within_bounds)
              (list_ascii_of_string "ffff::1") (PState parts0 0 (-1))
              (parts0_ok (-1) ltac:(lia)) ltac:(simpl; lia)) as (_ & _ & H).
  exact H.
Defined.
